(** * ot-sca: SHA3 capture script and FVSR data generator

    A shallow embedding of [capture/capture_sha3.py] and
    [util/data_generator.py].  Python integers are [Z], byte sequences
    ([bytes], [bytearray] and lists of small integers alike) are [list Z],
    object attribute dictionaries are [gmap string _], and code that
    mutates state or raises runs in a small state-and-exception monad. *)

From Stdlib Require Import ZArith Lia.
From stdpp Require Import base option list gmap strings.

Local Open Scope Z_scope.

(** ** Library primitives

    The scripts call pycryptodome for SHA3-256, AES (ECB) and KMAC128.
    These are the standard algorithms (FIPS 202, FIPS 197, SP 800-185);
    they are written out here so that the model can be run. *)

Module Keccak.

Definition rotl64 (x n : Z) : Z :=
  Z.land (Z.lor (Z.shiftl x n) (Z.shiftr x (64 - n))) (Z.ones 64).

(** The 5x5 lane array is a list of 25 lanes, lane (x, y) at x + 5y. *)
Definition lane (A : list Z) (x y : Z) : Z :=
  nth (Z.to_nat (x mod 5 + 5 * (y mod 5))) A 0.

Definition coords : list (Z * Z) :=
  map (fun i => (Z.of_nat i mod 5, Z.of_nat i / 5)) (seq 0 25).

Definition rho_offsets : list Z :=
  [ 0;  1; 62; 28; 27;
   36; 44;  6; 55; 20;
    3; 10; 43; 25; 39;
   41; 45; 15; 21;  8;
   18;  2; 61; 56; 14].

Definition round_constants : list Z :=
  [0x0000000000000001; 0x0000000000008082; 0x800000000000808A;
   0x8000000080008000; 0x000000000000808B; 0x0000000080000001;
   0x8000000080008081; 0x8000000000008009; 0x000000000000008A;
   0x0000000000000088; 0x0000000080008009; 0x000000008000000A;
   0x000000008000808B; 0x800000000000008B; 0x8000000000008089;
   0x8000000000008003; 0x8000000000008002; 0x8000000000000080;
   0x000000000000800A; 0x800000008000000A; 0x8000000080008081;
   0x8000000000008080; 0x0000000080000001; 0x8000000080008008].

Definition theta (A : list Z) : list Z :=
  let C := map (fun x => fold_right Z.lxor 0 (map (lane A x) [0; 1; 2; 3; 4]))
               [0; 1; 2; 3; 4] in
  let c x := nth (Z.to_nat (x mod 5)) C 0 in
  let D := map (fun x => Z.lxor (c (x - 1)) (rotl64 (c (x + 1)) 1))
               [0; 1; 2; 3; 4] in
  map (fun '(x, y) => Z.lxor (lane A x y) (nth (Z.to_nat x) D 0)) coords.

Definition rho_pi (A : list Z) : list Z :=
  map (fun '(X, Y) =>
         let x := (X + 3 * Y) mod 5 in
         let y := X in
         rotl64 (lane A x y) (lane rho_offsets x y)) coords.

Definition chi (B : list Z) : list Z :=
  map (fun '(x, y) =>
         Z.lxor (lane B x y)
                (Z.land (Z.lxor (lane B (x + 1) y) (Z.ones 64))
                        (lane B (x + 2) y))) coords.

Definition iota (rc : Z) (A : list Z) : list Z :=
  match A with
  | a :: A' => Z.lxor a rc :: A'
  | [] => []
  end.

Definition keccak_f (A : list Z) : list Z :=
  fold_left (fun A rc => iota rc (chi (rho_pi (theta A)))) round_constants A.

(** Little-endian lane [i] of a byte block. *)
Definition le_lane (blk : list Z) (i : nat) : Z :=
  fold_right (fun j acc =>
                Z.lor (Z.shiftl (nth (8 * i + j)%nat blk 0) (8 * Z.of_nat j)) acc)
             0 (seq 0 8).

Definition absorb_block (rate : nat) (A blk : list Z) : list Z :=
  keccak_f (imap (fun i a => if (i <? rate / 8)%nat
                             then Z.lxor a (le_lane blk i) else a) A).

(** Multi-rate padding with the domain-separation suffix [d]. *)
Definition pad (rate : nat) (d : Z) (m : list Z) : list Z :=
  let q := (rate - length m mod rate)%nat in
  if (q =? 1)%nat then m ++ [Z.lor d 0x80]
  else m ++ [d] ++ replicate (q - 2) 0 ++ [0x80].

Definition state_byte (A : list Z) (k : nat) : Z :=
  Z.land (Z.shiftr (nth (k / 8) A 0) (8 * Z.of_nat (k mod 8))) 0xFF.

(** Absorb the padded message, then squeeze [outlen] bytes (at most
    one rate block, which is all the callers need). *)
Definition sponge (rate : nat) (d : Z) (outlen : nat) (m : list Z) : list Z :=
  let p := pad rate d m in
  let A := fold_left
             (fun A k => absorb_block rate A (take rate (drop (k * rate) p)))
             (seq 0 (length p / rate)) (replicate 25 0) in
  map (state_byte A) (seq 0 outlen).

End Keccak.

(** [SHA3_256.new(data).digest()] *)
Definition SHA3_256_digest (data : list Z) : list Z :=
  Keccak.sponge 136 0x06 32 data.

Example sha3_256_empty :
  SHA3_256_digest [] =
  [0xa7; 0xff; 0xc6; 0xf8; 0xbf; 0x1e; 0xd7; 0x66; 0x51; 0xc1; 0x47; 0x56;
   0xa0; 0x61; 0xd6; 0x62; 0xf5; 0x80; 0xff; 0x4d; 0xe4; 0x3b; 0x49; 0xfa;
   0x82; 0xd8; 0x0a; 0x4b; 0x80; 0xf8; 0x43; 0x4a].
Proof. vm_compute. reflexivity. Qed.

Example sha3_256_abc :
  SHA3_256_digest [0x61; 0x62; 0x63] =
  [0x3a; 0x98; 0x5d; 0xa7; 0x4f; 0xe2; 0x25; 0xb2; 0x04; 0x5c; 0x17; 0x2d;
   0x6b; 0xd3; 0x90; 0xbd; 0x85; 0x5f; 0x08; 0x6e; 0x3e; 0x9d; 0x52; 0x5b;
   0x46; 0xbf; 0xe2; 0x45; 0x11; 0x43; 0x15; 0x32].
Proof. vm_compute. reflexivity. Qed.

Module AES.

(** Arithmetic of GF(2^8) modulo x^8 + x^4 + x^3 + x + 1. *)
Definition xtime (a : Z) : Z :=
  let b := Z.shiftl a 1 in
  if Z.testbit b 8 then Z.lxor b 0x11B else b.

Definition gmul (a b : Z) : Z :=
  fst (fold_left (fun '(acc, a) i =>
                    (if Z.testbit b (Z.of_nat i) then Z.lxor acc a else acc,
                     xtime a))
                 (seq 0 8) (0, a)).

Definition gpow (a : Z) (n : nat) : Z := Nat.iter n (gmul a) 1.

Definition rotl8 (x n : Z) : Z :=
  Z.land (Z.lor (Z.shiftl x n) (Z.shiftr x (8 - n))) 0xFF.

Definition sbox_of (a : Z) : Z :=
  let b := gpow a 254 in
  fold_right Z.lxor 0x63 (map (rotl8 b) [0; 1; 2; 3; 4]).

Definition sbox_table : list Z :=
  Eval vm_compute in map (fun i => sbox_of (Z.of_nat i)) (seq 0 256).

Definition sbox (a : Z) : Z := nth (Z.to_nat a) sbox_table 0.

Definition xor_bytes (a b : list Z) : list Z := zip_with Z.lxor a b.

(** The state is 16 bytes in column order: row r of column c at r + 4c. *)
Definition sub_bytes (s : list Z) : list Z := map sbox s.

Definition shift_rows (s : list Z) : list Z :=
  map (fun i => nth (i mod 4 + 4 * ((i / 4 + i mod 4) mod 4))%nat s 0) (seq 0 16).

Definition mix_columns (s : list Z) : list Z :=
  map (fun i =>
         let c := (4 * (i / 4))%nat in
         let a k := nth (c + (i + k) mod 4)%nat s 0 in
         fold_right Z.lxor 0 [gmul 2 (a 0%nat); gmul 3 (a 1%nat); a 2%nat; a 3%nat])
      (seq 0 16).

Definition sub_word (w : list Z) : list Z := map sbox w.
Definition rot_word (w : list Z) : list Z := drop 1 w ++ take 1 w.
Definition rcon (j : nat) : list Z := [Nat.iter (j - 1) xtime 1; 0; 0; 0].

(** Key schedule for [Nk] key words, as a flat list of bytes. *)
Definition key_expansion (key : list Z) : list Z :=
  let Nk := (length key / 4)%nat in
  let Nr := (Nk + 6)%nat in
  fold_left
    (fun W i =>
       let prev := take 4 (drop (4 * (i - 1)) W) in
       let temp :=
         if (i mod Nk =? 0)%nat
         then xor_bytes (sub_word (rot_word prev)) (rcon (i / Nk))
         else if ((6 <? Nk) && (i mod Nk =? 4))%nat
              then sub_word prev else prev in
       W ++ xor_bytes (take 4 (drop (4 * (i - Nk)) W)) temp)
    (seq Nk (4 * (Nr + 1) - Nk)) key.

Definition round_key (W : list Z) (r : nat) : list Z := take 16 (drop (16 * r) W).

Definition encrypt_block (key blk : list Z) : list Z :=
  let W := key_expansion key in
  let Nr := (length key / 4 + 6)%nat in
  let s := fold_left
             (fun s r => xor_bytes (mix_columns (shift_rows (sub_bytes s)))
                                   (round_key W r))
             (seq 1 (Nr - 1)) (xor_bytes blk (round_key W 0)) in
  xor_bytes (shift_rows (sub_bytes s)) (round_key W Nr).

(** ECB mode over a message whose length is a multiple of 16. *)
Definition ecb_encrypt (key data : list Z) : list Z :=
  flat_map (fun k => encrypt_block key (take 16 (drop (16 * k) data)))
           (seq 0 (length data / 16)).

End AES.

Module KMAC.

(** Big-endian base-256 digits of [x], at least one. *)
Definition be_bytes (x : Z) : list Z :=
  let n := Z.to_nat ((Z.log2 x) / 8 + 1) in
  map (fun i => Z.land (Z.shiftr x (8 * Z.of_nat (n - 1 - i))) 0xFF) (seq 0 n).

Definition left_encode (x : Z) : list Z :=
  let b := be_bytes x in Z.of_nat (length b) :: b.
Definition right_encode (x : Z) : list Z :=
  let b := be_bytes x in b ++ [Z.of_nat (length b)].
Definition encode_string (s : list Z) : list Z :=
  left_encode (8 * Z.of_nat (length s)) ++ s.
Definition bytepad (x : list Z) (w : nat) : list Z :=
  let z := left_encode (Z.of_nat w) ++ x in
  z ++ replicate ((w - length z mod w) mod w) 0.

Definition name : list Z := [0x4B; 0x4D; 0x41; 0x43].

(** KMAC128 with an empty customization string. *)
Definition kmac128 (key data : list Z) (mac_len : nat) : list Z :=
  Keccak.sponge 168 0x04 mac_len
    (bytepad (encode_string name ++ encode_string []) 168
     ++ bytepad (encode_string key) 168 ++ data
     ++ right_encode (8 * Z.of_nat mac_len)).

End KMAC.

Example aes128_fips197 :
  AES.encrypt_block (map Z.of_nat (seq 0 16))
                    (map (fun i => 0x11 * Z.of_nat i) (seq 0 16)) =
  [0x69; 0xc4; 0xe0; 0xd8; 0x6a; 0x7b; 0x04; 0x30;
   0xd8; 0xcd; 0xb7; 0x80; 0x70; 0xb4; 0xc5; 0x5a].
Proof. vm_compute. reflexivity. Qed.

Example aes192_fips197 :
  AES.encrypt_block (map Z.of_nat (seq 0 24))
                    (map (fun i => 0x11 * Z.of_nat i) (seq 0 16)) =
  [0xdd; 0xa9; 0x7c; 0xa4; 0x86; 0x4c; 0xdf; 0xe0;
   0x6e; 0xaf; 0x70; 0xa0; 0xec; 0x0d; 0x71; 0x91].
Proof. vm_compute. reflexivity. Qed.

Example aes256_fips197 :
  AES.encrypt_block (map Z.of_nat (seq 0 32))
                    (map (fun i => 0x11 * Z.of_nat i) (seq 0 16)) =
  [0x8e; 0xa2; 0xb7; 0xca; 0x51; 0x67; 0x45; 0xbf;
   0xea; 0xfc; 0x49; 0x90; 0x4b; 0x49; 0x60; 0x89].
Proof. vm_compute. reflexivity. Qed.

Example kmac128_sample1 :
  KMAC.kmac128 (map Z.of_nat (seq 64 32)) [0; 1; 2; 3] 32 =
  [0xE5; 0x78; 0x0B; 0x0D; 0x3E; 0xA6; 0xF7; 0xD3; 0xA4; 0x29; 0xC5; 0x70;
   0x6A; 0xA4; 0x3A; 0x00; 0xFA; 0xDB; 0xD7; 0xD4; 0x96; 0x28; 0x83; 0x9E;
   0x31; 0x87; 0x24; 0x3F; 0x45; 0x6E; 0xE1; 0x4E].
Proof. vm_compute. reflexivity. Qed.

(** ** Python runtime: exceptions, state, byte conversions *)

Inductive exn : Set :=
| AssertionError | ValueError | IndexError | TypeError
| OverflowError | AttributeError | UnboundLocalError
| OutOfFuel.

Inductive outcome (A : Type) : Type :=
| Ret (a : A)
| Raise (e : exn).
Arguments Ret {A} a.
Arguments Raise {A} e.

(** A computation over a store [St]: it leaves a result or an exception,
    and the store as it was when it returned or raised. *)
Definition M (St A : Type) : Type := St -> outcome A * St.

Definition ret {St A} (a : A) : M St A := fun s => (Ret a, s).
Definition raise {St A} (e : exn) : M St A := fun s => (Raise e, s).
Definition bind {St A B} (m : M St A) (k : A -> M St B) : M St B :=
  fun s => match m s with
           | (Ret a, s') => k a s'
           | (Raise e, s') => (Raise e, s')
           end.
Definition get {St} : M St St := fun s => (Ret s, s).
Definition modify {St} (f : St -> St) : M St unit := fun s => (Ret tt, f s).

Notation "x <- m ;; k" := (bind m (fun x => k))
  (at level 100, m at next level, right associativity).
Notation "m ;; k" := (bind m (fun _ => k))
  (at level 100, right associativity).

(** [assert cond] *)
Definition assert {St} (cond : bool) : M St unit :=
  if cond then ret tt else raise AssertionError.

Definition is_byte (x : Z) : bool := (0 <=? x) && (x <? 256).

(** [bytes(l)] and [bytearray(l)] of a sequence of integers: every
    element must be in range(256). *)
Definition bytes {St} (l : list Z) : M St (list Z) :=
  if forallb is_byte l then ret l else raise ValueError.

(** ** util/data_generator.py *)

Module DataGenerator.

(** What an attribute can hold: a byte sequence (a list of integers at
    first, a [bytes] object once advanced) or an AES-ECB cipher object,
    which is determined by its key. *)
Inductive pyval : Type :=
| PyBytes (b : list Z)
| PyAES (key : list Z).

(** The class object's attributes and the attribute dictionary of each
    instance created so far; an instance is referred to by its index. *)
Record world : Type := {
  class_attrs : gmap string pyval;
  instances : list (gmap string pyval);
}.

(** [self.name]: the instance dictionary first, then the class. *)
Definition getattr (self : nat) (name : string) : M world pyval :=
  fun w =>
    match instances w !! self with
    | Some d =>
        match d !! name with
        | Some v => (Ret v, w)
        | None =>
            match class_attrs w !! name with
            | Some v => (Ret v, w)
            | None => (Raise AttributeError, w)
            end
        end
    | None => (Raise AttributeError, w)
    end.

(** [self.name = v] always writes the instance dictionary. *)
Definition setattr (self : nat) (name : string) (v : pyval) : M world unit :=
  modify (fun w => {| class_attrs := class_attrs w;
                      instances := alter (insert name v) self (instances w) |}).

(** [bytes(v)] of an attribute value. *)
Definition bytes_of (v : pyval) : M world (list Z) :=
  match v with
  | PyBytes b => bytes b
  | PyAES _ => raise TypeError
  end.

(** [AES.new(key, AES.MODE_ECB)] *)
Definition AES_new {St} (key : list Z) : M St pyval :=
  if bool_decide (length key ∈ [16; 24; 32]%nat)
  then ret (PyAES key) else raise ValueError.

(** [cipher.encrypt(data)] *)
Definition encrypt {St} (cipher : pyval) (data : list Z) : M St (list Z) :=
  match cipher with
  | PyAES key =>
      if (length data mod 16 =? 0)%nat
      then ret (AES.ecb_encrypt key data) else raise ValueError
  | PyBytes _ => raise AttributeError
  end.

(** [KMAC128.new(key=key, mac_len=32)], [update(data)], [digest()] *)
Definition KMAC128_digest {St} (key data : list Z) : M St (list Z) :=
  if (length key <? 16)%nat then raise ValueError
  else ret (KMAC.kmac128 key data 32).

Definition key_generation : list Z :=
  [0x12; 0x34; 0x56; 0x78; 0x9A; 0xBC; 0xDE; 0xF1; 0x23;
   0x45; 0x67; 0x89; 0xAB; 0xCD; 0xE0; 0xF0].
Definition text_fixed : list Z := replicate 16 0xAA.
Definition text_random : list Z := replicate 16 0xCC.
Definition key_fixed : list Z :=
  [0x81; 0x1E; 0x37; 0x31; 0xB0; 0x12; 0x0A; 0x78; 0x42; 0x78;
   0x1E; 0x22; 0xB2; 0x5C; 0xDD; 0xF9].
Definition key_random : list Z := replicate 16 0x53.

(** The class body. *)
Definition class_body : gmap string pyval :=
  <["key_generation" := PyBytes key_generation]>
  (<["text_fixed" := PyBytes text_fixed]>
  (<["text_random" := PyBytes text_random]>
  (<["key_fixed" := PyBytes key_fixed]>
  (<["key_random" := PyBytes key_random]>
  (<["cipher_gen" := PyAES key_generation]> ∅))))).

Definition init (self : nat) : M world unit :=
  kg <- getattr self "key_generation" ;;
  k <- bytes_of kg ;;
  c <- AES_new k ;;
  setattr self "cipher_gen" c.

(** [data_generator()]: a new, empty instance, then [__init__]. *)
Definition new : M world nat :=
  w <- get ;;
  let self := length (instances w) in
  modify (fun w => {| class_attrs := class_attrs w;
                      instances := instances w ++ [∅] |}) ;;
  init self ;;
  ret self.

Definition set_start (self : nat) : M world unit :=
  setattr self "text_fixed" (PyBytes text_fixed) ;;
  setattr self "text_random" (PyBytes text_random) ;;
  setattr self "key_fixed" (PyBytes key_fixed) ;;
  setattr self "key_random" (PyBytes key_random).

(** [self.name = self.cipher_gen.encrypt(bytes(self.name))] *)
Definition reencrypt (self : nat) (name : string) : M world unit :=
  c <- getattr self "cipher_gen" ;;
  v <- getattr self name ;;
  b <- bytes_of v ;;
  e <- encrypt c b ;;
  setattr self name (PyBytes e).

Definition advance_fixed (self : nat) : M world unit :=
  reencrypt self "text_fixed".

Definition advance_random (self : nat) : M world unit :=
  reencrypt self "text_random" ;;
  reencrypt self "key_random".

Definition get_fixed (self : nat) : M world (pyval * pyval * pyval) :=
  pt <- getattr self "text_fixed" ;;
  key <- getattr self "key_fixed" ;;
  kf <- getattr self "key_fixed" ;;
  k <- bytes_of kf ;;
  cipher_fixed <- AES_new k ;;
  tf <- getattr self "text_fixed" ;;
  t <- bytes_of tf ;;
  ct <- encrypt cipher_fixed t ;;
  advance_fixed self ;;
  ret (pt, PyBytes ct, key).

Definition get_random (self : nat) : M world (pyval * pyval * pyval) :=
  pt <- getattr self "text_random" ;;
  key <- getattr self "key_random" ;;
  kr <- getattr self "key_random" ;;
  k <- bytes_of kr ;;
  cipher_random <- AES_new k ;;
  tr <- getattr self "text_random" ;;
  t <- bytes_of tr ;;
  ct <- encrypt cipher_random t ;;
  advance_random self ;;
  ret (pt, PyBytes ct, key).

(** [np.asarray] keeps the bytes; it is the identity here. *)
Definition get_kmac_fixed (self : nat) : M world (pyval * pyval * pyval) :=
  pt <- getattr self "text_fixed" ;;
  key <- getattr self "key_fixed" ;;
  kf <- getattr self "key_fixed" ;;
  k <- bytes_of kf ;;
  tf <- getattr self "text_fixed" ;;
  t <- bytes_of tf ;;
  ct <- KMAC128_digest k t ;;
  advance_fixed self ;;
  ret (pt, PyBytes ct, key).

Definition get_kmac_random (self : nat) : M world (pyval * pyval * pyval) :=
  pt <- getattr self "text_random" ;;
  key <- getattr self "key_random" ;;
  kr <- getattr self "key_random" ;;
  k <- bytes_of kr ;;
  tr <- getattr self "text_random" ;;
  t <- bytes_of tr ;;
  ct <- KMAC128_digest k t ;;
  advance_random self ;;
  ret (pt, PyBytes ct, key).

(** Importing the module: the class is defined and [_inst] created. *)
Definition import : outcome nat * world :=
  new {| class_attrs := class_body; instances := [] |}.

Definition module_world : world := snd import.
Definition _inst : nat := 0%nat.

(** The four exported generator functions. *)
Inductive call : Set := GetFixed | GetRandom | GetKmacFixed | GetKmacRandom.

Definition run_call (self : nat) (c : call) : M world (pyval * pyval * pyval) :=
  match c with
  | GetFixed => get_fixed self
  | GetRandom => get_random self
  | GetKmacFixed => get_kmac_fixed self
  | GetKmacRandom => get_kmac_random self
  end.

(** The results of a sequence of calls, in order. *)
Fixpoint replay (self : nat) (cs : list call) (w : world)
  : list (outcome (pyval * pyval * pyval)) :=
  match cs with
  | [] => []
  | c :: cs' => let '(r, w') := run_call self c w in r :: replay self cs' w'
  end.

End DataGenerator.


(** ** capture/capture_sha3.py *)

(** In FVSR mode without batches [capture_sha3.py] takes its samples
    from [dg.get_sha3_fixed()] and [dg.get_sha3_random()].  The capture
    model reaches the data generator through this interface: two
    operations on the generator's state that return a plaintext, a
    digest and a key, or raise. *)
Class DgSha3 : Type := {
  get_sha3_fixed : M DataGenerator.world (list Z * list Z * list Z);
  get_sha3_random : M DataGenerator.world (list Z * list Z * list Z);
}.

(** What [util/data_generator.py] gives for the two: the module defines
    [set_start], [get_fixed], [get_random], [get_kmac_fixed] and
    [get_kmac_random], and neither [get_sha3_fixed] nor
    [get_sha3_random], so that looking up either name in the module
    raises [AttributeError], before anything is called. *)
Definition dg_sha3 : DgSha3 := {|
  get_sha3_fixed := raise AttributeError;
  get_sha3_random := raise AttributeError;
|}.

(** The fields of [CaptureConfig] that [capture] reads. *)
Record CaptureConfig : Type := {
  capture_mode : string;
  batch_mode : bool;
  num_traces : Z;
  num_segments : Z;
  output_len : Z;
  text_fixed : list Z;
  text_len_bytes : Z;
}.

(** Calls made on the collaborators (scope, target, project, progress
    bar), in the order they are made. *)
Inductive event : Type :=
| FvsrFixedMsgSet (msg : list Z)
| Arm
| AbsorbBatch (num_segments : list Z)
| Absorb (text : list Z)
| CaptureAndTransferWaves
| AppendTrace (wave plaintext ciphertext : list Z)
| ReadCiphertext (len : Z)
| OptimizeCapture (num_segments_storage : Z)
| PbarUpdate (n : Z).

(** What the collaborators and the [random] module answer: the k-th
    value of [random.randint(0, 255)], the k-th block of waves, the k-th
    reply to [read_ciphertext(len)], the k-th result of
    [optimize_capture(n)]. *)
Record Env : Type := {
  randint : nat -> Z;
  waves_of : nat -> list (list Z);
  read_ciphertext : nat -> Z -> list Z;
  optimize_capture : nat -> Z -> Z;
}.

(** The local variables of [capture] (an unbound one is [None]), the
    state of the two modules it uses, and the calls made so far. *)
Record state : Type := {
  text : list Z;
  ciphertext : option (list Z);
  sample_fixed : Z;
  plaintext : option (list Z);
  expected_ciphertext : option (list Z);
  remaining_num_traces : Z;
  num_segments_storage : Z;
  dg : DataGenerator.world;
  rand_calls : nat;
  log : list event;
}.

Definition set_text v s :=
  {| text := v; ciphertext := ciphertext s; sample_fixed := sample_fixed s;
     plaintext := plaintext s; expected_ciphertext := expected_ciphertext s;
     remaining_num_traces := remaining_num_traces s;
     num_segments_storage := num_segments_storage s;
     dg := dg s; rand_calls := rand_calls s; log := log s |}.
Definition set_ciphertext v s :=
  {| text := text s; ciphertext := v; sample_fixed := sample_fixed s;
     plaintext := plaintext s; expected_ciphertext := expected_ciphertext s;
     remaining_num_traces := remaining_num_traces s;
     num_segments_storage := num_segments_storage s;
     dg := dg s; rand_calls := rand_calls s; log := log s |}.
Definition set_sample_fixed v s :=
  {| text := text s; ciphertext := ciphertext s; sample_fixed := v;
     plaintext := plaintext s; expected_ciphertext := expected_ciphertext s;
     remaining_num_traces := remaining_num_traces s;
     num_segments_storage := num_segments_storage s;
     dg := dg s; rand_calls := rand_calls s; log := log s |}.
Definition set_plaintext v s :=
  {| text := text s; ciphertext := ciphertext s; sample_fixed := sample_fixed s;
     plaintext := v; expected_ciphertext := expected_ciphertext s;
     remaining_num_traces := remaining_num_traces s;
     num_segments_storage := num_segments_storage s;
     dg := dg s; rand_calls := rand_calls s; log := log s |}.
Definition set_expected_ciphertext v s :=
  {| text := text s; ciphertext := ciphertext s; sample_fixed := sample_fixed s;
     plaintext := plaintext s; expected_ciphertext := v;
     remaining_num_traces := remaining_num_traces s;
     num_segments_storage := num_segments_storage s;
     dg := dg s; rand_calls := rand_calls s; log := log s |}.
Definition set_remaining_num_traces v s :=
  {| text := text s; ciphertext := ciphertext s; sample_fixed := sample_fixed s;
     plaintext := plaintext s; expected_ciphertext := expected_ciphertext s;
     remaining_num_traces := v;
     num_segments_storage := num_segments_storage s;
     dg := dg s; rand_calls := rand_calls s; log := log s |}.
Definition set_num_segments_storage v s :=
  {| text := text s; ciphertext := ciphertext s; sample_fixed := sample_fixed s;
     plaintext := plaintext s; expected_ciphertext := expected_ciphertext s;
     remaining_num_traces := remaining_num_traces s;
     num_segments_storage := v;
     dg := dg s; rand_calls := rand_calls s; log := log s |}.
Definition set_dg v s :=
  {| text := text s; ciphertext := ciphertext s; sample_fixed := sample_fixed s;
     plaintext := plaintext s; expected_ciphertext := expected_ciphertext s;
     remaining_num_traces := remaining_num_traces s;
     num_segments_storage := num_segments_storage s;
     dg := v; rand_calls := rand_calls s; log := log s |}.
Definition set_rand_calls v s :=
  {| text := text s; ciphertext := ciphertext s; sample_fixed := sample_fixed s;
     plaintext := plaintext s; expected_ciphertext := expected_ciphertext s;
     remaining_num_traces := remaining_num_traces s;
     num_segments_storage := num_segments_storage s;
     dg := dg s; rand_calls := v; log := log s |}.
Definition set_log v s :=
  {| text := text s; ciphertext := ciphertext s; sample_fixed := sample_fixed s;
     plaintext := plaintext s; expected_ciphertext := expected_ciphertext s;
     remaining_num_traces := remaining_num_traces s;
     num_segments_storage := num_segments_storage s;
     dg := dg s; rand_calls := rand_calls s; log := v |}.

(** The state on entry to [capture]: no local is bound yet. *)
Definition entry (w : DataGenerator.world) (rc : nat) (l : list event) : state :=
  {| text := []; ciphertext := None; sample_fixed := 0; plaintext := None;
     expected_ciphertext := None; remaining_num_traces := 0;
     num_segments_storage := 0; dg := w; rand_calls := rc; log := l |}.

Definition is_trace (e : event) : bool :=
  match e with AppendTrace _ _ _ => true | _ => false end.
Definition is_arm (e : event) : bool :=
  match e with Arm => true | _ => false end.
Definition is_transfer (e : event) : bool :=
  match e with CaptureAndTransferWaves => true | _ => false end.
Definition is_read (e : event) : bool :=
  match e with ReadCiphertext _ => true | _ => false end.
Definition is_optimize (e : event) : bool :=
  match e with OptimizeCapture _ => true | _ => false end.

Definition count (p : event -> bool) (l : list event) : nat :=
  length (List.filter p l).

(** The (plaintext, ciphertext) pairs stored in the project, in order. *)
Definition traces (l : list event) : list (list Z * list Z) :=
  omap (fun e => match e with
                 | AppendTrace _ p c => Some (p, c)
                 | _ => None
                 end) l.

(** The plaintexts sent to the device with [absorb], in order. *)
Definition absorbed (l : list event) : list (list Z) :=
  omap (fun e => match e with Absorb t => Some t | _ => None end) l.

(** [x[0:stop]] *)
Definition slice_to (x : list Z) (stop : Z) : list Z :=
  if stop <? 0 then take (Z.to_nat (Z.of_nat (length x) + stop)) x
  else take (Z.to_nat stop) x.

(** [x[0]] *)
Definition first_item {St} (x : list Z) : M St Z :=
  match x with
  | b :: _ => ret b
  | [] => raise IndexError
  end.

(** [n.to_bytes(4, "little")] *)
Definition to_bytes_4_little {St} (n : Z) : M St (list Z) :=
  if (0 <=? n) && (n <? 2 ^ 32)
  then ret (map (fun i => Z.land (Z.shiftr n (8 * i)) 0xFF) [0; 1; 2; 3])
  else raise OverflowError.

(** The bytes kept for the device comparison after one more segment. *)
Definition exp_cipher_bytes (ciphertext : list Z) (expected_ciphertext : option (list Z))
  : list Z :=
  match expected_ciphertext with
  | None => ciphertext
  | Some e => zip_with Z.lxor ciphertext e
  end.

Section Capture.

Context (E : Env) `{DgSha3}.

Definition emit (e : event) : M state unit :=
  modify (fun s => set_log (log s ++ [e]) s).

Definition lift_dg {A} (m : M DataGenerator.world A) : M state A :=
  fun s => let '(r, w) := m (dg s) in (r, set_dg w s).

(** The k-th value drawn from [random]: an integer from 0 to 255. *)
Definition draw (k : nat) : Z := randint E k mod 256.

(** [random.randint(0, 255)] *)
Definition random_randint : M state Z :=
  s <- get ;;
  modify (set_rand_calls (S (rand_calls s))) ;;
  ret (draw (rand_calls s)).

(** [l = []; for i in range(0, n): l.append(random.randint(0, 255))] *)
Fixpoint random_bytes (n : nat) : M state (list Z) :=
  match n with
  | O => ret []
  | S n' => b <- random_randint ;; l <- random_bytes n' ;; ret (b :: l)
  end.

Definition generate_ref_crypto (sample_fixed : Z) (mode : string) (batch : bool)
    (plaintext plaintext_fixed : list Z) (text_len_bytes : Z)
  : M state (list Z * list Z * Z) :=
  if bool_decide (mode = "sha3_fvsr_data") && negb batch then
    r <- (if bool_decide (sample_fixed <> 0)
          then lift_dg get_sha3_fixed else lift_dg get_sha3_random) ;;
    let '(plaintext, ciphertext, key) := r in
    b <- first_item plaintext ;;
    ret (plaintext, ciphertext, Z.land b 0x1)
  else if bool_decide (mode = "sha3_random") then
    data <- bytes plaintext ;;
    ret (plaintext, SHA3_256_digest data, sample_fixed)
  else
    plaintext <- (if bool_decide (sample_fixed <> 0)
                  then ret plaintext_fixed
                  else random_bytes (Z.to_nat text_len_bytes)) ;;
    dummy_plaintext <- random_bytes 16 ;;
    data <- bytes plaintext ;;
    b <- first_item dummy_plaintext ;;
    ret (plaintext, SHA3_256_digest data, Z.land b 0x1).

Definition check_ciphertext (expected_last_ciphertext : option (list Z))
    (ciphertext_len : Z) : M state unit :=
  s <- get ;;
  let actual_last_ciphertext :=
    read_ciphertext E (count is_read (log s)) ciphertext_len in
  emit (ReadCiphertext ciphertext_len) ;;
  match expected_last_ciphertext with
  | None => raise TypeError
  | Some e =>
      assert (bool_decide (actual_last_ciphertext = slice_to e ciphertext_len))
  end.

(** [text, ciphertext, sample_fixed = generate_ref_crypto(sample_fixed =
    sample_fixed, ..., plaintext = text, plaintext_fixed = text_fixed, ...)] *)
Definition next_sample (cfg : CaptureConfig) : M state unit :=
  s <- get ;;
  r <- generate_ref_crypto (sample_fixed s) (capture_mode cfg) (batch_mode cfg)
                           (text s) (text_fixed cfg) (text_len_bytes cfg) ;;
  let '(t, c, f) := r in
  modify (fun s => set_sample_fixed f (set_ciphertext (Some c) (set_text t s))).

(** A local variable that may be unbound. *)
Definition bound {A} (v : option A) : M state A :=
  match v with
  | Some a => ret a
  | None => raise UnboundLocalError
  end.

(** One pass of the body of [for i in range(capture_cfg.num_segments)]. *)
Definition segment (cfg : CaptureConfig) (waves : list (list Z)) (i : nat)
  : M state unit :=
  (if batch_mode cfg || bool_decide (capture_mode cfg = "sha3_random")
   then next_sample cfg else ret tt) ;;
  wave <- (match waves !! i with
           | Some w => ret w
           | None => raise IndexError
           end) ;;
  assert (1 <=? length wave)%nat ;;
  s <- get ;;
  p <- bytes (text s) ;;
  c <- bound (ciphertext s) ;;
  c <- bytes c ;;
  emit (AppendTrace wave p c) ;;
  (if bool_decide (capture_mode cfg = "sha3_random")
   then p <- random_bytes 16 ;; modify (set_plaintext (Some p))
   else ret tt) ;;
  s <- get ;;
  if batch_mode cfg then
    c <- bound (ciphertext s) ;;
    modify (set_expected_ciphertext
              (Some (exp_cipher_bytes c (expected_ciphertext s))))
  else
    c <- bound (ciphertext s) ;;
    modify (set_expected_ciphertext (Some c)).

(** [for i in range(n): body(i)], from index [i] on. *)
Fixpoint for_range (body : nat -> M state unit) (i n : nat) : M state unit :=
  match n with
  | O => ret tt
  | S n' => body i ;; for_range body (S i) n'
  end.

(** From arming the scope to the last stored trace of the batch. *)
Definition acquire (cfg : CaptureConfig) : M state unit :=
  emit Arm ;;
  (if batch_mode cfg then
     n <- to_bytes_4_little (num_segments cfg) ;;
     emit (AbsorbBatch n)
   else
     (if bool_decide (capture_mode cfg = "sha3_fvsr_data")
      then next_sample cfg else ret tt) ;;
     s <- get ;;
     emit (Absorb (text s))) ;;
  s <- get ;;
  let waves := waves_of E (count is_transfer (log s)) in
  emit CaptureAndTransferWaves ;;
  assert (Z.of_nat (length waves) =? num_segments cfg) ;;
  modify (set_expected_ciphertext None) ;;
  for_range (segment cfg waves) 0 (Z.to_nat (num_segments cfg)).

(** The body of the [while] loop. *)
Definition iteration (cfg : CaptureConfig) : M state unit :=
  acquire cfg ;;
  s <- get ;;
  check_ciphertext (expected_ciphertext s) (output_len cfg) ;;
  s <- get ;;
  emit (OptimizeCapture (num_segments_storage s)) ;;
  modify (set_num_segments_storage
            (optimize_capture E (count is_optimize (log s))
                              (num_segments_storage s))) ;;
  s <- get ;;
  modify (set_remaining_num_traces (remaining_num_traces s - num_segments cfg)) ;;
  emit (PbarUpdate (num_segments cfg)).

(** [while remaining_num_traces > 0], unrolled at most [fuel] times. *)
Fixpoint capture_loop (fuel : nat) (cfg : CaptureConfig) : M state unit :=
  s <- get ;;
  if 0 <? remaining_num_traces s then
    match fuel with
    | O => raise OutOfFuel
    | S fuel' => iteration cfg ;; capture_loop fuel' cfg
    end
  else ret tt.

(** [capture], its loop unrolled at most [fuel] times. *)
Definition capture_with (fuel : nat) (cfg : CaptureConfig) : M state unit :=
  modify (set_text (text_fixed cfg)) ;;
  modify (set_sample_fixed 0) ;;
  modify (set_num_segments_storage 1) ;;
  (if batch_mode cfg then emit (FvsrFixedMsgSet (text_fixed cfg)) else ret tt) ;;
  modify (set_remaining_num_traces (num_traces cfg)) ;;
  capture_loop fuel cfg.

(** Every pass of the loop takes at least one trace off
    [remaining_num_traces] or raises, so [num_traces] passes are enough
    (see [capture_loop_fuel] and [capture_loop_ends]). *)
Definition capture (cfg : CaptureConfig) : M state unit :=
  capture_with (Z.to_nat (num_traces cfg)) cfg.

End Capture.

(** ** Notions used to state the properties *)

Module DataGeneratorSpec.
Import DataGenerator.

(** The entry for [name] in the dictionary of instance [i], if any. *)
Definition attr (w : world) (i : nat) (name : string) : option pyval :=
  instances w !! i ≫= (.!! name).

(** From [w] to [w'] nothing changed but, possibly, the attributes
    [names] of instance [self]. *)
Definition frame (self : nat) (names : list string) (w w' : world) : Prop :=
  class_attrs w' = class_attrs w /\
  length (instances w') = length (instances w) /\
  forall i name, i <> self \/ name ∉ names -> attr w' i name = attr w i name.

(** The attributes a generator function assigns. *)
Definition writes (c : call) : list string :=
  match c with
  | GetFixed | GetKmacFixed => ["text_fixed"]
  | GetRandom | GetKmacRandom => ["text_random"; "key_random"]
  end.

(** What instance [self] looks like from inside its methods: whether it
    exists, and what [self.name] gives for each name. *)
Definition same_view (self1 self2 : nat) (w1 w2 : world) : Prop :=
  (is_Some (instances w1 !! self1) <-> is_Some (instances w2 !! self2)) /\
  forall name, fst (getattr self1 name w1) = fst (getattr self2 name w2).

(** The states of the module that a program can reach after importing
    it: by calling the generator functions and [set_start] on any
    instance, and by creating further instances. *)
Inductive reachable : world -> Prop :=
| reach_import : reachable module_world
| reach_call w self c : reachable w -> reachable (snd (run_call self c w))
| reach_set_start w self : reachable w -> reachable (snd (set_start self w))
| reach_new w : reachable w -> reachable (snd (new w)).

End DataGeneratorSpec.

(** The running value after folding the digests [ds], in order, into
    the accumulator [acc]. *)
Definition fold_digests (acc : option (list Z)) (ds : list (list Z))
  : option (list Z) :=
  fold_left (fun acc d => Some (exp_cipher_bytes d acc)) ds acc.

(** Byte [j] is the exclusive-or of byte [j] of every digest. *)
Definition xor_all (n : nat) (ds : list (list Z)) : list Z :=
  map (fun j => fold_right Z.lxor 0 (map (fun d => nth j d 0) ds)) (seq 0 n).

(** The digests stored with the traces of a piece of the log. *)
Definition digests (l : list event) : list (list Z) := map snd (traces l).

(** [ceil(a / b)] for positive [b]. *)
Definition ceil_div (a b : Z) : Z := (a + b - 1) / b.

(** The state after the bookkeeping that follows a passed check: the
    device was read, the storage optimized, the counter and the progress
    bar updated. *)
Definition bookkeeping (E : Env) (cfg : CaptureConfig) (s : state) : state :=
  let s1 := set_log (log s ++ [ReadCiphertext (output_len cfg)]) s in
  let s2 := set_log (log s1 ++ [OptimizeCapture (num_segments_storage s1)]) s1 in
  let s3 := set_num_segments_storage
              (optimize_capture E (count is_optimize (log s1))
                                (num_segments_storage s1)) s2 in
  let s4 := set_remaining_num_traces
              (remaining_num_traces s3 - num_segments cfg) s3 in
  set_log (log s4 ++ [PbarUpdate (num_segments cfg)]) s4.

(** *** The FVSR sample sequence, as the specification words it *)

Section Lookahead.

Context (E : Env) `{DgSha3}.

(** One FVSR sample under the selector [selector]: what
    [generate_ref_crypto] produces for it.  (In the FVSR modes the
    function does not look at the current text.) *)
Definition fvsr_sample (cfg : CaptureConfig) (selector : Z)
  : M state (list Z * list Z * Z) :=
  generate_ref_crypto E selector (capture_mode cfg) (batch_mode cfg) []
                      (text_fixed cfg) (text_len_bytes cfg).

(** "The stimulus selector evaluated for sample i determines the
    content used for sample i+1": [n] samples in a row, the first one
    under [selector], each of the others under the selector that came
    out of the one before it.  The result is the samples and the
    selector for the sample that would come next. *)
Fixpoint fvsr_lookahead (cfg : CaptureConfig) (selector : Z) (n : nat)
  : M state (list (list Z * list Z) * Z) :=
  match n with
  | O => ret ([], selector)
  | S n' =>
      r <- fvsr_sample cfg selector ;;
      let '(plaintext, ciphertext, next) := r in
      rest <- fvsr_lookahead cfg next n' ;;
      ret ((plaintext, ciphertext) :: fst rest, snd rest)
  end.

End Lookahead.

(** *** The FVSR batch samples, as the amended claim words them *)

(** [n] samples in a row, the first one under [selector], with the
    random source at its [p]-th value.  A sample under a selector that
    is set uses the fixed message, a sample under selector 0 the next
    [text_len_bytes] bytes of the random source; the digest is that of
    the value used.  The selector for the next sample is the low bit of
    the first of the 16 dummy bytes drawn after it. *)
Fixpoint fvsr_sequence (E : Env) (cfg : CaptureConfig) (selector : Z) (p : nat)
    (n : nat) : list (list Z * list Z) :=
  match n with
  | O => []
  | S n' =>
      let len := Z.to_nat (text_len_bytes cfg) in
      let value := if bool_decide (selector <> 0) then text_fixed cfg
                   else map (draw E) (seq p len) in
      let q := if bool_decide (selector <> 0) then p else (p + len)%nat in
      (value, SHA3_256_digest value)
        :: fvsr_sequence E cfg (Z.land (draw E q) 1) (q + 16) n'
  end.

(** The functions of the data generator end by themselves: the
    exception of a loop cut short by its bound is none of theirs. *)
Definition generators_end `{DgSha3} : Prop :=
  forall w, fst (get_sha3_fixed w) <> Raise OutOfFuel /\
            fst (get_sha3_random w) <> Raise OutOfFuel.

(** The two generators, [dg] and [random], are in the same state. *)
Definition same_generators (s t : state) : Prop :=
  dg s = dg t /\ rand_calls s = rand_calls t.

(** From [s] to [s'] only the sample ([text], [ciphertext],
    [sample_fixed]) and the two generators have moved. *)
Definition quiet (s s' : state) : Prop :=
  log s' = log s /\
  remaining_num_traces s' = remaining_num_traces s /\
  num_segments_storage s' = num_segments_storage s /\
  plaintext s' = plaintext s /\
  expected_ciphertext s' = expected_ciphertext s.

(** What a stretch of the log shows of one and the same text [T]:
    every plaintext sent to the device and every plaintext stored is
    [T], and every stored digest is that of [T]. *)
Definition only_text (T : list Z) (l : list event) : Prop :=
  Forall (fun t => t = T) (absorbed l) /\
  Forall (fun pc => pc = (T, SHA3_256_digest T)) (traces l).

(** ** A test bench

    A scope, a random source and a device to run the capture against:
    the device either stays silent, or answers every read with the
    exclusive-or of the digests of the batch, as the target does. *)

Module Bench.

#[local] Existing Instance dg_sha3.

Definition silent (rows : nat) : Env := {|
  randint := fun k => 37 * Z.of_nat k + Z.of_nat k / 32 + 11;
  waves_of := fun k => replicate rows [Z.of_nat k; 1; 2];
  read_ciphertext := fun _ _ => [];
  optimize_capture := fun _ n => n;
|}.

Definition with_output_len (len : Z) (cfg : CaptureConfig) : CaptureConfig := {|
  capture_mode := capture_mode cfg; batch_mode := batch_mode cfg;
  num_traces := num_traces cfg; num_segments := num_segments cfg;
  output_len := len; text_fixed := text_fixed cfg;
  text_len_bytes := text_len_bytes cfg;
|}.

(** The digests the host computes during a capture, taken from a run
    in which nothing is compared. *)
Definition reference_digests (rows : nat) (cfg : CaptureConfig) (s : state)
  : list (list Z) :=
  digests (log (snd (capture (silent rows) (with_output_len 0 cfg) s))).

Definition honest (rows : nat) (cfg : CaptureConfig) (s : state) : Env := {|
  randint := randint (silent rows);
  waves_of := waves_of (silent rows);
  read_ciphertext := fun k len =>
    slice_to (xor_all 32 (take rows (drop (k * rows) (reference_digests rows cfg s)))) len;
  optimize_capture := optimize_capture (silent rows);
|}.

Definition fixed_text : list Z := replicate 16 0xAA.

Definition cfg_batch : CaptureConfig := {|
  capture_mode := "sha3_fvsr_data"; batch_mode := true;
  num_traces := 5; num_segments := 3; output_len := 32;
  text_fixed := fixed_text; text_len_bytes := 16;
|}.

Definition cfg_batch_single : CaptureConfig := {|
  capture_mode := "sha3_fvsr_data"; batch_mode := true;
  num_traces := 1; num_segments := 1; output_len := 32;
  text_fixed := fixed_text; text_len_bytes := 16;
|}.

Definition cfg_fvsr : CaptureConfig := {|
  capture_mode := "sha3_fvsr_data"; batch_mode := false;
  num_traces := 3; num_segments := 1; output_len := 32;
  text_fixed := fixed_text; text_len_bytes := 16;
|}.

Definition cfg_random : CaptureConfig := {|
  capture_mode := "sha3_random"; batch_mode := false;
  num_traces := 2; num_segments := 1; output_len := 32;
  text_fixed := fixed_text; text_len_bytes := 16;
|}.

(** The state in which [capture] is entered right after the modules
    were imported. *)
Definition start : state := entry DataGenerator.module_world 0 [].

End Bench.

(** ** More notions for the data generator *)

Module GeneratorSpec.
Import DataGenerator.

(** A register holding a block: 16 bytes. *)
Definition holds_block (self : nat) (name : string) (w : world) (b : list Z) : Prop :=
  getattr self name w = (Ret (PyBytes b), w) /\
  length b = 16%nat /\ forallb is_byte b = true.

(** Instance [self] is a generator in working order: it exists, its
    four registers hold blocks, and its generation cipher is the one
    keyed with [key_generation]. *)
Definition working (self : nat) (w : world) : Prop :=
  is_Some (instances w !! self) /\
  (forall name, name ∈ ["text_fixed"; "text_random"; "key_fixed"; "key_random"] ->
                exists b, holds_block self name w b) /\
  getattr self "cipher_gen" w = (Ret (PyAES key_generation), w).

(** The next block of a register: its encryption under the generation
    key. *)
Definition next_block (b : list Z) : list Z := AES.ecb_encrypt key_generation b.

Definition is_fixed_call (c : call) : bool :=
  match c with GetFixed | GetKmacFixed => true | _ => false end.

Definition is_random_call (c : call) : bool := negb (is_fixed_call c).

(** The length of the digest a call returns. *)
Definition digest_length (c : call) : nat :=
  match c with GetFixed | GetRandom => 16 | GetKmacFixed | GetKmacRandom => 32 end.

(** Of the results [rs] of the calls [cs], those of the calls that
    satisfy [p]. *)
Definition results_of {A} (p : call -> bool) (cs : list call) (rs : list A) : list A :=
  map snd (List.filter (fun cr => p (fst cr)) (zip cs rs)).

(** Instance [self1] of [w1] and instance [self2] of [w2] both exist or
    both do not, and read the same for each of [names]. *)
Definition same_registers (names : list string) (self1 self2 : nat) (w1 w2 : world)
  : Prop :=
  (is_Some (instances w1 !! self1) <-> is_Some (instances w2 !! self2)) /\
  forall name, name ∈ names -> fst (getattr self1 name w1) = fst (getattr self2 name w2).

(** The registers a call reads. *)
Definition reads (fixed : bool) : list string :=
  if fixed then ["text_fixed"; "key_fixed"; "cipher_gen"]
  else ["text_random"; "key_random"; "cipher_gen"].

(** A result as the callers expect it: a 16-byte plaintext, a digest of
    the length of the call's algorithm and a 16-byte key. *)
Definition well_formed_result (c : call) (r : outcome (pyval * pyval * pyval)) : Prop :=
  exists pt ct key,
    r = Ret (PyBytes pt, PyBytes ct, PyBytes key) /\
    length pt = 16%nat /\ length ct = digest_length c /\ length key = 16%nat /\
    forallb is_byte pt = true /\ forallb is_byte ct = true /\
    forallb is_byte key = true.

(** The digest a call computes for a plaintext under a key. *)
Definition digest_of (c : call) (key pt : list Z) : list Z :=
  match c with
  | GetFixed | GetRandom => AES.ecb_encrypt key pt
  | GetKmacFixed | GetKmacRandom => KMAC.kmac128 key pt 32
  end.

(** What the [i]-th call of a stream returns, when the stream started
    from the text [t] and the key [k]: the text has been encrypted [i]
    times under the generation key; so has the key in the random
    stream, while the fixed stream keeps its key. *)
Definition stream_result (c : call) (i : nat) (t k : list Z)
  : outcome (pyval * pyval * pyval) :=
  let pt := Nat.iter i next_block t in
  let key := if is_fixed_call c then k else Nat.iter i next_block k in
  Ret (PyBytes pt, PyBytes (digest_of c key pt), PyBytes key).

(** All the attributes the generator functions read. *)
Definition registers : list string :=
  ["text_fixed"; "key_fixed"; "text_random"; "key_random"; "cipher_gen"].

(** The results of a sequence of calls, each made on the instance
    named with it. *)
Fixpoint replay_on (cs : list (nat * call)) (w : world)
  : list (outcome (pyval * pyval * pyval)) :=
  match cs with
  | [] => []
  | (i, c) :: cs' => let '(r, w') := run_call i c w in r :: replay_on cs' w'
  end.

End GeneratorSpec.


(** ** More notions for the capture script *)

(** [int.from_bytes(bs, "little")] *)
Definition from_bytes_little (bs : list Z) : Z :=
  fold_right (fun b acc => b + 256 * acc) 0 bs.

Module CaptureLog.

(** The host computes the digest of every segment itself, rather than
    taking it from the data generator or from an earlier pass. *)
Definition host_hashes (cfg : CaptureConfig) : bool :=
  batch_mode cfg || bool_decide (capture_mode cfg = "sha3_random").

(** A stored trace as the script vouches for it: a wave that is not
    empty, a plaintext and a digest that are byte strings, and, where
    the host hashes, the digest of that plaintext. *)
Definition stored (cfg : CaptureConfig) (e : event) : Prop :=
  match e with
  | AppendTrace wave p c =>
      (1 <= length wave)%nat /\
      forallb is_byte p = true /\ forallb is_byte c = true /\
      (host_hashes cfg = true -> c = SHA3_256_digest p)
  | _ => False
  end.

(** The command that starts the device: in batch mode the number of
    segments as four little-endian bytes, otherwise a plaintext. *)
Definition trigger (cfg : CaptureConfig) (e : event) : Prop :=
  match e with
  | AbsorbBatch n =>
      batch_mode cfg = true /\ length n = 4%nat /\ forallb is_byte n = true /\
      from_bytes_little n = num_segments cfg
  | Absorb t => batch_mode cfg = false
  | _ => False
  end.

(** A trace stored with the plaintext [t]. *)
Definition stores (t : list Z) (e : event) : Prop :=
  exists wave c, e = AppendTrace wave t c.

(** How a pass of the loop ends once [n] traces are stored: it is
    interrupted by an exception before the check, the check rejects the
    device's reply (or has nothing to compare it with), or the pass is
    completed. *)
Inductive ending (cfg : CaptureConfig) (n : nat) : list event -> Prop :=
| interrupted :
    (n <= Z.to_nat (num_segments cfg))%nat -> ending cfg n []
| rejected :
    Z.of_nat n = num_segments cfg ->
    ending cfg n [ReadCiphertext (output_len cfg)]
| completed k :
    Z.of_nat n = num_segments cfg -> 1 <= num_segments cfg ->
    ending cfg n [ReadCiphertext (output_len cfg); OptimizeCapture k;
                  PbarUpdate (num_segments cfg)].

(** What one pass of the loop adds to the log, however it ends. *)
Inductive pass (cfg : CaptureConfig) : list event -> Prop :=
| not_triggered : pass cfg [Arm]
| triggered trig trs tail :
    trigger cfg trig ->
    Forall (stored cfg) trs ->
    (forall t, trig = Absorb t -> Forall (stores t) trs) ->
    ending cfg (length trs) tail ->
    pass cfg ([Arm; trig; CaptureAndTransferWaves] ++ trs ++ tail).

(** The pass ran to its end. *)
Definition complete (p : list event) : bool :=
  match last p with Some (PbarUpdate _) => true | _ => false end.

(** In [sha3_random] mode, where the text is hashed as it stands, the
    text is a byte string. *)
Definition text_is_bytes (cfg : CaptureConfig) (s : state) : Prop :=
  capture_mode cfg = "sha3_random" -> forallb is_byte (text s) = true.

End CaptureLog.

(** ** capture/capture_sha3.py: [configure_cipher] *)

Module ConfigureCipher.

(** A value of the YAML configuration, as far as [is True] tells
    values apart. *)
Inductive yaml : Type :=
| YBool (b : bool)
| YInt (n : Z)
| YStr (s : string)
| YNull.

(** The entries of [cfg["test"]] that [configure_cipher] reads; the two
    seeds are integers. *)
Record TestConfig : Type := {
  masks_off : yaml;
  batch_prng_seed : Z;
  lfsr_seed : Z;
}.

(** Calls made on the SHA3 and PRNG interfaces of the device and on the
    host's [random] module, in the order they are made. *)
Inductive command : Type :=
| SetMaskOff
| SetMaskOn
| RandomSeed (a : Z)
| WriteLfsrSeed (seed : list Z)
| SeedPrng (seed : list Z).

Definition send (c : command) : M (list command) unit :=
  modify (fun l => l ++ [c]).

(** The three interfaces are opened first, which the model leaves out;
    the rest is the body of [configure_cipher]. *)
Definition configure_cipher (cfg : TestConfig) (capture_cfg : CaptureConfig)
  : M (list command) unit :=
  (match masks_off cfg with
   | YBool true => send SetMaskOff
   | _ => send SetMaskOn
   end) ;;
  if batch_mode capture_cfg then
    send (RandomSeed (batch_prng_seed cfg)) ;;
    l <- to_bytes_4_little (lfsr_seed cfg) ;;
    send (WriteLfsrSeed l) ;;
    b <- to_bytes_4_little (batch_prng_seed cfg) ;;
    send (SeedPrng b)
  else ret tt.

End ConfigureCipher.
(** * Properties *)

Arguments SHA3_256_digest : simpl never.
Arguments AES.ecb_encrypt : simpl never.
Arguments KMAC.kmac128 : simpl never.

(** Split conjunctions, and nothing else. *)
Ltac splits := repeat match goal with |- _ /\ _ => split end.

(** ** Reasoning about computations *)

(** [m] only ever moves the store along [R], whether it returns or raises. *)
Definition preserves {St A} (R : St -> St -> Prop) (m : M St A) : Prop :=
  forall s, R s (snd (m s)).

(** [m1] and [m2] give the same result from related stores, and leave
    related stores. *)
Definition related {St A} (R : St -> St -> Prop) (m1 m2 : M St A) : Prop :=
  forall s1 s2, R s1 s2 -> fst (m1 s1) = fst (m2 s2) /\ R (snd (m1 s1)) (snd (m2 s2)).

Section Monad.

Context {St : Type}.

Lemma bind_ret {A B} (m : M St A) (k : A -> M St B) s a s' :
  m s = (Ret a, s') -> bind m k s = k a s'.
Proof. intros Hm. unfold bind. now rewrite Hm. Qed.

Lemma bind_raise {A B} (m : M St A) (k : A -> M St B) s e s' :
  m s = (Raise e, s') -> bind m k s = (Raise e, s').
Proof. intros Hm. unfold bind. now rewrite Hm. Qed.

Lemma bind_inv_ret {A B} (m : M St A) (k : A -> M St B) s b s' :
  bind m k s = (Ret b, s') ->
  exists a s1, m s = (Ret a, s1) /\ k a s1 = (Ret b, s').
Proof.
  unfold bind. destruct (m s) as [[a | e] s1]; intros Hk.
  - now exists a, s1.
  - discriminate.
Qed.

Lemma bind_assoc {A B C} (m : M St A) (k : A -> M St B) (h : B -> M St C) s :
  bind (bind m k) h s = bind m (fun a => bind (k a) h) s.
Proof. unfold bind. now destruct (m s) as [[a | e] s1]. Qed.

Section Preserves.

Context (R : St -> St -> Prop) `{!Reflexive R} `{!Transitive R}.

Lemma preserves_ret {A} (a : A) : preserves R (ret a).
Proof. intros s. apply reflexivity. Qed.

Lemma preserves_raise {A} e : preserves R (@raise St A e).
Proof. intros s. apply reflexivity. Qed.

Lemma preserves_get : preserves R get.
Proof. intros s. apply reflexivity. Qed.

Lemma preserves_assert b : preserves R (@assert St b).
Proof. intros s. destruct b; apply reflexivity. Qed.

Lemma preserves_bytes l : preserves R (@bytes St l).
Proof. intros s. unfold bytes. destruct (forallb _ _); apply reflexivity. Qed.

Lemma preserves_bind {A B} (m : M St A) (k : A -> M St B) :
  preserves R m -> (forall a, preserves R (k a)) -> preserves R (bind m k).
Proof.
  intros Hm Hk s. unfold bind. specialize (Hm s).
  destruct (m s) as [[a | e] s1]; simpl in *; [| assumption].
  etransitivity; [eassumption | apply Hk].
Qed.

End Preserves.

Section Related.

Context (R : St -> St -> Prop).

Lemma related_ret {A} (a : A) : related R (ret a) (ret a).
Proof. now intros s1 s2 HR. Qed.

Lemma related_raise {A} e : related R (@raise St A e) (raise e).
Proof. now intros s1 s2 HR. Qed.

Lemma related_bind {A B} (m1 m2 : M St A) (k1 k2 : A -> M St B) :
  related R m1 m2 -> (forall a, related R (k1 a) (k2 a)) ->
  related R (bind m1 k1) (bind m2 k2).
Proof.
  intros Hm Hk s1 s2 HR. unfold bind. destruct (Hm s1 s2 HR) as [Hr HR'].
  destruct (m1 s1) as [[a1 | e1] t1], (m2 s2) as [[a2 | e2] t2];
    simpl in *; try discriminate.
  - injection Hr as ->. now apply Hk.
  - injection Hr as ->. now split.
Qed.

End Related.

End Monad.

Ltac preserves_step :=
  first [ apply preserves_bind; [apply _ | | intros ?]
        | apply preserves_ret; apply _
        | apply preserves_raise; apply _
        | apply preserves_get; apply _
        | apply preserves_assert; apply _
        | apply preserves_bytes; apply _ ].

(** ** The data generator: what a call may change *)

Section DataGeneratorFrame.

Import DataGenerator DataGeneratorSpec.

#[global] Instance frame_refl self names : Reflexive (frame self names).
Proof. now intros w. Qed.

#[global] Instance frame_trans self names : Transitive (frame self names).
Proof.
  intros w1 w2 w3 (Hc1 & Hl1 & Ha1) (Hc2 & Hl2 & Ha2). repeat split.
  - congruence.
  - congruence.
  - intros i name Hi. rewrite Ha2, Ha1 by assumption. reflexivity.
Qed.

Lemma frame_getattr self names w w' name :
  frame self names w w' -> name ∉ names ->
  fst (getattr self name w') = fst (getattr self name w).
Proof.
  intros (Hc & Hl & Ha) Hname.
  specialize (Ha self name (or_intror Hname)). unfold attr in Ha.
  unfold getattr. rewrite Hc.
  destruct (instances w' !! self) as [d' |] eqn:Hd';
    destruct (instances w !! self) as [d |] eqn:Hd; simpl in Ha.
  - rewrite Ha. now destruct (d !! name), (class_attrs w !! name).
  - apply lookup_lt_Some in Hd'. apply lookup_ge_None in Hd. lia.
  - apply lookup_lt_Some in Hd. apply lookup_ge_None in Hd'. lia.
  - reflexivity.
Qed.

Section AnyRelation.

Context (R : world -> world -> Prop) `{!Reflexive R}.

Lemma getattr_preserves self name : preserves R (getattr self name).
Proof.
  intros w. unfold getattr.
  destruct (instances w !! self) as [d |]; [| reflexivity].
  destruct (d !! name); [reflexivity |].
  destruct (class_attrs w !! name); reflexivity.
Qed.

Lemma bytes_of_preserves v : preserves R (bytes_of v).
Proof. destruct v; simpl; [apply preserves_bytes | apply preserves_raise]; assumption. Qed.

Lemma AES_new_preserves key : preserves R (AES_new key).
Proof. intros w. unfold AES_new. case_bool_decide; reflexivity. Qed.

Lemma encrypt_preserves c data : preserves R (encrypt c data).
Proof.
  intros w. unfold encrypt. destruct c; [reflexivity |].
  destruct (_ =? _)%nat; reflexivity.
Qed.

Lemma KMAC128_digest_preserves key data : preserves R (KMAC128_digest key data).
Proof. intros w. unfold KMAC128_digest. destruct (_ <? _)%nat; reflexivity. Qed.

End AnyRelation.

Lemma setattr_frame self name v names :
  name ∈ names -> preserves (frame self names) (setattr self name v).
Proof.
  intros Hin w. unfold setattr, modify, frame, attr. simpl. repeat split.
  - apply length_alter.
  - intros i n [Hi | Hn].
    + now rewrite list_lookup_alter_ne.
    + destruct (decide (self = i)) as [<- |]; [| now rewrite list_lookup_alter_ne].
      rewrite list_lookup_alter_eq. destruct (instances w !! self) as [d |]; [| reflexivity].
      simpl. apply lookup_insert_ne. intros ->. contradiction.
Qed.

Ltac elem_solve :=
  first [ assumption
        | solve [repeat first [ apply list_elem_of_here | apply list_elem_of_further ]]
        | solve [rewrite list_elem_of_In; simpl; intuition discriminate] ].

Ltac frame_step :=
  first [ apply setattr_frame; elem_solve
        | apply getattr_preserves; apply _
        | apply bytes_of_preserves; apply _
        | apply AES_new_preserves; apply _
        | apply encrypt_preserves; apply _
        | apply KMAC128_digest_preserves; apply _
        | preserves_step ].

Lemma reencrypt_frame self name names :
  name ∈ names -> preserves (frame self names) (reencrypt self name).
Proof. intros Hin. unfold reencrypt. repeat frame_step. Qed.

Lemma advance_fixed_frame self :
  preserves (frame self ["text_fixed"]) (advance_fixed self).
Proof. apply reencrypt_frame. elem_solve. Qed.

Lemma advance_random_frame self :
  preserves (frame self ["text_random"; "key_random"]) (advance_random self).
Proof. unfold advance_random. frame_step; apply reencrypt_frame; elem_solve. Qed.

Lemma run_call_frame self c : preserves (frame self (writes c)) (run_call self c).
Proof.
  destruct c; simpl;
    unfold get_fixed, get_random, get_kmac_fixed, get_kmac_random;
    repeat first [ apply advance_fixed_frame | apply advance_random_frame | frame_step ].
Qed.

Lemma set_start_frame self :
  preserves (frame self ["text_fixed"; "text_random"; "key_fixed"; "key_random"])
            (set_start self).
Proof. unfold set_start. repeat frame_step. Qed.

(** C9: a call to a generator function leaves the class object and all
    other instances alone, and in its own instance assigns nothing
    but [text_fixed] (the fixed variants) or [text_random] and
    [key_random] (the random variants); the same holds for the two
    advance operations.  So reading any other attribute, [key_fixed]
    in particular, gives the same value after the call as before. *)
Theorem generator_calls_frame (w : world) (self : nat) :
  (forall c,
      let w' := snd (run_call self c w) in
      frame self (writes c) w w' /\
      (forall name, name ∉ writes c ->
                    fst (getattr self name w') = fst (getattr self name w)) /\
      fst (getattr self "key_fixed" w') = fst (getattr self "key_fixed" w)) /\
  (let w' := snd (advance_fixed self w) in
   frame self ["text_fixed"] w w' /\
   fst (getattr self "key_fixed" w') = fst (getattr self "key_fixed" w)) /\
  (let w' := snd (advance_random self w) in
   frame self ["text_random"; "key_random"] w w' /\
   fst (getattr self "key_fixed" w') = fst (getattr self "key_fixed" w)).
Proof.
  repeat split.
  - apply run_call_frame.
  - apply run_call_frame.
  - apply run_call_frame.
  - intros name Hname. eapply frame_getattr; [apply run_call_frame | assumption].
  - eapply frame_getattr; [apply run_call_frame |]. destruct c; elem_solve.
  - apply advance_fixed_frame.
  - apply advance_fixed_frame.
  - apply advance_fixed_frame.
  - eapply frame_getattr; [apply advance_fixed_frame | elem_solve].
  - apply advance_random_frame.
  - apply advance_random_frame.
  - apply advance_random_frame.
  - eapply frame_getattr; [apply advance_random_frame | elem_solve].
Qed.

End DataGeneratorFrame.

(** ** The data generator: replaying calls *)

Section DataGeneratorReplay.

Import DataGenerator DataGeneratorSpec.

Lemma getattr_state self name w : snd (getattr self name w) = w.
Proof.
  unfold getattr. destruct (instances w !! self) as [d |]; [| reflexivity].
  destruct (d !! name); [reflexivity |].
  now destruct (class_attrs w !! name).
Qed.

(** Reading an attribute after an assignment. *)
Lemma getattr_setattr self n v name w :
  fst (getattr self name (snd (setattr self n v w))) =
  match instances w !! self with
  | Some _ => if decide (n = name) then Ret v else fst (getattr self name w)
  | None => Raise AttributeError
  end.
Proof.
  unfold setattr, modify, getattr. simpl. rewrite list_lookup_alter_eq.
  destruct (instances w !! self) as [d |]; simpl; [| reflexivity].
  rewrite lookup_insert. destruct (decide (n = name)); [reflexivity |].
  destruct (d !! name); [reflexivity |]. now destruct (class_attrs w !! name).
Qed.

Section View.

Context (self1 self2 : nat).

Lemma getattr_related name :
  related (same_view self1 self2) (getattr self1 name) (getattr self2 name).
Proof.
  intros w1 w2 HR. rewrite !getattr_state. split; [apply HR | exact HR].
Qed.

Lemma setattr_related name v :
  related (same_view self1 self2) (setattr self1 name v) (setattr self2 name v).
Proof.
  intros w1 w2 [Hex Hget]. split; [reflexivity |]. split.
  - unfold setattr, modify. simpl. rewrite !list_lookup_alter_eq, !fmap_is_Some.
    exact Hex.
  - intros name'. rewrite !getattr_setattr.
    destruct (instances w1 !! self1) as [d1 |], (instances w2 !! self2) as [d2 |].
    + destruct (decide (name = name')); [reflexivity | apply Hget].
    + destruct Hex as [Hex _]. destruct Hex; [eauto | discriminate].
    + destruct Hex as [_ Hex]. destruct Hex; [eauto | discriminate].
    + reflexivity.
Qed.

(** A computation that neither reads nor writes the store. *)
Lemma related_pure {A} (m : M world A) :
  (exists r, forall w, m w = (r, w)) -> related (same_view self1 self2) m m.
Proof. intros [r Hm] w1 w2 HR. now rewrite !Hm. Qed.

Lemma bytes_of_related v : related (same_view self1 self2) (bytes_of v) (bytes_of v).
Proof.
  apply related_pure. destruct v; simpl; unfold bytes.
  - destruct (forallb is_byte b); eauto.
  - eauto.
Qed.

Lemma AES_new_related key :
  related (same_view self1 self2) (AES_new key) (AES_new key).
Proof. apply related_pure. unfold AES_new. case_bool_decide; eauto. Qed.

Lemma encrypt_related c data :
  related (same_view self1 self2) (encrypt c data) (encrypt c data).
Proof.
  apply related_pure. unfold encrypt. destruct c; [eauto |].
  destruct (_ =? _)%nat; eauto.
Qed.

Lemma KMAC128_digest_related key data :
  related (same_view self1 self2) (KMAC128_digest key data) (KMAC128_digest key data).
Proof.
  apply related_pure. unfold KMAC128_digest. destruct (_ <? _)%nat; eauto.
Qed.

Ltac related_step :=
  first [ apply related_bind; [| intros ?]
        | apply related_ret
        | apply getattr_related
        | apply setattr_related
        | apply bytes_of_related
        | apply AES_new_related
        | apply encrypt_related
        | apply KMAC128_digest_related ].

Lemma reencrypt_related name :
  related (same_view self1 self2) (reencrypt self1 name) (reencrypt self2 name).
Proof. unfold reencrypt. repeat related_step. Qed.

Lemma run_call_related c :
  related (same_view self1 self2) (run_call self1 c) (run_call self2 c).
Proof.
  destruct c; simpl;
    unfold get_fixed, get_random, get_kmac_fixed, get_kmac_random,
           advance_fixed, advance_random;
    repeat first [ apply reencrypt_related | related_step ].
Qed.

(** The results of a sequence of calls are determined by what the
    instance's attributes hold when it starts. *)
Lemma replay_same_view cs w1 w2 :
  same_view self1 self2 w1 w2 -> replay self1 cs w1 = replay self2 cs w2.
Proof.
  revert w1 w2. induction cs as [| c cs IH]; intros w1 w2 HR; [reflexivity |].
  simpl. destruct (run_call_related c w1 w2 HR) as [Hr HR'].
  destruct (run_call self1 c w1) as [r1 w1'], (run_call self2 c w2) as [r2 w2'].
  simpl in *. subst r2. f_equal. now apply IH.
Qed.

End View.

(** Creating a generator where the class body is intact. *)
Lemma new_fresh w :
  class_attrs w = class_body ->
  new w = (Ret (length (instances w)),
           {| class_attrs := class_attrs w;
              instances := instances w ++ [<["cipher_gen" := PyAES key_generation]> ∅] |}).
Proof.
  intros Hc. unfold new, init, bind, get, modify, getattr, setattr, modify. simpl.
  rewrite list_lookup_middle by reflexivity. rewrite lookup_empty, Hc. simpl.
  f_equal. f_equal.
  simpl. rewrite alter_app_r_alt by lia. now rewrite Nat.sub_diag.
Qed.

Lemma reachable_class w : reachable w -> class_attrs w = class_body.
Proof.
  induction 1 as [| w self c _ IH | w self _ IH | w _ IH].
  - reflexivity.
  - destruct (run_call_frame self c w) as [-> _]. exact IH.
  - destruct (set_start_frame self w) as [-> _]. exact IH.
  - now rewrite (new_fresh w IH).
Qed.

Lemma module_world_eq :
  module_world =
  {| class_attrs := class_body;
     instances := [<["cipher_gen" := PyAES key_generation]> ∅] |}.
Proof. unfold module_world, import. now rewrite new_fresh. Qed.

Lemma fresh_same_view w :
  class_attrs w = class_body ->
  same_view (length (instances w)) _inst (snd (new w)) module_world.
Proof.
  intros Hc. rewrite (new_fresh w Hc), module_world_eq.
  unfold same_view, getattr. cbn [snd instances class_attrs].
  rewrite list_lookup_middle by reflexivity. split.
  - split; intros _; eexists; reflexivity.
  - intros name. rewrite Hc. change ([?d] !! _inst) with (Some d). cbv beta iota.
    destruct (_ !! name); [reflexivity |]. now destruct (class_body !! name).
Qed.

(** C7: the results of a sequence of generator calls are a function of
    what the generator's attributes hold when the sequence starts, and
    of nothing else; and a freshly created generator, whatever was done
    with other generators (or with this module) before, answers any
    sequence of calls exactly as the generator of a freshly imported
    module does. *)
Theorem generator_replay (w w1 w2 : world) (self1 self2 : nat) (cs : list call) :
  reachable w ->
  same_view self1 self2 w1 w2 ->
  replay self1 cs w1 = replay self2 cs w2 /\
  exists self, fst (new w) = Ret self /\
               replay self cs (snd (new w)) = replay _inst cs module_world.
Proof.
  intros Hw Hview. split.
  - now apply replay_same_view.
  - apply reachable_class in Hw. exists (length (instances w)). split.
    + now rewrite (new_fresh w Hw).
    + apply replay_same_view, fresh_same_view, Hw.
Qed.

(** A generator that has already produced a fixed and a random sample
    is set aside; a new one replays the first two calls identically. *)
Lemma generator_replay_witness :
  let w := snd (run_call _inst GetRandom (snd (run_call _inst GetFixed module_world))) in
  let cs := [GetFixed; GetKmacRandom; GetRandom; GetKmacFixed] in
  replay _inst cs module_world = replay _inst cs module_world /\
  exists self, fst (new w) = Ret self /\
               replay self cs (snd (new w)) = replay _inst cs module_world.
Proof.
  apply generator_replay.
  - apply reach_call, reach_call, reach_import.
  - split; [tauto | reflexivity].
Defined.

End DataGeneratorReplay.

(** ** The capture script: building blocks *)

Lemma SHA3_256_digest_length data : length (SHA3_256_digest data) = 32%nat.
Proof. unfold SHA3_256_digest, Keccak.sponge. now rewrite length_map, length_seq. Qed.

Section MonadInversion.

Context {St : Type}.

Lemma ret_inv {A} (a b : A) (s s' : St) : ret a s = (Ret b, s') -> b = a /\ s' = s.
Proof. unfold ret. intros [= -> ->]. now split. Qed.

Lemma get_inv (a s s' : St) : get s = (Ret a, s') -> a = s /\ s' = s.
Proof. unfold get. intros [= -> ->]. now split. Qed.

Lemma modify_inv (f : St -> St) u (s s' : St) :
  modify f s = (Ret u, s') -> s' = f s.
Proof. unfold modify. now intros [= _ <-]. Qed.

Lemma assert_inv b u (s s' : St) : assert b s = (Ret u, s') -> b = true /\ s' = s.
Proof. destruct b; simpl; [| discriminate]. unfold ret. intros [= _ <-]. now split. Qed.

Lemma bytes_inv l l' (s s' : St) :
  bytes l s = (Ret l', s') -> forallb is_byte l = true /\ l' = l /\ s' = s.
Proof.
  unfold bytes. destruct (forallb is_byte l); [| discriminate].
  unfold ret. intros [= <- <-]. now repeat split.
Qed.

Lemma first_item_inv x b (s s' : St) :
  first_item x s = (Ret b, s') -> (exists x', x = b :: x') /\ s' = s.
Proof.
  destruct x as [| b' x']; simpl; [discriminate |].
  unfold ret. intros [= <- <-]. split; [now exists x' | reflexivity].
Qed.

End MonadInversion.

Lemma bound_inv {A} (v : option A) a s s' :
  bound v s = (Ret a, s') -> v = Some a /\ s' = s.
Proof. destruct v; simpl; [| discriminate]. unfold ret. intros [= <- <-]. now split. Qed.

(** Take a successful run apart, one statement at a time. *)
Ltac minv :=
  repeat match goal with
    | H : bind _ _ _ = (Ret _, _) |- _ =>
        apply bind_inv_ret in H; destruct H as (? & ? & ? & ?)
    | H : ret _ _ = (Ret _, _) |- _ => apply ret_inv in H; destruct H as [? ?]; subst
    | H : get _ = (Ret _, _) |- _ => apply get_inv in H; destruct H as [? ?]; subst
    | H : modify _ _ = (Ret _, _) |- _ => apply modify_inv in H; subst
    | H : emit _ _ = (Ret _, _) |- _ => apply modify_inv in H; subst
    | H : assert _ _ = (Ret _, _) |- _ => apply assert_inv in H; destruct H as [? ?]; subst
    | H : bytes _ _ = (Ret _, _) |- _ =>
        apply bytes_inv in H; destruct H as (? & ? & ?); subst
    | H : bound _ _ = (Ret _, _) |- _ => apply bound_inv in H; destruct H as [? ?]; subst
    | H : first_item _ _ = (Ret _, _) |- _ =>
        apply first_item_inv in H; destruct H as [[? ?] ?]; subst
    | H : raise _ _ = (Ret _, _) |- _ => discriminate H
    end.

Section CaptureBasics.

Context (E : Env) `{DgSha3}.

Lemma draw_is_byte k : is_byte (draw E k) = true.
Proof.
  unfold is_byte, draw. pose proof (Z.mod_pos_bound (randint E k) 256 eq_refl).
  apply andb_true_iff. split; [apply Z.leb_le | apply Z.ltb_lt]; lia.
Qed.

Lemma draws_are_bytes p n : forallb is_byte (map (draw E) (seq p n)) = true.
Proof.
  apply forallb_forall. intros x Hx. apply in_map_iff in Hx as (k & <- & _).
  apply draw_is_byte.
Qed.

(** Drawing [n] bytes takes the next [n] values of the generator. *)
Lemma random_bytes_eq n s :
  random_bytes E n s =
  (Ret (map (draw E) (seq (rand_calls s) n)), set_rand_calls (rand_calls s + n) s).
Proof.
  revert s. induction n as [| n IH]; intros s.
  - simpl. unfold ret. f_equal. destruct s; unfold set_rand_calls; simpl.
    now rewrite Nat.add_0_r.
  - simpl. unfold bind at 1. unfold random_randint, bind, get, modify, ret.
    rewrite IH. simpl. f_equal. unfold set_rand_calls. simpl.
    f_equal. lia.
Qed.

End CaptureBasics.

(** ** Reading the log *)

Lemma traces_app l1 l2 : traces (l1 ++ l2) = traces l1 ++ traces l2.
Proof. apply omap_app. Qed.

Lemma traces_cons e l :
  traces (e :: l) =
  match e with AppendTrace _ p c => (p, c) :: traces l | _ => traces l end.
Proof. now destruct e. Qed.

Lemma length_traces l :
  Forall (fun e => is_trace e = true) l -> length (traces l) = length l.
Proof.
  induction 1 as [| e l He _ IH]; [reflexivity |].
  rewrite traces_cons. destruct e; try discriminate. simpl. now rewrite IH.
Qed.

Lemma count_app p l1 l2 : count p (l1 ++ l2) = (count p l1 + count p l2)%nat.
Proof. unfold count. now rewrite List.filter_app, length_app. Qed.

Lemma count_none p l : Forall (fun e => p e = false) l -> count p l = 0%nat.
Proof.
  unfold count. induction 1 as [| e l He _ IH]; [reflexivity |].
  simpl. now rewrite He.
Qed.

(** ** FVSR batch mode: one segment *)

Section FvsrBatchSample.

Context (E : Env) `{DgSha3}.

(** C4: in batch mode (and not [sha3_random]), [generate_ref_crypto]
    takes for the segment's plaintext the fixed message when the
    selector is set, and otherwise the next [text_len_bytes] bytes of
    the generator; it then draws 16 more bytes, the dummy block, of
    which only the low bit of the first byte is used, as the selector
    for the next segment: the digest is that of the segment's
    plaintext, and nothing else of the state changes. *)
Theorem fvsr_batch_sample (sample_fixed : Z) (mode : string)
    (plaintext plaintext_fixed : list Z) (text_len_bytes : Z) (s : state) :
  mode <> "sha3_random" ->
  forallb is_byte plaintext_fixed = true ->
  let p := rand_calls s in
  let n := Z.to_nat text_len_bytes in
  generate_ref_crypto E sample_fixed mode true plaintext plaintext_fixed
                      text_len_bytes s =
  if bool_decide (sample_fixed <> 0) then
    let dummy_plaintext := map (draw E) (seq p 16) in
    (Ret (plaintext_fixed, SHA3_256_digest plaintext_fixed,
          Z.land (draw E p) 1),
     set_rand_calls (p + 16) s)
  else
    let random_plaintext := map (draw E) (seq p n) in
    let dummy_plaintext := map (draw E) (seq (p + n) 16) in
    (Ret (random_plaintext, SHA3_256_digest random_plaintext,
          Z.land (draw E (p + n)) 1),
     set_rand_calls (p + n + 16) s).
Proof.
  intros Hmode Hfixed p n. unfold generate_ref_crypto.
  rewrite andb_false_r. rewrite bool_decide_eq_false_2 by assumption.
  case_bool_decide as Hsf.
  - unfold bind at 1. unfold ret at 1. unfold bind at 1.
    rewrite random_bytes_eq. unfold bind, bytes. rewrite Hfixed. reflexivity.
  - unfold bind at 1. rewrite random_bytes_eq. unfold bind at 1.
    rewrite random_bytes_eq. unfold bind, bytes. rewrite draws_are_bytes.
    simpl. unfold ret, set_rand_calls. simpl. reflexivity.
Qed.

End FvsrBatchSample.

(** ** The capture script: one sample, one segment, one batch *)

#[global] Instance quiet_refl : Reflexive quiet.
Proof. intros s. now repeat split. Qed.

#[global] Instance quiet_trans : Transitive quiet.
Proof.
  intros s1 s2 s3 (? & ? & ? & ? & ?) (? & ? & ? & ? & ?).
  repeat split; congruence.
Qed.

Section CaptureSteps.

Context (E : Env) `{DgSha3}.

Lemma lift_dg_quiet {A} (m : M DataGenerator.world A) : preserves quiet (lift_dg m).
Proof. intros s. unfold lift_dg. destruct (m (dg s)). now repeat split. Qed.

Lemma random_bytes_quiet n : preserves quiet (random_bytes E n).
Proof. intros s. rewrite random_bytes_eq. now repeat split. Qed.

Lemma first_item_quiet x : preserves quiet (@first_item state x).
Proof. intros s. destruct x; now repeat split. Qed.

Ltac quiet_step :=
  first [ apply lift_dg_quiet | apply random_bytes_quiet | apply first_item_quiet
        | preserves_step ].

Lemma generate_ref_crypto_quiet sf mode batch pt ptf tlb :
  preserves quiet (generate_ref_crypto E sf mode batch pt ptf tlb).
Proof.
  unfold generate_ref_crypto.
  destruct (bool_decide (mode = "sha3_fvsr_data") && negb batch).
  - quiet_step; [destruct (bool_decide (sf <> 0)); quiet_step |].
    destruct a as [[p c] k]. repeat quiet_step.
  - destruct (bool_decide (mode = "sha3_random")); [repeat quiet_step |].
    quiet_step; [destruct (bool_decide (sf <> 0)); quiet_step |].
    repeat quiet_step.
Qed.

Lemma next_sample_quiet cfg : preserves quiet (next_sample E cfg).
Proof.
  unfold next_sample. quiet_step; [quiet_step |].
  quiet_step; [apply generate_ref_crypto_quiet |].
  destruct a0 as [[t c] f]. intros s. now repeat split.
Qed.

(** A segment that goes through stores one trace: the current sample,
    which in batch and [sha3_random] mode is generated first.  In
    [sha3_random] mode 16 bytes are then drawn into [plaintext]; last,
    the expected value is updated. *)
Lemma segment_ret cfg waves i s s' :
  segment E cfg waves i s = (Ret tt, s') ->
  exists s1 w c,
    (if batch_mode cfg || bool_decide (capture_mode cfg = "sha3_random")
     then next_sample E cfg s = (Ret tt, s1) else s1 = s) /\
    waves !! i = Some w /\ (1 <= length w)%nat /\
    ciphertext s1 = Some c /\
    forallb is_byte (text s1) = true /\ forallb is_byte c = true /\
    s' = set_expected_ciphertext
           (Some (if batch_mode cfg
                  then exp_cipher_bytes c (expected_ciphertext s1) else c))
           ((if bool_decide (capture_mode cfg = "sha3_random")
             then fun s => set_plaintext
                             (Some (map (draw E) (seq (rand_calls s) 16)))
                             (set_rand_calls (rand_calls s + 16) s)
             else fun s => s)
              (set_log (log s1 ++ [AppendTrace w (text s1) c]) s1)).
Proof.
  unfold segment. intros Hrun.
  apply bind_inv_ret in Hrun as ([] & s1 & Hsample & Hrun).
  exists s1.
  apply bind_inv_ret in Hrun as (w & s2 & Hw & Hrun).
  assert (waves !! i = Some w /\ s2 = s1) as [Hwi ->].
  { destruct (waves !! i); [| discriminate]. now apply ret_inv in Hw as [-> ->]. }
  exists w.
  apply bind_inv_ret in Hrun as ([] & s2 & Hlen & Hrun).
  apply assert_inv in Hlen as [Hlen ->]. apply Nat.leb_le in Hlen.
  apply bind_inv_ret in Hrun as (s2 & s3 & Hget & Hrun).
  apply get_inv in Hget as [-> ->].
  apply bind_inv_ret in Hrun as (p & s2 & Hp & Hrun).
  apply bytes_inv in Hp as (Hp & -> & ->).
  apply bind_inv_ret in Hrun as (c & s2 & Hc & Hrun).
  apply bound_inv in Hc as [Hc ->]. exists c.
  apply bind_inv_ret in Hrun as (c' & s2 & Hc' & Hrun).
  apply bytes_inv in Hc' as (Hcb & -> & ->).
  apply bind_inv_ret in Hrun as ([] & s2 & Hemit & Hrun).
  apply modify_inv in Hemit as ->.
  apply bind_inv_ret in Hrun as ([] & s2 & Hdraw & Hrun).
  apply bind_inv_ret in Hrun as (s3 & s4 & Hget & Hrun).
  apply get_inv in Hget as [-> ->].
  repeat split; try assumption.
  - destruct (batch_mode cfg || bool_decide (capture_mode cfg = "sha3_random"));
      [assumption | now apply ret_inv in Hsample as [_ ->]].
  - destruct (bool_decide (capture_mode cfg = "sha3_random")).
    + apply bind_inv_ret in Hdraw as (pl & s3 & Hpl & Hdraw).
      rewrite random_bytes_eq in Hpl. injection Hpl as <- <-.
      apply modify_inv in Hdraw as ->.
      destruct (batch_mode cfg); minv; simpl in *;
        match goal with Hb : ciphertext _ = Some ?x |- _ =>
          rewrite Hc in Hb; injection Hb as <- end; reflexivity.
    + apply ret_inv in Hdraw as [_ ->].
      destruct (batch_mode cfg); minv; simpl in *;
        match goal with Hb : ciphertext _ = Some ?x |- _ =>
          rewrite Hc in Hb; injection Hb as <- end; reflexivity.
Qed.

End CaptureSteps.

Section CaptureBatch.

Context (E : Env) `{DgSha3}.

(** Unless the sample comes from the data generator (FVSR, not batch),
    the stored ciphertext is the SHA3-256 digest of the stored text. *)
Lemma next_sample_hashes cfg s s1 :
  bool_decide (capture_mode cfg = "sha3_fvsr_data") && negb (batch_mode cfg) = false ->
  next_sample E cfg s = (Ret tt, s1) ->
  ciphertext s1 = Some (SHA3_256_digest (text s1)).
Proof.
  intros Hmode Hrun. unfold next_sample, generate_ref_crypto in Hrun.
  rewrite Hmode in Hrun.
  apply bind_inv_ret in Hrun as (s0 & s2 & Hget & Hrun).
  apply get_inv in Hget as [-> ->].
  apply bind_inv_ret in Hrun as ([[t c] f] & s2 & Hgen & Hrun).
  apply modify_inv in Hrun as ->. simpl.
  destruct (bool_decide (capture_mode cfg = "sha3_random")).
  - minv. congruence.
  - apply bind_inv_ret in Hgen as (pt & s3 & Hpt & Hgen).
    apply bind_inv_ret in Hgen as (dummy & s4 & Hdummy & Hgen).
    minv. congruence.
Qed.

(** What a segment that goes through leaves in the log and in the
    variables that outlive the batch. *)
Lemma segment_log cfg waves i s s' :
  segment E cfg waves i s = (Ret tt, s') ->
  exists w c,
    log s' = log s ++ [AppendTrace w (text s') c] /\
    ciphertext s' = Some c /\
    remaining_num_traces s' = remaining_num_traces s /\
    num_segments_storage s' = num_segments_storage s /\
    expected_ciphertext s' =
      Some (if batch_mode cfg
            then exp_cipher_bytes c (expected_ciphertext s) else c) /\
    (bool_decide (capture_mode cfg = "sha3_fvsr_data") && negb (batch_mode cfg) = false ->
     batch_mode cfg || bool_decide (capture_mode cfg = "sha3_random") = true ->
     c = SHA3_256_digest (text s')).
Proof.
  intros Hrun. apply segment_ret in Hrun as (s1 & w & c & Hs1 & _ & _ & Hc & _ & _ & ->).
  exists w, c.
  assert (quiet s s1) as (Hlog & Hrem & Hsto & _ & Hexp).
  { destruct (batch_mode cfg || bool_decide (capture_mode cfg = "sha3_random")).
    - pose proof (next_sample_quiet E cfg s) as Hq. now rewrite Hs1 in Hq.
    - subst s1. reflexivity. }
  assert (bool_decide (capture_mode cfg = "sha3_fvsr_data") && negb (batch_mode cfg) = false ->
          batch_mode cfg || bool_decide (capture_mode cfg = "sha3_random") = true ->
          c = SHA3_256_digest (text s1)) as Hdigest.
  { intros Hmode Hgen. rewrite Hgen in Hs1.
    apply next_sample_hashes in Hs1; [congruence | assumption]. }
  destruct (bool_decide (capture_mode cfg = "sha3_random")); simpl;
    rewrite Hlog, Hexp; repeat split; assumption.
Qed.

(** The segments of a batch that goes through: one trace each, and in
    batch mode the digests folded in order into the expected value. *)
Lemma segments_ret cfg waves n : forall i s s',
  for_range (segment E cfg waves) i n s = (Ret tt, s') ->
  exists new,
    log s' = log s ++ new /\
    length new = n /\
    Forall (fun e => is_trace e = true) new /\
    remaining_num_traces s' = remaining_num_traces s /\
    num_segments_storage s' = num_segments_storage s /\
    (batch_mode cfg = true ->
     Forall (fun d => length d = 32%nat) (digests new) /\
     expected_ciphertext s' = fold_digests (expected_ciphertext s) (digests new)).
Proof.
  induction n as [| n IH]; intros i s s' Hrun; simpl in Hrun.
  - apply ret_inv in Hrun as [_ ->]. exists []. rewrite app_nil_r.
    repeat split; constructor.
  - apply bind_inv_ret in Hrun as ([] & s1 & Hseg & Hrun).
    apply segment_log in Hseg as (w & c & Hlog & Hc & Hrem & Hsto & Hexp & Hdig).
    apply IH in Hrun as (new & Hlog' & Hlen & Htr & Hrem' & Hsto' & Hbatch).
    exists (AppendTrace w (text s1) c :: new). repeat split.
    + rewrite Hlog', Hlog, <- app_assoc. reflexivity.
    + simpl. now rewrite Hlen.
    + constructor; [reflexivity | assumption].
    + congruence.
    + congruence.
    + destruct (Hbatch H0) as [Hall _]. unfold digests. simpl. constructor; [| exact Hall].
      rewrite Hdig; [apply SHA3_256_digest_length | | ];
        rewrite H0; [apply andb_false_r | reflexivity].
    + destruct (Hbatch H0) as [_ ->]. rewrite Hexp, H0. reflexivity.
Qed.

End CaptureBatch.

(** ** Folding digests *)

Section Fold.

Lemma map_nth_seq (a : list Z) n :
  length a = n -> map (fun j => nth j a 0) (seq 0 n) = a.
Proof.
  intros <-. apply nth_ext with (d := 0) (d' := 0).
  - now rewrite length_map, length_seq.
  - intros j Hj. rewrite length_map, length_seq in Hj.
    rewrite (nth_indep _ 0 (nth 0 a 0)) by now rewrite length_map, length_seq.
    rewrite (map_nth (fun j => nth j a 0)), seq_nth by assumption. reflexivity.
Qed.

Lemma nth_zip_with_lxor (a b : list Z) j :
  length a = length b ->
  nth j (zip_with Z.lxor a b) 0 = Z.lxor (nth j a 0) (nth j b 0).
Proof.
  revert b j. induction a as [| x a IH]; intros [| y b] j Hlen;
    try discriminate; destruct j; simpl; try reflexivity.
  apply IH. now injection Hlen.
Qed.

(** Folding into an accumulator of the digests' length. *)
Lemma fold_digests_some n ds : forall a,
  length a = n -> Forall (fun d => length d = n) ds ->
  fold_digests (Some a) ds =
  Some (map (fun j => Z.lxor (nth j a 0)
                             (fold_right Z.lxor 0 (map (fun d => nth j d 0) ds)))
            (seq 0 n)).
Proof.
  induction ds as [| d ds IH]; intros a Ha Hds; simpl.
  - f_equal. rewrite <- (map_nth_seq a n Ha) at 1.
    apply map_ext. intros j. now rewrite Z.lxor_0_r.
  - inversion Hds as [| ? ? Hd Hds']; subst.
    rewrite IH; [| rewrite length_zip_with; lia | assumption].
    f_equal. apply map_ext. intros j.
    rewrite nth_zip_with_lxor by congruence.
    rewrite (Z.lxor_comm (nth j d 0)). apply Z.lxor_assoc.
Qed.

(** The fold of a batch: the first digest is taken as it is, every
    other one is combined byte by byte, so that each byte of the
    result is the exclusive-or of that byte of all the digests. *)
Lemma fold_digests_xor_all n d ds :
  Forall (fun d => length d = n) (d :: ds) ->
  fold_digests None (d :: ds) = Some (xor_all n (d :: ds)).
Proof.
  intros Hall. inversion Hall as [| ? ? Hd Hds]; subst. simpl.
  now rewrite (fold_digests_some (length d)).
Qed.

End Fold.

Section CaptureBatches.

Context (E : Env) `{DgSha3}.

(** A batch that is acquired in full: the scope was armed, the device
    triggered (with a freshly generated sample in FVSR mode without
    batches), as many waves transferred as there are segments, and
    the segments processed from an absent expected value. *)
Lemma acquire_inv cfg s s' :
  acquire E cfg s = (Ret tt, s') ->
  exists s1 e,
    let s0 := set_expected_ciphertext None
                (set_log (log s1 ++ [e; CaptureAndTransferWaves]) s1) in
    let waves := waves_of E (count is_transfer (log s1 ++ [e])) in
    (if batch_mode cfg then
       s1 = set_log (log s ++ [Arm]) s /\
       to_bytes_4_little (num_segments cfg) s1 = (Ret (match e with AbsorbBatch n => n | _ => [] end), s1) /\
       exists n, e = AbsorbBatch n
     else
       (if bool_decide (capture_mode cfg = "sha3_fvsr_data")
        then next_sample E cfg (set_log (log s ++ [Arm]) s) = (Ret tt, s1)
        else s1 = set_log (log s ++ [Arm]) s) /\
       e = Absorb (text s1)) /\
    quiet (set_log (log s ++ [Arm]) s) s1 /\
    Z.of_nat (length waves) = num_segments cfg /\
    for_range (segment E cfg waves) 0 (Z.to_nat (num_segments cfg)) s0 = (Ret tt, s').
Proof.
  unfold acquire. intros Hrun.
  apply bind_inv_ret in Hrun as ([] & s1 & Harm & Hrun).
  apply modify_inv in Harm as ->.
  apply bind_inv_ret in Hrun as ([] & s1 & Htrig & Hrun).
  apply bind_inv_ret in Hrun as (s2 & s3 & Hget & Hrun).
  apply get_inv in Hget as [-> ->].
  apply bind_inv_ret in Hrun as ([] & s2 & Hemit & Hrun).
  apply modify_inv in Hemit as ->.
  apply bind_inv_ret in Hrun as ([] & s2 & Hlen & Hrun).
  apply assert_inv in Hlen as [Hlen ->]. apply Z.eqb_eq in Hlen.
  apply bind_inv_ret in Hrun as ([] & s2 & Hreset & Hrun).
  apply modify_inv in Hreset as ->.
  destruct (batch_mode cfg).
  - apply bind_inv_ret in Htrig as (nb & s2 & Hnb & Htrig).
    apply modify_inv in Htrig as ->.
    assert (s2 = set_log (log s ++ [Arm]) s) as ->.
    { unfold to_bytes_4_little in Hnb. destruct (_ && _); [| discriminate].
      now apply ret_inv in Hnb as [_ ->]. }
    exists (set_log (log s ++ [Arm]) s), (AbsorbBatch nb).
    simpl in *. rewrite <- !app_assoc in *. simpl in *.
    repeat split; try assumption. now exists nb.
  - apply bind_inv_ret in Htrig as ([] & s2 & Hsample & Htrig).
    apply bind_inv_ret in Htrig as (s3 & s4 & Hget & Htrig).
    apply get_inv in Hget as [-> ->]. apply modify_inv in Htrig as ->.
    exists s2, (Absorb (text s2)).
    simpl in *. rewrite <- !app_assoc in *. simpl in *.
    assert (quiet (set_log (log s ++ [Arm]) s) s2) as Hq.
    { destruct (bool_decide (capture_mode cfg = "sha3_fvsr_data")).
      - pose proof (next_sample_quiet E cfg (set_log (log s ++ [Arm]) s)) as Hq.
        now rewrite Hsample in Hq.
      - apply ret_inv in Hsample as [_ ->]. reflexivity. }
    repeat split; try assumption; try apply Hq.
    destruct (bool_decide (capture_mode cfg = "sha3_fvsr_data"));
      [assumption | now apply ret_inv in Hsample as [_ ->]].
Qed.

Lemma acquire_ret cfg s s' :
  acquire E cfg s = (Ret tt, s') ->
  exists e new,
    log s' = log s ++ [Arm; e; CaptureAndTransferWaves] ++ new /\
    match e with
    | AbsorbBatch _ => batch_mode cfg = true
    | Absorb _ => batch_mode cfg = false
    | _ => False
    end /\
    Z.of_nat (length new) = num_segments cfg /\
    Forall (fun e => is_trace e = true) new /\
    remaining_num_traces s' = remaining_num_traces s /\
    num_segments_storage s' = num_segments_storage s /\
    (new = [] -> expected_ciphertext s' = None) /\
    (batch_mode cfg = true ->
     Forall (fun d => length d = 32%nat) (digests new) /\
     expected_ciphertext s' = fold_digests None (digests new)).
Proof.
  intros Hrun. apply acquire_inv in Hrun as (s1 & e & Htrig & Hq & Hlen & Hrun).
  destruct Hq as (Hlog1 & Hrem1 & Hsto1 & _). simpl in *.
  assert (Hrun' := Hrun).
  apply segments_ret in Hrun as (new & Hlog & Hnew & Htr & Hrem & Hsto & Hbatch).
  simpl in *. exists e, new. repeat split.
  - rewrite Hlog, Hlog1, <- !app_assoc. reflexivity.
  - destruct (batch_mode cfg).
    + now destruct Htrig as (_ & _ & n & ->).
    + now destruct Htrig as (_ & ->).
  - rewrite Hnew, Z2Nat.id; [reflexivity |]. rewrite <- Hlen. lia.
  - assumption.
  - congruence.
  - congruence.
  - intros ->. simpl in Hnew. rewrite <- Hnew in Hrun'. simpl in Hrun'.
    now apply ret_inv in Hrun' as [_ ->].
  - now apply Hbatch.
  - now apply Hbatch.
Qed.

End CaptureBatches.

(** ** The capture script: the check and the loop *)

Section CaptureLoop.

Context (E : Env) `{DgSha3}.

(** The device is read once, and the reply compared with the leading
    bytes of the expected value. *)
Lemma check_ciphertext_eq e len s :
  check_ciphertext E (Some e) len s =
  (if bool_decide (read_ciphertext E (count is_read (log s)) len = slice_to e len)
   then Ret tt else Raise AssertionError,
   set_log (log s ++ [ReadCiphertext len]) s).
Proof.
  unfold check_ciphertext, bind, get, emit, modify, assert.
  now case_bool_decide.
Qed.

Lemma check_ciphertext_none len s :
  check_ciphertext E None len s =
  (Raise TypeError, set_log (log s ++ [ReadCiphertext len]) s).
Proof. reflexivity. Qed.

(** An iteration is the acquisition of a batch, the check, and the
    bookkeeping; the first two can raise. *)
Lemma iteration_eq cfg s :
  iteration E cfg s =
  match acquire E cfg s with
  | (Ret _, s1) =>
      match expected_ciphertext s1 with
      | Some e =>
          if bool_decide (read_ciphertext E (count is_read (log s1)) (output_len cfg)
                          = slice_to e (output_len cfg))
          then (Ret tt, bookkeeping E cfg s1)
          else (Raise AssertionError,
                set_log (log s1 ++ [ReadCiphertext (output_len cfg)]) s1)
      | None =>
          (Raise TypeError, set_log (log s1 ++ [ReadCiphertext (output_len cfg)]) s1)
      end
  | (Raise e, s1) => (Raise e, s1)
  end.
Proof.
  unfold iteration. unfold bind at 1.
  destruct (acquire E cfg s) as [[[] | e] s1]; [| reflexivity].
  unfold bind at 1. unfold get at 1. unfold bind at 1.
  destruct (expected_ciphertext s1) as [e |].
  - rewrite check_ciphertext_eq. case_bool_decide; reflexivity.
  - reflexivity.
Qed.

(** One more pass of the loop: a failure ends the loop where it
    happened, a success hands over to the next pass. *)
Lemma capture_loop_step fuel cfg s :
  0 < remaining_num_traces s ->
  capture_loop E (S fuel) cfg s =
  match iteration E cfg s with
  | (Ret _, s') => capture_loop E fuel cfg s'
  | (Raise e, s') => (Raise e, s')
  end.
Proof.
  intros Hrem. simpl. unfold bind at 1. unfold get at 1.
  apply Z.ltb_lt in Hrem. rewrite Hrem. reflexivity.
Qed.

Lemma capture_loop_done fuel cfg s :
  remaining_num_traces s <= 0 -> capture_loop E fuel cfg s = (Ret tt, s).
Proof.
  intros Hrem. apply Z.ltb_ge in Hrem.
  destruct fuel; simpl; unfold bind, get; now rewrite Hrem.
Qed.

(** An iteration that goes through. *)
Lemma iteration_ret cfg s s' :
  iteration E cfg s = (Ret tt, s') ->
  exists e new,
    log s' = log s ++ [Arm; e; CaptureAndTransferWaves] ++ new
             ++ [ReadCiphertext (output_len cfg);
                 OptimizeCapture (num_segments_storage s);
                 PbarUpdate (num_segments cfg)] /\
    Z.of_nat (length new) = num_segments cfg /\
    Forall (fun e => is_trace e = true) new /\
    is_trace e = false /\ is_arm e = false /\
    1 <= num_segments cfg /\
    remaining_num_traces s' = remaining_num_traces s - num_segments cfg.
Proof.
  rewrite iteration_eq. intros Hrun.
  destruct (acquire E cfg s) as [[[] | e] s1] eqn:Hacq; [| discriminate].
  apply acquire_ret in Hacq
    as (e & new & Hlog & He & Hlen & Htr & Hrem & Hsto & Hnone & _).
  destruct (expected_ciphertext s1) as [x |] eqn:Hexp; [| discriminate].
  destruct (bool_decide _); [| discriminate].
  injection Hrun as <-. exists e, new. unfold bookkeeping. simpl.
  rewrite Hlog, Hsto, Hrem, <- !app_assoc. simpl. repeat split; try assumption.
  - now destruct e.
  - now destruct e.
  - destruct new as [| ? ?]; [now specialize (Hnone eq_refl) |]. simpl in Hlen. lia.
Qed.

End CaptureLoop.

(** ** The expected value of a batch and the digest check *)

Section ExpectedValue.

Context (E : Env) `{DgSha3}.

Lemma slice_to_take e len : 0 <= len -> slice_to e len = take (Z.to_nat len) e.
Proof. intros Hlen. unfold slice_to. apply Z.ltb_ge in Hlen. now rewrite Hlen. Qed.

(** C1: in batch mode the expected value of a batch does not depend
    on what was left of the previous batch: it is the fold, from an
    absent accumulator, of the digests of the batch's segments in
    order.  Folding a digest into an absent accumulator gives the
    digest, folding it into an accumulator of the same length gives
    their byte-wise exclusive-or; so for a batch of at least one
    segment each byte of the expected value is the exclusive-or of
    that byte of all 32-byte digests.  The check that follows reads
    the device once and passes exactly when the reply is the first
    [output_len] bytes of that value. *)
Theorem batch_expected_value (cfg : CaptureConfig) (s s1 : state) :
  batch_mode cfg = true ->
  0 <= output_len cfg ->
  acquire E cfg s = (Ret tt, s1) ->
  (forall d, exp_cipher_bytes d None = d) /\
  (forall d acc j,
      length d = length acc ->
      length (exp_cipher_bytes d (Some acc)) = length acc /\
      nth j (exp_cipher_bytes d (Some acc)) 0 = Z.lxor (nth j acc 0) (nth j d 0)) /\
  exists e new,
    log s1 = log s ++ [Arm; e; CaptureAndTransferWaves] ++ new /\
    Z.of_nat (length (digests new)) = num_segments cfg /\
    expected_ciphertext s1 = fold_digests None (digests new) /\
    (1 <= num_segments cfg ->
     expected_ciphertext s1 = Some (xor_all 32 (digests new))) /\
    forall x,
      expected_ciphertext s1 = Some x ->
      check_ciphertext E (expected_ciphertext s1) (output_len cfg) s1 =
      (if bool_decide (read_ciphertext E (count is_read (log s1)) (output_len cfg)
                       = take (Z.to_nat (output_len cfg)) x)
       then Ret tt else Raise AssertionError,
       set_log (log s1 ++ [ReadCiphertext (output_len cfg)]) s1).
Proof.
  intros Hbatch Hlen Hrun. split; [reflexivity |]. split.
  { intros d acc j Hd. simpl. split.
    - rewrite length_zip_with. lia.
    - rewrite nth_zip_with_lxor by assumption. apply Z.lxor_comm. }
  apply acquire_ret in Hrun
    as (e & new & Hlog & _ & Hnew & Htr & _ & _ & _ & Hfold).
  destruct (Hfold Hbatch) as [Hall Hexp].
  assert (length (digests new) = length new) as Hdig.
  { unfold digests. rewrite length_map. now apply length_traces. }
  exists e, new. repeat split.
  - assumption.
  - now rewrite Hdig.
  - assumption.
  - intros Hns. rewrite Hexp. destruct (digests new) as [| d ds] eqn:Hds.
    + simpl in Hdig. lia.
    + now apply fold_digests_xor_all.
  - intros x Hx. rewrite Hx, check_ciphertext_eq, slice_to_take by assumption.
    reflexivity.
Qed.

(** C6: the check raises [AssertionError] exactly when the bytes read
    from the device differ from the first [output_len] bytes of the
    expected value.  When it does, the loop ends there and then: the
    read is the last thing that happened, and no pass follows.
    Otherwise the pass is completed by its bookkeeping and the loop
    goes on from there. *)
Theorem digest_check (cfg : CaptureConfig) (fuel : nat) (s s1 : state) (e : list Z) :
  0 < remaining_num_traces s ->
  acquire E cfg s = (Ret tt, s1) ->
  expected_ciphertext s1 = Some e ->
  let actual := read_ciphertext E (count is_read (log s1)) (output_len cfg) in
  let expected := slice_to e (output_len cfg) in
  let after_read := set_log (log s1 ++ [ReadCiphertext (output_len cfg)]) s1 in
  (0 <= output_len cfg -> expected = take (Z.to_nat (output_len cfg)) e) /\
  (fst (check_ciphertext E (Some e) (output_len cfg) s1) = Raise AssertionError
   <-> actual <> expected) /\
  (fst (check_ciphertext E (Some e) (output_len cfg) s1) = Ret tt
   <-> actual = expected) /\
  (actual <> expected ->
   capture_loop E (S fuel) cfg s = (Raise AssertionError, after_read)) /\
  (actual = expected ->
   capture_loop E (S fuel) cfg s = capture_loop E fuel cfg (bookkeeping E cfg s1) /\
   remaining_num_traces (bookkeeping E cfg s1) =
     remaining_num_traces s - num_segments cfg).
Proof.
  intros Hrem Hacq Hexp actual expected after_read.
  split; [apply slice_to_take |].
  rewrite check_ciphertext_eq. fold actual expected.
  rewrite (capture_loop_step E fuel cfg s Hrem), iteration_eq, Hacq, Hexp.
  fold actual expected after_read.
  apply acquire_ret in Hacq as (_ & _ & _ & _ & _ & _ & Hr & _).
  case_bool_decide as Hcmp; simpl; repeat split; congruence.
Qed.

(** A batch of one segment, in any mode: the expected value is the
    digest stored with the segment's trace. *)
Lemma acquire_single cfg s s' :
  num_segments cfg = 1 ->
  acquire E cfg s = (Ret tt, s') ->
  exists e w c,
    log s' = log s ++ [Arm; e; CaptureAndTransferWaves; AppendTrace w (text s') c] /\
    ciphertext s' = Some c /\
    expected_ciphertext s' = Some c /\
    (bool_decide (capture_mode cfg = "sha3_fvsr_data") && negb (batch_mode cfg) = false ->
     batch_mode cfg || bool_decide (capture_mode cfg = "sha3_random") = true ->
     c = SHA3_256_digest (text s')).
Proof.
  intros Hns Hrun. apply acquire_inv in Hrun as (s1 & e & _ & Hq & _ & Hrun).
  rewrite Hns in Hrun. simpl in Hrun.
  apply bind_inv_ret in Hrun as ([] & s2 & Hseg & Hrun).
  apply ret_inv in Hrun as [_ ->].
  apply segment_log in Hseg as (w & c & Hlog & Hc & _ & _ & Hexp & Hdig).
  destruct Hq as (Hlog1 & _). simpl in *.
  exists e, w, c. repeat split.
  - rewrite Hlog, Hlog1, <- !app_assoc. reflexivity.
  - assumption.
  - rewrite Hexp. now destruct (batch_mode cfg).
  - assumption.
Qed.

End ExpectedValue.

Section SingleSegment.

Context (E E' : Env) `{DgSha3}.

(** C8: with one segment per batch, batch mode hands the device check
    the digest of its one segment, as the fold of one digest is that
    digest; that is the value the mode without batches computes for
    the same plaintext. *)
Theorem single_segment_batch (cfg cfg' : CaptureConfig) (s s1 t t1 : state) :
  batch_mode cfg = true -> num_segments cfg = 1 ->
  batch_mode cfg' = false -> capture_mode cfg' = "sha3_random" ->
  num_segments cfg' = 1 ->
  acquire E cfg s = (Ret tt, s1) ->
  acquire E' cfg' t = (Ret tt, t1) ->
  text s1 = text t1 ->
  (forall d, fold_digests None [d] = Some d) /\
  expected_ciphertext s1 = Some (SHA3_256_digest (text s1)) /\
  expected_ciphertext s1 = expected_ciphertext t1 /\
  digests (log s1) = digests (log s) ++ [SHA3_256_digest (text s1)].
Proof.
  intros Hb Hns Hb' Hmode' Hns' Hrun Hrun' Htext.
  assert (Hacq := Hrun).
  apply acquire_single in Hrun as (e & w & c & Hlog & _ & Hexp & Hc); [| assumption].
  apply acquire_single in Hrun' as (e' & w' & c' & _ & _ & Hexp' & Hc'); [| assumption].
  rewrite Hb in Hc. rewrite Hb', Hmode' in Hc'. simpl in Hc, Hc'.
  rewrite andb_false_r in Hc. specialize (Hc eq_refl eq_refl).
  specialize (Hc' eq_refl eq_refl). subst c c'.
  repeat split.
  - now rewrite Hexp.
  - now rewrite Hexp, Hexp', Htext.
  - rewrite Hlog. unfold digests. rewrite traces_app, map_app. f_equal.
    rewrite !traces_cons.
    apply acquire_ret in Hacq as (e0 & new & Hlog0 & He0 & _).
    rewrite Hlog in Hlog0. apply app_inv_head in Hlog0. injection Hlog0 as <- _.
    now destruct e.
Qed.

End SingleSegment.

(** ** The capture script: how many passes, how many traces *)

Section CeilDiv.

Lemma ceil_div_step a b : 1 <= b -> ceil_div (a - b) b = ceil_div a b - 1.
Proof.
  intros Hb. unfold ceil_div.
  replace (a - b + b - 1) with (a + b - 1 + (-1) * b) by lia.
  rewrite Z.div_add by lia. lia.
Qed.

Lemma ceil_div_pos a b : 1 <= b -> 0 < a -> 1 <= ceil_div a b.
Proof.
  intros Hb Ha. unfold ceil_div.
  replace (a + b - 1) with (a - 1 + 1 * b) by lia.
  rewrite Z.div_add by lia. pose proof (Z.div_pos (a - 1) b). lia.
Qed.

Lemma ceil_div_nonpos a b : 1 <= b -> a <= 0 -> ceil_div a b <= 0.
Proof.
  intros Hb Ha. unfold ceil_div.
  assert ((a + b - 1) / b < 1); [| lia].
  apply Z.div_lt_upper_bound; lia.
Qed.

Lemma ceil_div_bounds a b :
  1 <= b ->
  a <= ceil_div a b * b /\ ceil_div a b * b < a + b /\
  (~ (b | a) -> a < ceil_div a b * b).
Proof.
  intros Hb. unfold ceil_div.
  pose proof (Z.div_mod (a + b - 1) b ltac:(lia)) as Hdm.
  pose proof (Z.mod_pos_bound (a + b - 1) b ltac:(lia)) as Hm.
  repeat split; try nia.
  intros Hndiv.
  destruct (Z.eq_dec ((a + b - 1) mod b) (b - 1)) as [Heq |]; [| nia].
  exfalso. apply Hndiv. exists ((a + b - 1) / b). nia.
Qed.

End CeilDiv.

Section CaptureCount.

Context (E : Env) `{DgSha3}.

(** A loop that runs to its end made ceil(remaining / num_segments)
    passes, each of which armed the scope once and stored
    [num_segments] traces. *)
Lemma capture_loop_ret cfg : forall fuel s s',
  1 <= num_segments cfg ->
  capture_loop E fuel cfg s = (Ret tt, s') ->
  let k := Z.max 0 (ceil_div (remaining_num_traces s) (num_segments cfg)) in
  Z.of_nat (count is_arm (log s')) = Z.of_nat (count is_arm (log s)) + k /\
  Z.of_nat (length (traces (log s'))) =
    Z.of_nat (length (traces (log s))) + k * num_segments cfg.
Proof.
  induction fuel as [| fuel IH]; intros s s' Hns Hrun k;
    destruct (Z.lt_ge_cases 0 (remaining_num_traces s)) as [Hrem | Hrem].
  - simpl in Hrun. unfold bind, get in Hrun.
    apply Z.ltb_lt in Hrem. now rewrite Hrem in Hrun.
  - rewrite capture_loop_done in Hrun by assumption. injection Hrun as <-.
    pose proof (ceil_div_nonpos _ _ Hns Hrem). subst k. lia.
  - rewrite capture_loop_step in Hrun by assumption.
    destruct (iteration E cfg s) as [[[] | e] s1] eqn:Hiter; [| discriminate].
    apply iteration_ret in Hiter
      as (e & new & Hlog & Hlen & Htr & He & Ha & _ & Hrem1).
    apply IH in Hrun as [Harms Htraces]; [| assumption].
    rewrite Hrem1, ceil_div_step in Harms, Htraces by assumption.
    pose proof (ceil_div_pos _ _ Hns Hrem).
    set (pre := [Arm; e; CaptureAndTransferWaves]) in Hlog.
    set (post := [ReadCiphertext _; _; _]) in Hlog.
    assert (count is_arm pre = 1%nat) as Hpre_arm
      by (unfold count, pre; simpl; now rewrite Ha).
    assert (traces pre = []) as Hpre_tr by (now destruct e).
    assert (count is_arm new = 0%nat) as Hnew_arm
      by (apply count_none; eapply Forall_impl; [exact Htr | now intros []]).
    rewrite Hlog in Harms, Htraces.
    rewrite !count_app, Hpre_arm, Hnew_arm in Harms.
    rewrite !traces_app, !length_app, Hpre_tr, (length_traces new Htr) in Htraces.
    change (count is_arm post) with 0%nat in Harms.
    change (traces post) with (@nil (list Z * list Z)) in Htraces.
    simpl in Htraces. subst k. nia.
  - rewrite capture_loop_done in Hrun by assumption. injection Hrun as <-.
    pose proof (ceil_div_nonpos _ _ Hns Hrem). subst k. lia.
Qed.

(** Beyond ceil(remaining / num_segments) the unrolling bound plays no
    part: the loop has returned or raised before reaching it. *)
Lemma capture_loop_fuel cfg : forall fuel fuel' s,
  1 <= num_segments cfg ->
  (Z.to_nat (ceil_div (remaining_num_traces s) (num_segments cfg)) <= fuel)%nat ->
  (fuel <= fuel')%nat ->
  capture_loop E fuel' cfg s = capture_loop E fuel cfg s.
Proof.
  induction fuel as [| fuel IH]; intros fuel' s Hns Hfuel Hle;
    destruct (Z.lt_ge_cases 0 (remaining_num_traces s)) as [Hrem | Hrem];
    try (now rewrite !capture_loop_done by assumption).
  - pose proof (ceil_div_pos _ _ Hns Hrem). lia.
  - destruct fuel' as [| fuel']; [lia |].
    rewrite !capture_loop_step by assumption.
    destruct (iteration E cfg s) as [[[] | e] s1] eqn:Hiter; [| reflexivity].
    apply iteration_ret in Hiter as (_ & _ & _ & _ & _ & _ & _ & _ & Hrem1).
    apply IH; [assumption | | lia].
    rewrite Hrem1, ceil_div_step by assumption. lia.
Qed.

(** [m] raises only exceptions that satisfy [P]. *)
Definition raises_only {St A} (P : exn -> Prop) (m : M St A) : Prop :=
  forall s e s', m s = (Raise e, s') -> P e.

Lemma raises_only_ret {St A} P (a : A) : raises_only P (@ret St A a).
Proof. intros s e s' Hrun. discriminate. Qed.

Lemma raises_only_get {St} P : raises_only P (@get St).
Proof. intros s e s' Hrun. discriminate. Qed.

Lemma raises_only_modify {St} P (f : St -> St) : raises_only P (modify f).
Proof. intros s e s' Hrun. discriminate. Qed.

Lemma raises_only_raise {St A} (P : exn -> Prop) e : P e -> raises_only P (@raise St A e).
Proof. intros He s e' s' [= <- _]. exact He. Qed.

Lemma raises_only_bind {St A B} P (m : M St A) (k : A -> M St B) :
  raises_only P m -> (forall a, raises_only P (k a)) -> raises_only P (bind m k).
Proof.
  intros Hm Hk s e s' Hrun. unfold bind in Hrun.
  destruct (m s) as [[a | e1] s1] eqn:Hms.
  - exact (Hk a s1 e s' Hrun).
  - injection Hrun as <- <-. exact (Hm s e1 s1 Hms).
Qed.

Lemma raises_only_assert {St} (P : exn -> Prop) b :
  P AssertionError -> raises_only P (@assert St b).
Proof. intros He. destruct b; [apply raises_only_ret | now apply raises_only_raise]. Qed.

Lemma raises_only_bytes {St} (P : exn -> Prop) l :
  P ValueError -> raises_only P (@bytes St l).
Proof.
  intros He. unfold bytes.
  destruct (forallb is_byte l); [apply raises_only_ret | now apply raises_only_raise].
Qed.

Lemma raises_only_first_item {St} (P : exn -> Prop) x :
  P IndexError -> raises_only P (@first_item St x).
Proof. intros He. destruct x; [now apply raises_only_raise | apply raises_only_ret]. Qed.

Lemma raises_only_bound {A} (P : exn -> Prop) (v : option A) :
  P UnboundLocalError -> raises_only P (bound v).
Proof. intros He. destruct v; [apply raises_only_ret | now apply raises_only_raise]. Qed.

Lemma raises_only_to_bytes {St} (P : exn -> Prop) n :
  P OverflowError -> raises_only P (@to_bytes_4_little St n).
Proof.
  intros He. unfold to_bytes_4_little.
  destruct (_ && _); [apply raises_only_ret | now apply raises_only_raise].
Qed.

Section Ends.

(** The exceptions of the script itself. *)
Definition own (e : exn) : Prop := e <> OutOfFuel.

Ltac own_exn := unfold own; discriminate.

Hypothesis Hdg : generators_end.

Lemma random_bytes_ends n : raises_only own (random_bytes E n).
Proof. intros s e s' Hrun. rewrite random_bytes_eq in Hrun. discriminate. Qed.

Lemma lift_dg_ends {A} (m : M DataGenerator.world A) :
  (forall w, fst (m w) <> Raise OutOfFuel) -> raises_only own (lift_dg m).
Proof.
  intros Hm s e s' Hrun. unfold lift_dg in Hrun. specialize (Hm (dg s)).
  destruct (m (dg s)) as [r w]. injection Hrun as -> _.
  intros ->. now apply Hm.
Qed.

Ltac ends_step :=
  first [ apply raises_only_ret
        | apply raises_only_get
        | apply raises_only_modify
        | apply random_bytes_ends
        | apply raises_only_assert; own_exn
        | apply raises_only_bytes; own_exn
        | apply raises_only_first_item; own_exn
        | apply raises_only_bound; own_exn
        | apply raises_only_to_bytes; own_exn
        | apply raises_only_raise; own_exn
        | apply raises_only_bind; [| intros ?] ].

Lemma generate_ref_crypto_ends sf mode batch pt ptf tlb :
  raises_only own (generate_ref_crypto E sf mode batch pt ptf tlb).
Proof.
  unfold generate_ref_crypto.
  destruct (bool_decide (mode = "sha3_fvsr_data") && negb batch).
  - apply raises_only_bind.
    + destruct (bool_decide (sf <> 0)); apply lift_dg_ends; intros w; apply Hdg.
    + intros [[p c] k]. repeat ends_step.
  - destruct (bool_decide (mode = "sha3_random")); [repeat ends_step |].
    apply raises_only_bind; [destruct (bool_decide (sf <> 0)); ends_step |].
    intros p. repeat ends_step.
Qed.

Lemma next_sample_ends cfg : raises_only own (next_sample E cfg).
Proof.
  unfold next_sample. ends_step; [ends_step |].
  apply raises_only_bind; [apply generate_ref_crypto_ends |].
  intros [[t c] f]. ends_step.
Qed.

Lemma segment_ends cfg waves i : raises_only own (segment E cfg waves i).
Proof.
  unfold segment.
  apply raises_only_bind; [destruct (_ || _); [apply next_sample_ends | ends_step] |].
  intros _. apply raises_only_bind; [destruct (waves !! i); ends_step |].
  intros w. do 5 (ends_step; [ends_step |]).
  unfold emit. ends_step; [ends_step |].
  apply raises_only_bind;
    [destruct (bool_decide _); [repeat ends_step | ends_step] |].
  intros _. ends_step; [ends_step |].
  destruct (batch_mode cfg); repeat ends_step.
Qed.

Lemma for_range_ends (body : nat -> M state unit) n :
  (forall i, raises_only own (body i)) -> forall i, raises_only own (for_range body i n).
Proof.
  intros Hbody. induction n as [| n IH]; intros i; simpl; [ends_step |].
  apply raises_only_bind; [apply Hbody | intros _; apply IH].
Qed.

Lemma acquire_ends cfg : raises_only own (acquire E cfg).
Proof.
  unfold acquire, emit. ends_step; [ends_step |].
  apply raises_only_bind.
  { destruct (batch_mode cfg); [repeat ends_step |].
    apply raises_only_bind;
      [destruct (bool_decide _); [apply next_sample_ends | ends_step] |].
    intros _. repeat ends_step. }
  intros _. do 4 (ends_step; [ends_step |]).
  apply for_range_ends. intros i. apply segment_ends.
Qed.

(** A pass of the loop ends, by returning or by an exception of its
    own. *)
Lemma iteration_ends cfg : raises_only own (iteration E cfg).
Proof.
  unfold iteration. apply raises_only_bind; [apply acquire_ends |].
  intros _. ends_step; [ends_step |].
  apply raises_only_bind.
  { unfold check_ciphertext, emit. ends_step; [ends_step |].
    ends_step; [ends_step |].
    destruct (expected_ciphertext _); ends_step. }
  intros _. unfold emit. repeat ends_step.
Qed.

(** The loop ends within ceil(remaining / num_segments) passes. *)
Lemma capture_loop_ends cfg : forall fuel s,
  1 <= num_segments cfg ->
  (Z.to_nat (ceil_div (remaining_num_traces s) (num_segments cfg)) <= fuel)%nat ->
  fst (capture_loop E fuel cfg s) <> Raise OutOfFuel.
Proof.
  induction fuel as [| fuel IH]; intros s Hns Hfuel;
    destruct (Z.lt_ge_cases 0 (remaining_num_traces s)) as [Hrem | Hrem];
    try (now rewrite capture_loop_done by assumption).
  - pose proof (ceil_div_pos _ _ Hns Hrem). lia.
  - rewrite capture_loop_step by assumption.
    destruct (iteration E cfg s) as [[[] | e] s1] eqn:Hiter.
    + apply iteration_ret in Hiter as (_ & _ & _ & _ & _ & _ & _ & _ & Hrem1).
      apply IH; [assumption |]. rewrite Hrem1, ceil_div_step by assumption. lia.
    + intros [= ->]. now apply (iteration_ends cfg s OutOfFuel s1 Hiter).
Qed.

End Ends.


End CaptureCount.

(** ** FVSR mode without batches: no cycle completes *)

Section FvsrCycle.

Context (E : Env).

#[local] Existing Instance dg_sha3.

Lemma set_dg_same s : set_dg (dg s) s = s.
Proof. now destruct s. Qed.

(** Asking the data generator for a sample raises [AttributeError],
    whatever the selector. *)
Lemma next_sample_raises cfg s :
  capture_mode cfg = "sha3_fvsr_data" -> batch_mode cfg = false ->
  next_sample E cfg s = (Raise AttributeError, s).
Proof.
  intros Hmode Hbatch. unfold next_sample, generate_ref_crypto.
  rewrite Hmode, Hbatch. rewrite (bind_ret get _ s s s eq_refl).
  cbn [bool_decide decide_rel andb negb].
  assert (forall k : list Z * list Z * list Z -> M state (list Z * list Z * Z),
    bind (if bool_decide (sample_fixed s <> 0)
          then lift_dg get_sha3_fixed else lift_dg get_sha3_random) k s
    = (Raise AttributeError, s)) as Hdg.
  { intros k. apply bind_raise.
    destruct (bool_decide (sample_fixed s <> 0)); unfold lift_dg; cbn;
      now rewrite set_dg_same. }
  apply bind_raise. rewrite bool_decide_eq_true_2 by reflexivity. apply Hdg.
Qed.

(** A pass arms the scope and ends there: nothing is sent to the
    device, no wave is transferred, no trace stored. *)
Lemma fvsr_iteration_raises cfg s :
  capture_mode cfg = "sha3_fvsr_data" -> batch_mode cfg = false ->
  iteration E cfg s = (Raise AttributeError, set_log (log s ++ [Arm]) s).
Proof.
  intros Hmode Hbatch. unfold iteration. apply bind_raise. unfold acquire.
  rewrite (bind_ret (emit Arm) _ s tt (set_log (log s ++ [Arm]) s) eq_refl).
  apply bind_raise. rewrite Hbatch, Hmode.
  rewrite bool_decide_eq_true_2 by reflexivity.
  apply bind_raise. now apply next_sample_raises.
Qed.

(** What [capture] does before its loop, without batches. *)
Lemma capture_with_no_batch fuel cfg s :
  batch_mode cfg = false ->
  capture_with E fuel cfg s =
  capture_loop E fuel cfg
    (set_remaining_num_traces (num_traces cfg)
       (set_num_segments_storage 1
          (set_sample_fixed 0 (set_text (text_fixed cfg) s)))).
Proof. intros Hbatch. unfold capture_with. now rewrite Hbatch. Qed.

(** C5 fails on the code: in FVSR mode without batches no stimulus and
    no reference digest is produced.  Every pass of the loop arms the
    scope and then raises [AttributeError], as the data generator has
    neither [get_sha3_fixed] nor [get_sha3_random]; so a capture of at
    least one trace ends in its first pass, with the scope armed,
    nothing sent to the device and no trace stored. *)
Theorem fvsr_cycle_raises (cfg : CaptureConfig) (fuel : nat) (s : state) :
  capture_mode cfg = "sha3_fvsr_data" ->
  batch_mode cfg = false ->
  1 <= num_traces cfg ->
  let s0 := set_remaining_num_traces (num_traces cfg)
              (set_num_segments_storage 1
                 (set_sample_fixed 0 (set_text (text_fixed cfg) s))) in
  (forall s1, iteration E cfg s1 = (Raise AttributeError, set_log (log s1 ++ [Arm]) s1)) /\
  capture_with E (S fuel) cfg s = (Raise AttributeError, set_log (log s ++ [Arm]) s0) /\
  absorbed (log (snd (capture_with E (S fuel) cfg s))) = absorbed (log s) /\
  traces (log (snd (capture_with E (S fuel) cfg s))) = traces (log s).
Proof.
  intros Hmode Hbatch Hnt s0.
  split; [intros s1; now apply fvsr_iteration_raises |].
  assert (capture_with E (S fuel) cfg s
          = (Raise AttributeError, set_log (log s ++ [Arm]) s0)) as Hrun.
  { rewrite capture_with_no_batch by assumption. fold s0.
    rewrite capture_loop_step by (subst s0; simpl; lia).
    now rewrite fvsr_iteration_raises. }
  split; [exact Hrun |]. rewrite Hrun. cbn [snd log set_log].
  unfold absorbed. rewrite traces_app, omap_app. cbn. now rewrite !app_nil_r.
Qed.

End FvsrCycle.

(** ** FVSR modes: the selector looks one sample ahead *)

Section SelectorLookahead.

Context (E : Env) `{DgSha3}.

Lemma lift_dg_generators {A} (m : M DataGenerator.world A) :
  related same_generators (lift_dg m) (lift_dg m).
Proof.
  intros s t [Hdg Hrc]. unfold lift_dg. rewrite Hdg.
  destruct (m (dg t)) as [r w]. now repeat split.
Qed.

Lemma random_bytes_generators n :
  related same_generators (random_bytes E n) (random_bytes E n).
Proof.
  intros s t [Hdg Hrc]. rewrite !random_bytes_eq, Hrc. now repeat split.
Qed.

Lemma pure_generators {A} (m : M state A) :
  (exists r, forall s, m s = (r, s)) -> related same_generators m m.
Proof. intros [r Hm] s t HR. now rewrite !Hm. Qed.

Lemma first_item_generators x :
  related same_generators (@first_item state x) (first_item x).
Proof. apply pure_generators. destruct x; simpl; eauto. Qed.

Lemma bytes_generators l : related same_generators (@bytes state l) (bytes l).
Proof. apply pure_generators. unfold bytes. destruct (forallb _ _); eauto. Qed.

Ltac generators_step :=
  first [ apply lift_dg_generators
        | apply random_bytes_generators
        | apply first_item_generators
        | apply bytes_generators
        | apply related_ret
        | apply related_bind; [| intros ?] ].

(** [generate_ref_crypto] reads and moves the two generators only. *)
Lemma generate_ref_crypto_generators sf mode batch pt ptf tlb :
  related same_generators (generate_ref_crypto E sf mode batch pt ptf tlb)
                          (generate_ref_crypto E sf mode batch pt ptf tlb).
Proof.
  unfold generate_ref_crypto.
  destruct (bool_decide (mode = "sha3_fvsr_data") && negb batch).
  - generators_step; [destruct (bool_decide (sf <> 0)); generators_step |].
    destruct a as [[p c] k]. repeat generators_step.
  - destruct (bool_decide (mode = "sha3_random")); [repeat generators_step |].
    generators_step; [destruct (bool_decide (sf <> 0)); generators_step |].
    repeat generators_step.
Qed.

(** In the FVSR modes the current text is not looked at. *)
Lemma generate_ref_crypto_fvsr_text sf batch pt pt' ptf tlb :
  generate_ref_crypto E sf "sha3_fvsr_data" batch pt ptf tlb =
  generate_ref_crypto E sf "sha3_fvsr_data" batch pt' ptf tlb.
Proof. unfold generate_ref_crypto. now destruct batch. Qed.

Lemma next_sample_inv cfg s s1 :
  next_sample E cfg s = (Ret tt, s1) ->
  exists t c f s2,
    generate_ref_crypto E (sample_fixed s) (capture_mode cfg) (batch_mode cfg)
                        (text s) (text_fixed cfg) (text_len_bytes cfg) s
    = (Ret (t, c, f), s2) /\
    s1 = set_sample_fixed f (set_ciphertext (Some c) (set_text t s2)).
Proof.
  unfold next_sample. intros Hrun.
  apply bind_inv_ret in Hrun as (s0 & s2 & Hget & Hrun).
  apply get_inv in Hget as [-> ->].
  apply bind_inv_ret in Hrun as ([[t c] f] & s2 & Hgen & Hrun).
  apply modify_inv in Hrun as ->. now exists t, c, f, s2.
Qed.

(** A generated sample, seen from a state with the same generators. *)
Lemma next_sample_lookahead cfg s s1 t :
  capture_mode cfg = "sha3_fvsr_data" ->
  next_sample E cfg s = (Ret tt, s1) ->
  same_generators s t ->
  exists c t1,
    fvsr_sample E cfg (sample_fixed s) t = (Ret (text s1, c, sample_fixed s1), t1) /\
    ciphertext s1 = Some c /\
    same_generators s1 t1 /\ quiet s s1.
Proof.
  intros Hmode Hrun HR.
  pose proof (next_sample_quiet E cfg s) as Hq. rewrite Hrun in Hq.
  apply next_sample_inv in Hrun as (p & c & f & s2 & Hgen & ->).
  unfold fvsr_sample. rewrite Hmode in *.
  rewrite (generate_ref_crypto_fvsr_text _ _ [] (text s)).
  destruct (generate_ref_crypto_generators (sample_fixed s) "sha3_fvsr_data"
              (batch_mode cfg) (text s) (text_fixed cfg) (text_len_bytes cfg)
              s t HR) as [Hres HR'].
  rewrite Hgen in Hres, HR'. simpl in Hres, HR'.
  destruct (generate_ref_crypto E _ _ _ _ _ _ t) as [r t1]. simpl in Hres, HR'.
  subst r. exists c, t1.
  split; [reflexivity | split; [reflexivity | split; [exact HR' | exact Hq]]].
Qed.

Lemma not_random : bool_decide ("sha3_fvsr_data" = "sha3_random") = false.
Proof. reflexivity. Qed.

(** The segments of an FVSR batch follow the sequence. *)
Lemma segments_lookahead cfg waves n :
  capture_mode cfg = "sha3_fvsr_data" -> batch_mode cfg = true ->
  forall i s s' t,
    for_range (segment E cfg waves) i n s = (Ret tt, s') ->
    same_generators s t ->
    exists new t',
      fvsr_lookahead E cfg (sample_fixed s) n t
      = (Ret (traces new, sample_fixed s'), t') /\
      log s' = log s ++ new /\
      same_generators s' t'.
Proof.
  intros Hmode Hbatch.
  induction n as [| n IH]; intros i s s' t Hrun HR; simpl in Hrun.
  - apply ret_inv in Hrun as [_ ->]. exists [], t. rewrite app_nil_r.
    split; [reflexivity | split; [reflexivity | exact HR]].
  - apply bind_inv_ret in Hrun as ([] & s1 & Hseg & Hrun).
    apply segment_ret in Hseg as (s2 & w & c & Hs & _ & _ & Hc & _ & _ & ->).
    rewrite Hbatch, Hmode, not_random in Hrun. rewrite Hbatch in Hs. simpl in Hs.
    eapply next_sample_lookahead in Hs as (c' & t1 & Hsample & Hc' & HR1 & Hq);
      [| assumption | exact HR].
    rewrite Hc in Hc'. injection Hc' as <-.
    eapply IH in Hrun as (new & t' & Hrest & Hlog & HR'); [| exact HR1].
    simpl in Hrest, Hlog.
    exists (AppendTrace w (text s2) c :: new), t'.
    split; [| split; [| exact HR']].
    + simpl. unfold bind at 1. rewrite Hsample.
      unfold bind at 1. rewrite Hrest. reflexivity.
    + rewrite Hlog. destruct Hq as [-> _]. now rewrite <- app_assoc.
Qed.

Lemma lookahead_length cfg n : forall sel t l last t',
  fvsr_lookahead E cfg sel n t = (Ret (l, last), t') -> length l = n.
Proof.
  induction n as [| n IH]; intros sel t l last t' Hrun; simpl in Hrun.
  - now apply ret_inv in Hrun as [[= -> ->] _].
  - apply bind_inv_ret in Hrun as ([[p c] f] & t1 & _ & Hrun).
    apply bind_inv_ret in Hrun as ([l' last'] & t2 & Hrest & Hrun).
    apply ret_inv in Hrun as [[= -> ->] _]. simpl. f_equal. eauto.
Qed.

(** Two stretches of the sequence make one, when the second starts
    under the selector the first ended with. *)
Lemma lookahead_app cfg n1 n2 : forall sel t l1 sel1 t1 l2 sel2 t2,
  fvsr_lookahead E cfg sel n1 t = (Ret (l1, sel1), t1) ->
  fvsr_lookahead E cfg sel1 n2 t1 = (Ret (l2, sel2), t2) ->
  fvsr_lookahead E cfg sel (n1 + n2) t = (Ret (l1 ++ l2, sel2), t2).
Proof.
  induction n1 as [| n1 IH]; intros sel t l1 sel1 t1 l2 sel2 t2 H1 H2; simpl in *.
  - now apply ret_inv in H1 as [[= -> ->] ->].
  - apply bind_inv_ret in H1 as ([[p c] f] & u1 & Hsample & H1).
    apply bind_inv_ret in H1 as ([l' last'] & u2 & Hrest & H1).
    apply ret_inv in H1 as [[= -> ->] ->]. simpl.
    unfold bind at 1. rewrite Hsample. unfold bind at 1.
    now rewrite (IH _ _ _ _ _ _ _ _ Hrest H2).
Qed.

(** A pass of the loop in an FVSR mode follows the sequence. *)
Lemma iteration_lookahead cfg s s' t :
  capture_mode cfg = "sha3_fvsr_data" ->
  batch_mode cfg = true \/ num_segments cfg = 1 ->
  iteration E cfg s = (Ret tt, s') ->
  same_generators s t ->
  exists n samples t',
    fvsr_lookahead E cfg (sample_fixed s) n t = (Ret (samples, sample_fixed s'), t') /\
    traces (log s') = traces (log s) ++ samples /\
    same_generators s' t'.
Proof.
  intros Hmode Hcase Hrun HR. rewrite iteration_eq in Hrun.
  destruct (acquire E cfg s) as [[[] | e] s1] eqn:Hacq; [| discriminate].
  destruct (expected_ciphertext s1); [| discriminate].
  destruct (bool_decide _); [| discriminate]. injection Hrun as <-.
  apply acquire_inv in Hacq as (s2 & e & Htrig & Hq & _ & Hseg).
  destruct (batch_mode cfg) eqn:Hbatch.
  - destruct Htrig as (-> & _ & nb & ->).
    eapply segments_lookahead in Hseg as (new & t' & Hseq & Hlog & HR');
      [| assumption | assumption | exact HR].
    simpl in Hseq, Hlog. exists (Z.to_nat (num_segments cfg)), (traces new), t'.
    split; [exact Hseq | split; [| exact HR']].
    unfold bookkeeping. simpl. rewrite Hlog, <- !app_assoc, !traces_app.
    simpl. now rewrite app_nil_r.
  - destruct Hcase as [| Hns]; [discriminate |].
    rewrite Hmode in Htrig. simpl in Htrig. destruct Htrig as [Hsample ->].
    eapply next_sample_lookahead in Hsample as (c & t' & Hsample & Hc & HR' & Hq');
      [| assumption | exact HR].
    rewrite Hns in Hseg. simpl in Hseg.
    apply bind_inv_ret in Hseg as ([] & s3 & Hseg & Hret).
    apply ret_inv in Hret as [_ ->].
    apply segment_ret in Hseg as (s4 & w & c' & Hs4 & _ & _ & Hc' & _ & _ & ->).
    rewrite Hbatch, Hmode, not_random in *. simpl in Hs4. subst s4.
    simpl in Hc'. rewrite Hc in Hc'. injection Hc' as <-.
    exists 1%nat, [(text s2, c)], t'.
    split; [| split; [| exact HR']].
    + simpl. unfold bind at 1. simpl in Hsample. rewrite Hsample. reflexivity.
    + unfold bookkeeping. simpl. destruct Hq' as [Hlog _]. simpl in Hlog.
      rewrite Hlog, <- !app_assoc, !traces_app. reflexivity.
Qed.

(** So does the whole loop. *)
Lemma capture_loop_lookahead cfg :
  capture_mode cfg = "sha3_fvsr_data" ->
  batch_mode cfg = true \/ num_segments cfg = 1 ->
  forall fuel s s' t,
    capture_loop E fuel cfg s = (Ret tt, s') ->
    same_generators s t ->
    exists n samples t',
      fvsr_lookahead E cfg (sample_fixed s) n t
      = (Ret (samples, sample_fixed s'), t') /\
      traces (log s') = traces (log s) ++ samples /\
      same_generators s' t'.
Proof.
  intros Hmode Hcase. induction fuel as [| fuel IH]; intros s s' t Hrun HR;
    destruct (Z.lt_ge_cases 0 (remaining_num_traces s)) as [Hrem | Hrem];
    try (rewrite capture_loop_done in Hrun by assumption; injection Hrun as <-;
         exists 0%nat, [], t; rewrite app_nil_r;
         split; [reflexivity | split; [reflexivity | exact HR]]).
  - simpl in Hrun. unfold bind, get in Hrun.
    apply Z.ltb_lt in Hrem. now rewrite Hrem in Hrun.
  - rewrite capture_loop_step in Hrun by assumption.
    destruct (iteration E cfg s) as [[[] | e] s1] eqn:Hiter; [| discriminate].
    eapply iteration_lookahead in Hiter as (n1 & l1 & t1 & H1 & Hlog1 & HR1);
      [| assumption | assumption | exact HR].
    eapply IH in Hrun as (n2 & l2 & t2 & H2 & Hlog2 & HR2); [| exact HR1].
    exists (n1 + n2)%nat, (l1 ++ l2), t2.
    split; [| split; [| exact HR2]].
    + eapply lookahead_app; eassumption.
    + now rewrite Hlog2, Hlog1, app_assoc.
Qed.

(** The samples a capture stores are the sequence in which the first
    sample is generated under selector 0 and every other sample under
    the selector that the generation of the sample before it gave. *)
Lemma capture_lookahead (cfg : CaptureConfig) (s s' : state) :
  capture_mode cfg = "sha3_fvsr_data" ->
  batch_mode cfg = true \/ num_segments cfg = 1 ->
  capture E cfg s = (Ret tt, s') ->
  exists samples t,
    fvsr_lookahead E cfg 0 (length samples) s = (Ret (samples, sample_fixed s'), t) /\
    traces (log s') = traces (log s) ++ samples /\
    same_generators s' t.
Proof.
  intros Hmode Hcase Hrun. unfold capture, capture_with in Hrun.
  repeat (apply bind_inv_ret in Hrun as ([] & ? & ?Hinit & Hrun);
          apply modify_inv in Hinit; subst).
  apply bind_inv_ret in Hrun as ([] & s1 & Hmsg & Hrun).
  apply bind_inv_ret in Hrun as ([] & s2 & Hinit & Hrun).
  apply modify_inv in Hinit as ->.
  assert (dg s1 = dg s /\ rand_calls s1 = rand_calls s /\ sample_fixed s1 = 0 /\
          traces (log s1) = traces (log s)) as (Hdg & Hrc & Hsf & Hlog).
  { destruct (batch_mode cfg).
    - apply modify_inv in Hmsg as ->. simpl. rewrite traces_app. simpl.
      now rewrite app_nil_r.
    - now apply ret_inv in Hmsg as [_ ->]. }
  eapply (capture_loop_lookahead cfg Hmode Hcase _ _ _ s) in Hrun
    as (n & samples & t & Hseq & Hlog' & HR).
  - simpl in Hseq, Hlog'. rewrite Hsf in Hseq. rewrite Hlog in Hlog'.
    exists samples, t. rewrite (lookahead_length _ _ _ _ _ _ _ Hseq).
    now repeat split; try apply HR.
  - now split.
Qed.

(** In batch mode a sample is the fixed message or fresh bytes, as
    the selector says, with its digest, and the next selector the low
    bit of the first dummy byte. *)
Lemma generate_ref_crypto_batch_inv sf mode pt ptf tlb s t c f s1 :
  mode <> "sha3_random" ->
  generate_ref_crypto E sf mode true pt ptf tlb s = (Ret (t, c, f), s1) ->
  let len := Z.to_nat tlb in
  let q := if bool_decide (sf <> 0) then rand_calls s else (rand_calls s + len)%nat in
  t = (if bool_decide (sf <> 0) then ptf else map (draw E) (seq (rand_calls s) len)) /\
  c = SHA3_256_digest t /\
  f = Z.land (draw E q) 1 /\
  rand_calls s1 = (q + 16)%nat.
Proof.
  intros Hmode Hrun len q. subst len q. unfold generate_ref_crypto in Hrun.
  rewrite andb_false_r, bool_decide_eq_false_2 in Hrun by assumption.
  apply bind_inv_ret in Hrun as (p & s2 & Hp & Hrun).
  apply bind_inv_ret in Hrun as (dummy & s3 & Hdummy & Hrun).
  rewrite random_bytes_eq in Hdummy. injection Hdummy as <- <-.
  apply bind_inv_ret in Hrun as (data & s3 & Hdata & Hrun).
  apply bytes_inv in Hdata as (_ & -> & ->).
  apply bind_inv_ret in Hrun as (b & s3 & Hb & Hrun).
  change (seq (rand_calls s2) 16) with (rand_calls s2 :: seq (S (rand_calls s2)) 15) in Hb.
  cbn [map first_item] in Hb. apply ret_inv in Hb as [-> ->].
  apply ret_inv in Hrun as [[= Ht Hc Hf] ->].
  destruct (bool_decide (sf <> 0)).
  - apply ret_inv in Hp as [-> ->]. subst t c f. now repeat split.
  - rewrite random_bytes_eq in Hp. injection Hp as <- <-.
    subst t c f. now repeat split.
Qed.

(** In batch mode the samples generated one after the other are the
    sequence of the claim. *)
Lemma lookahead_sequence cfg :
  capture_mode cfg = "sha3_fvsr_data" -> batch_mode cfg = true ->
  forall n sel t samples last t',
    fvsr_lookahead E cfg sel n t = (Ret (samples, last), t') ->
    samples = fvsr_sequence E cfg sel (rand_calls t) n.
Proof.
  intros Hmode Hbatch.
  induction n as [| n IH]; intros sel t samples last t' Hrun; simpl in Hrun.
  - now apply ret_inv in Hrun as [[= -> ->] _].
  - apply bind_inv_ret in Hrun as ([[p c] f] & t1 & Hsample & Hrun).
    apply bind_inv_ret in Hrun as ([l' last'] & t2 & Hrest & Hrun).
    apply ret_inv in Hrun as [[= -> ->] _]. simpl fst.
    unfold fvsr_sample in Hsample. rewrite Hmode, Hbatch in Hsample.
    apply generate_ref_crypto_batch_inv in Hsample as (-> & -> & -> & Hrc);
      [| discriminate].
    apply IH in Hrest. rewrite Hrc in Hrest. subst l'. reflexivity.
Qed.

(** A capture of at least one trace that returns has stored one. *)
Lemma capture_stores cfg s s' :
  1 <= num_traces cfg ->
  capture E cfg s = (Ret tt, s') ->
  (length (traces (log s)) < length (traces (log s')))%nat.
Proof.
  intros Hnt Hrun. unfold capture, capture_with in Hrun.
  repeat (apply bind_inv_ret in Hrun as ([] & ? & ?Hinit & Hrun);
          apply modify_inv in Hinit; subst).
  apply bind_inv_ret in Hrun as ([] & s1 & Hmsg & Hrun).
  apply bind_inv_ret in Hrun as ([] & s2 & Hinit & Hrun).
  apply modify_inv in Hinit as ->.
  assert (traces (log s1) = traces (log s)) as Hlog.
  { destruct (batch_mode cfg).
    - apply modify_inv in Hmsg as ->. simpl. rewrite traces_app. simpl.
      now rewrite app_nil_r.
    - now apply ret_inv in Hmsg as [_ ->]. }
  assert (1 <= num_segments cfg) as Hns.
  { destruct (Z.to_nat (num_traces cfg)) as [| fuel] eqn:Hfuel; [lia |].
    rewrite capture_loop_step in Hrun by (simpl; lia).
    destruct (iteration E cfg _) as [[[] | e] s3] eqn:Hiter; [| discriminate].
    now apply iteration_ret in Hiter as (_ & _ & _ & _ & _ & _ & _ & Hns & _). }
  apply capture_loop_ret in Hrun as [_ Htraces]; [| assumption].
  simpl in Htraces. rewrite Hlog in Htraces.
  pose proof (ceil_div_pos (num_traces cfg) _ Hns ltac:(lia)). nia.
Qed.

End SelectorLookahead.

Section SelectorSequence.

Context (E : Env).


End SelectorSequence.

(** ** [sha3_random] mode: the text that is sent and hashed *)

Section Sha3Random.

Context (E : Env) `{DgSha3}.

Lemma only_text_app T l1 l2 :
  only_text T l1 -> only_text T l2 -> only_text T (l1 ++ l2).
Proof.
  intros [Ha1 Ht1] [Ha2 Ht2]. unfold only_text, absorbed.
  rewrite omap_app, traces_app. split; now apply Forall_app.
Qed.

Lemma next_sample_random cfg s s1 :
  capture_mode cfg = "sha3_random" ->
  next_sample E cfg s = (Ret tt, s1) ->
  s1 = set_sample_fixed (sample_fixed s)
         (set_ciphertext (Some (SHA3_256_digest (text s))) (set_text (text s) s)).
Proof.
  intros Hmode Hrun. apply next_sample_inv in Hrun as (t & c & f & s2 & Hgen & ->).
  unfold generate_ref_crypto in Hgen. rewrite Hmode in Hgen. simpl in Hgen.
  minv. match goal with Heq : (_, _, _) = _ |- _ => injection Heq as -> -> -> end.
  reflexivity.
Qed.

Lemma segments_random cfg waves n :
  capture_mode cfg = "sha3_random" -> batch_mode cfg = false ->
  forall i s s',
    for_range (segment E cfg waves) i n s = (Ret tt, s') ->
    text s' = text s /\
    exists new, log s' = log s ++ new /\ only_text (text s) new.
Proof.
  intros Hmode Hbatch. induction n as [| n IH]; intros i s s' Hrun; simpl in Hrun.
  - apply ret_inv in Hrun as [_ ->]. split; [reflexivity |].
    exists []. rewrite app_nil_r. repeat split; constructor.
  - apply bind_inv_ret in Hrun as ([] & s1 & Hseg & Hrun).
    apply segment_ret in Hseg as (s2 & w & c & Hs & _ & _ & Hc & _ & _ & ->).
    rewrite Hbatch, Hmode in *. simpl in Hs.
    apply next_sample_random in Hs as ->; [| assumption].
    simpl in Hc. injection Hc as <-.
    apply IH in Hrun as (Htext & new & Hlog & Hnew). simpl in *.
    split; [assumption |].
    exists (AppendTrace w (text s) (SHA3_256_digest (text s)) :: new). split.
    + now rewrite Hlog, <- app_assoc.
    + change (AppendTrace ?a ?b ?c :: new) with ([AppendTrace a b c] ++ new).
      apply only_text_app; [| assumption].
      split; repeat constructor.
Qed.

Lemma iteration_random cfg s s' :
  capture_mode cfg = "sha3_random" -> batch_mode cfg = false ->
  iteration E cfg s = (Ret tt, s') ->
  text s' = text s /\
  exists new, log s' = log s ++ new /\ only_text (text s) new.
Proof.
  intros Hmode Hbatch Hrun. rewrite iteration_eq in Hrun.
  destruct (acquire E cfg s) as [[[] | e] s1] eqn:Hacq; [| discriminate].
  destruct (expected_ciphertext s1); [| discriminate].
  destruct (bool_decide _); [| discriminate]. injection Hrun as <-.
  apply acquire_inv in Hacq as (s2 & e & Htrig & _ & _ & Hseg).
  rewrite Hbatch, Hmode in Htrig. simpl in Htrig. destruct Htrig as [-> ->].
  apply (segments_random cfg _ _ Hmode Hbatch) in Hseg as (Htext & new & Hlog & Hnew).
  simpl in *. split; [assumption |].
  exists ([Arm; Absorb (text s); CaptureAndTransferWaves] ++ new
          ++ [ReadCiphertext (output_len cfg); OptimizeCapture (num_segments_storage s1);
              PbarUpdate (num_segments cfg)]).
  split.
  - rewrite Hlog, <- !app_assoc. reflexivity.
  - apply only_text_app; [split; repeat constructor |].
    apply only_text_app; [assumption | split; constructor].
Qed.

Lemma capture_loop_random cfg :
  capture_mode cfg = "sha3_random" -> batch_mode cfg = false ->
  forall fuel s s',
    capture_loop E fuel cfg s = (Ret tt, s') ->
    text s' = text s /\
    exists new, log s' = log s ++ new /\ only_text (text s) new.
Proof.
  intros Hmode Hbatch. induction fuel as [| fuel IH]; intros s s' Hrun;
    destruct (Z.lt_ge_cases 0 (remaining_num_traces s)) as [Hrem | Hrem];
    try (rewrite capture_loop_done in Hrun by assumption; injection Hrun as <-;
         split; [reflexivity |]; exists []; rewrite app_nil_r;
         repeat split; constructor).
  - simpl in Hrun. unfold bind, get in Hrun.
    apply Z.ltb_lt in Hrem. now rewrite Hrem in Hrun.
  - rewrite capture_loop_step in Hrun by assumption.
    destruct (iteration E cfg s) as [[[] | e] s1] eqn:Hiter; [| discriminate].
    apply iteration_random in Hiter as (Ht1 & l1 & Hlog1 & Hl1); try assumption.
    apply IH in Hrun as (Ht2 & l2 & Hlog2 & Hl2). rewrite Ht1 in *.
    split; [assumption |]. exists (l1 ++ l2). split.
    + now rewrite Hlog2, Hlog1, app_assoc.
    + now apply only_text_app.
Qed.

(** What the code does in [sha3_random] mode without batches: the
    text never changes.  Every plaintext sent to the device and stored
    is the configured fixed text, and every digest is that of the
    fixed text; the bytes drawn at each pass go to a variable that is
    not read. *)
Lemma sha3_random_text_is_fixed (cfg : CaptureConfig) (s s' : state) :
  capture_mode cfg = "sha3_random" -> batch_mode cfg = false ->
  capture E cfg s = (Ret tt, s') ->
  text s' = text_fixed cfg /\
  exists new, log s' = log s ++ new /\ only_text (text_fixed cfg) new.
Proof.
  intros Hmode Hbatch Hrun. unfold capture, capture_with in Hrun.
  rewrite Hbatch in Hrun.
  repeat (apply bind_inv_ret in Hrun as ([] & ? & ?Hinit & Hrun);
          first [apply modify_inv in Hinit | apply ret_inv in Hinit as [_ Hinit]];
          subst).
  now apply (capture_loop_random cfg Hmode Hbatch) in Hrun.
Qed.

End Sha3Random.

(** ** The properties on the test bench *)

Section OnTheBench.

Import Bench.

#[local] Existing Instance dg_sha3.

(** The three segments of the first batch: a random sample, then a
    fixed one, then a random one. *)
Lemma batch_expected_value_witness :
  let E := honest 3 cfg_batch start in
  let s1 := snd (acquire E cfg_batch start) in
  (batch_mode cfg_batch = true /\ 0 <= output_len cfg_batch /\
   acquire E cfg_batch start = (Ret tt, s1)) /\
  map fst (traces (log s1)) =
    [map (draw E) (seq 0 16); fixed_text; map (draw E) (seq 48 16)] /\
  expected_ciphertext s1 = Some (xor_all 32 (digests (log s1))) /\
  fst (check_ciphertext E (expected_ciphertext s1) (output_len cfg_batch) s1) = Ret tt.
Proof.
  intros E s1.
  assert (batch_mode cfg_batch = true) as Hbatch by reflexivity.
  assert (0 <= output_len cfg_batch) as Hlen by (vm_compute; discriminate).
  assert (acquire E cfg_batch start = (Ret tt, s1)) as Hrun
    by (vm_compute; reflexivity).
  split; [split; [exact Hbatch | split; [exact Hlen | exact Hrun]] |].
  split; [vm_compute; reflexivity |].
  split; [| vm_compute; reflexivity].
  destruct (batch_expected_value E cfg_batch start s1 Hbatch Hlen Hrun)
    as (_ & _ & e & new & Hlog & _ & _ & Hxor & _).
  assert (digests (log s1) = digests new) as Hnew.
  { rewrite Hlog. unfold digests. rewrite !traces_app. simpl.
    apply acquire_ret in Hrun as (e' & new' & Hlog' & He & _).
    rewrite Hlog in Hlog'. apply app_inv_head in Hlog'. injection Hlog' as -> _.
    now destruct e'. }
  rewrite Hnew. apply Hxor. vm_compute. discriminate.
Defined.

(** A sample under a set selector. *)
Lemma fvsr_batch_sample_witness :
  ("sha3_fvsr_data" <> "sha3_random" /\ forallb is_byte fixed_text = true) /\
  generate_ref_crypto (silent 3) 1 "sha3_fvsr_data" true [] fixed_text 16 start =
  (Ret (fixed_text, SHA3_256_digest fixed_text, Z.land (draw (silent 3) 0) 1),
   set_rand_calls 16 start).
Proof.
  assert ("sha3_fvsr_data" <> "sha3_random") as Hmode by discriminate.
  assert (forallb is_byte fixed_text = true) as Hfixed by reflexivity.
  split; [now split |].
  exact (fvsr_batch_sample (silent 3) 1 "sha3_fvsr_data" [] fixed_text 16 start
                           Hmode Hfixed).
Defined.

(** An FVSR capture without batches: it ends in its first pass. *)
Lemma fvsr_cycle_raises_witness :
  let E := silent 1 in
  let s0 := set_remaining_num_traces (num_traces cfg_fvsr)
              (set_num_segments_storage 1
                 (set_sample_fixed 0 (set_text (text_fixed cfg_fvsr) start))) in
  (capture_mode cfg_fvsr = "sha3_fvsr_data" /\ batch_mode cfg_fvsr = false /\
   1 <= num_traces cfg_fvsr) /\
  capture E cfg_fvsr start = (Raise AttributeError, set_log [Arm] s0) /\
  absorbed (log (snd (capture E cfg_fvsr start))) = [] /\
  traces (log (snd (capture E cfg_fvsr start))) = [].
Proof.
  intros E s0.
  assert (1 <= num_traces cfg_fvsr) as Hnt by (change (num_traces cfg_fvsr) with 3; lia).
  split; [splits; [reflexivity | reflexivity | exact Hnt] |].
  destruct (fvsr_cycle_raises E cfg_fvsr 2 start eq_refl eq_refl Hnt)
    as (_ & Hrun & Habs & Htr).
  splits; [exact Hrun | exact Habs | exact Htr].
Defined.

(** A check that passes: the loop goes on with the second batch. *)
Lemma digest_check_witness :
  let E := honest 3 cfg_batch start in
  let s := set_remaining_num_traces 5 start in
  let s1 := snd (acquire E cfg_batch s) in
  let e := xor_all 32 (digests (log s1)) in
  (0 < remaining_num_traces s /\ acquire E cfg_batch s = (Ret tt, s1) /\
   expected_ciphertext s1 = Some e) /\
  capture_loop E 2 cfg_batch s = capture_loop E 1 cfg_batch (bookkeeping E cfg_batch s1) /\
  remaining_num_traces (bookkeeping E cfg_batch s1) = 2.
Proof.
  intros E s s1 e.
  assert (0 < remaining_num_traces s) as Hrem by reflexivity.
  assert (acquire E cfg_batch s = (Ret tt, s1)) as Hrun by (vm_compute; reflexivity).
  assert (expected_ciphertext s1 = Some e) as Hexp by (vm_compute; reflexivity).
  split; [splits; [exact Hrem | exact Hrun | exact Hexp] |].
  destruct (digest_check E cfg_batch 1 s s1 e Hrem Hrun Hexp)
    as (_ & _ & _ & _ & Hmatch).
  apply Hmatch. vm_compute. reflexivity.
Defined.

(** A check that fails: the device stays silent, and the capture ends
    with the first read. *)
Example silent_device_ends_capture :
  let E := silent 3 in
  let s := set_remaining_num_traces 5 start in
  let s1 := snd (acquire E cfg_batch s) in
  capture_loop E 2 cfg_batch s =
  (Raise AssertionError, set_log (log s1 ++ [ReadCiphertext 32]) s1).
Proof. vm_compute. reflexivity. Qed.

(** A batch of one segment and a [sha3_random] pass over the plaintext
    of that segment. *)
Lemma single_segment_batch_witness :
  let E := honest 1 cfg_batch_single start in
  let s1 := snd (acquire E cfg_batch_single start) in
  let t := set_text (text s1) start in
  let t1 := snd (acquire E cfg_random t) in
  (batch_mode cfg_batch_single = true /\ num_segments cfg_batch_single = 1 /\
   batch_mode cfg_random = false /\ capture_mode cfg_random = "sha3_random" /\
   num_segments cfg_random = 1 /\
   acquire E cfg_batch_single start = (Ret tt, s1) /\
   acquire E cfg_random t = (Ret tt, t1) /\
   text s1 = text t1) /\
  expected_ciphertext s1 = Some (SHA3_256_digest (text s1)) /\
  expected_ciphertext s1 = expected_ciphertext t1.
Proof.
  intros E s1 t t1.
  assert (acquire E cfg_batch_single start = (Ret tt, s1)) as Hrun
    by (vm_compute; reflexivity).
  assert (acquire E cfg_random t = (Ret tt, t1)) as Hrun'
    by (vm_compute; reflexivity).
  assert (text s1 = text t1) as Htext by (vm_compute; reflexivity).
  split; [splits; [reflexivity | reflexivity | reflexivity | reflexivity | reflexivity
                  | exact Hrun | exact Hrun' | exact Htext] |].
  destruct (single_segment_batch E E cfg_batch_single cfg_random start s1 t t1
              eq_refl eq_refl eq_refl eq_refl eq_refl Hrun Hrun' Htext)
    as (_ & Hexp & Hsame & _).
  split; [exact Hexp | exact Hsame].
Defined.




(** C2 fails on the code: in [sha3_random] mode the second pass sends
    and hashes the plaintext of the first pass again, the configured
    fixed text; the 16 bytes drawn at the end of each pass are left in
    a variable that nothing reads. *)
Lemma sha3_random_repeats_plaintext :
  let E := honest 1 cfg_random start in
  let run := capture E cfg_random start in
  fst run = Ret tt /\
  absorbed (log (snd run)) = [fixed_text; fixed_text] /\
  traces (log (snd run)) = [(fixed_text, SHA3_256_digest fixed_text);
                            (fixed_text, SHA3_256_digest fixed_text)] /\
  plaintext (snd run) = Some (map (draw E) (seq 16 16)) /\
  rand_calls (snd run) = 32%nat /\
  map (draw E) (seq 16 16) <> fixed_text.
Proof.
  intros E run. splits; try (vm_compute; reflexivity).
  vm_compute. discriminate.
Qed.

End OnTheBench.

(** ** The block cipher: lengths and byte ranges *)

Section Bytes.

Lemma is_byte_range x : is_byte x = true <-> 0 <= x < 256.
Proof.
  unfold is_byte. rewrite andb_true_iff, Z.leb_le, Z.ltb_lt. reflexivity.
Qed.

Lemma is_byte_lxor a b :
  is_byte a = true -> is_byte b = true -> is_byte (Z.lxor a b) = true.
Proof.
  rewrite !is_byte_range. intros [Ha Ha'] [Hb Hb'].
  assert (0 <= Z.lxor a b) as Hnn by now apply Z.lxor_nonneg.
  split; [assumption |].
  destruct (Z.eq_dec (Z.lxor a b) 0) as [-> | Hnz]; [lia |].
  change 256 with (2 ^ 8). apply Z.log2_lt_pow2; [lia |].
  pose proof (Z.log2_lxor a b Ha Hb) as Hlog.
  assert (Z.log2 a < 8) as Hla.
  { destruct (Z.eq_dec a 0) as [-> | ?]; [reflexivity |].
    apply Z.log2_lt_pow2; lia. }
  assert (Z.log2 b < 8) as Hlb.
  { destruct (Z.eq_dec b 0) as [-> | ?]; [reflexivity |].
    apply Z.log2_lt_pow2; lia. }
  lia.
Qed.

(** A property checked on the 256 bytes holds of every byte. *)
Lemma byte_cases (P : Z -> bool) :
  forallb P (map Z.of_nat (seq 0 256)) = true ->
  forall x, is_byte x = true -> P x = true.
Proof.
  intros Hall x Hx. apply is_byte_range in Hx.
  rewrite forallb_forall in Hall. apply Hall.
  apply in_map_iff. exists (Z.to_nat x). split; [lia |].
  apply in_seq. lia.
Qed.

Lemma forallb_nth (P : Z -> bool) l n d :
  forallb P l = true -> P d = true -> P (nth n l d) = true.
Proof.
  intros Hl Hd. destruct (nth_in_or_default n l d) as [Hin | ->]; [| assumption].
  rewrite forallb_forall in Hl. now apply Hl.
Qed.

Lemma forallb_zip_with_lxor a b :
  forallb is_byte a = true -> forallb is_byte b = true ->
  forallb is_byte (zip_with Z.lxor a b) = true.
Proof.
  revert b. induction a as [| x a IH]; intros [| y b] Ha Hb; try reflexivity.
  simpl in *. apply andb_true_iff in Ha as [Hx Ha], Hb as [Hy Hb].
  apply andb_true_iff. split; [now apply is_byte_lxor | now apply IH].
Qed.

Lemma forallb_map_seq (f : nat -> Z) start n :
  (forall i, is_byte (f i) = true) -> forallb is_byte (map f (seq start n)) = true.
Proof.
  intros Hf. apply forallb_forall. intros x Hx.
  apply in_map_iff in Hx as (i & <- & _). apply Hf.
Qed.

Lemma forallb_take n l : forallb is_byte l = true -> forallb is_byte (take n l) = true.
Proof.
  rewrite !forallb_forall. intros Hl x Hx. apply Hl.
  rewrite <- (firstn_skipn n l). apply in_or_app. now left.
Qed.

Lemma forallb_drop n l : forallb is_byte l = true -> forallb is_byte (drop n l) = true.
Proof.
  rewrite !forallb_forall. intros Hl x Hx. apply Hl.
  rewrite <- (firstn_skipn n l). apply in_or_app. now right.
Qed.

End Bytes.

Section AESLemmas.

Import AES.

Lemma sbox_is_byte x : is_byte (sbox x) = true.
Proof. unfold sbox. apply forallb_nth; [vm_compute |]; reflexivity. Qed.

Lemma xtime_is_byte x : is_byte x = true -> is_byte (xtime x) = true.
Proof. apply (byte_cases (fun x => is_byte (xtime x))). vm_compute. reflexivity. Qed.

Lemma gmul2_is_byte x : is_byte x = true -> is_byte (gmul 2 x) = true.
Proof. apply (byte_cases (fun x => is_byte (gmul 2 x))). vm_compute. reflexivity. Qed.

Lemma gmul3_is_byte x : is_byte x = true -> is_byte (gmul 3 x) = true.
Proof. apply (byte_cases (fun x => is_byte (gmul 3 x))). vm_compute. reflexivity. Qed.

Lemma rcon_bytes j : forallb is_byte (rcon j) = true.
Proof.
  unfold rcon. simpl. rewrite andb_true_r.
  induction (j - 1)%nat as [| n IH]; [reflexivity |].
  simpl. now apply xtime_is_byte.
Qed.

Lemma xor_bytes_bytes a b :
  forallb is_byte a = true -> forallb is_byte b = true ->
  forallb is_byte (xor_bytes a b) = true.
Proof. apply forallb_zip_with_lxor. Qed.

Lemma sub_bytes_bytes s : forallb is_byte (sub_bytes s) = true.
Proof.
  apply forallb_forall. intros x Hx. apply in_map_iff in Hx as (y & <- & _).
  apply sbox_is_byte.
Qed.

Lemma shift_rows_bytes s :
  forallb is_byte s = true -> forallb is_byte (shift_rows s) = true.
Proof. intros Hs. apply forallb_map_seq. intros i. now apply forallb_nth. Qed.

Lemma mix_columns_bytes s :
  forallb is_byte s = true -> forallb is_byte (mix_columns s) = true.
Proof.
  intros Hs. apply forallb_map_seq. intros i. simpl.
  assert (forall n, is_byte (nth n s 0) = true) as Hn
    by (intros n; now apply forallb_nth).
  rewrite Z.lxor_0_r.
  repeat apply is_byte_lxor; auto using gmul2_is_byte, gmul3_is_byte.
Qed.

Lemma round_key_bytes W r :
  forallb is_byte W = true -> forallb is_byte (round_key W r) = true.
Proof. intros HW. now apply forallb_take, forallb_drop. Qed.

Lemma shift_rows_length s : length (shift_rows s) = 16%nat.
Proof. unfold shift_rows. now rewrite length_map, length_seq. Qed.

Lemma rot_word_length w : length (rot_word w) = length w.
Proof.
  unfold rot_word. rewrite length_app, length_drop, length_take.
  destruct w; simpl; lia.
Qed.

(** One step of the key schedule keeps the bytes in range and adds a
    word, as long as the words it looks back at are there. *)
Lemma key_expansion_invariant Nk (step : list Z -> nat -> list Z) :
  (1 <= Nk)%nat ->
  (forall W i, step W i =
     let prev := take 4 (drop (4 * (i - 1)) W) in
     let temp :=
       if (i mod Nk =? 0)%nat
       then xor_bytes (sub_word (rot_word prev)) (rcon (i / Nk))
       else if ((6 <? Nk) && (i mod Nk =? 4))%nat
            then sub_word prev else prev in
     W ++ xor_bytes (take 4 (drop (4 * (i - Nk)) W)) temp) ->
  forall m start W,
    (Nk <= start)%nat -> length W = (4 * start)%nat -> forallb is_byte W = true ->
    length (fold_left step (seq start m) W) = (4 * (start + m))%nat /\
    forallb is_byte (fold_left step (seq start m) W) = true.
Proof.
  intros HNk Hstep. induction m as [| m IH]; intros start W Hstart Hlen HW.
  - simpl. split; [lia | assumption].
  - simpl. rewrite Hstep. cbv zeta.
    set (prev := take 4 (drop (4 * (start - 1)) W)).
    set (temp := if (start mod Nk =? 0)%nat then _ else _).
    set (back := take 4 (drop (4 * (start - Nk)) W)).
    assert (length prev = 4%nat) as Hprev
      by (unfold prev; rewrite length_take, length_drop; lia).
    assert (forallb is_byte prev = true) as Hprevb
      by (unfold prev; now apply forallb_take, forallb_drop).
    assert (length back = 4%nat) as Hback
      by (unfold back; rewrite length_take, length_drop; lia).
    assert (forallb is_byte back = true) as Hbackb
      by (unfold back; now apply forallb_take, forallb_drop).
    assert (length temp = 4%nat /\ forallb is_byte temp = true) as [Htemp Htempb].
    { unfold temp. destruct (start mod Nk =? 0)%nat.
      - split.
        + unfold xor_bytes, sub_word. rewrite length_zip_with, length_map, rot_word_length.
          simpl. lia.
        + apply xor_bytes_bytes; [apply sub_bytes_bytes | apply rcon_bytes].
      - destruct ((6 <? Nk) && (start mod Nk =? 4))%nat.
        + split; [unfold sub_word; now rewrite length_map | apply sub_bytes_bytes].
        + now split. }
    destruct (IH (S start) (W ++ xor_bytes back temp)) as [Hl Hb].
    + lia.
    + unfold xor_bytes. rewrite length_app, length_zip_with. lia.
    + rewrite forallb_app, HW. now apply xor_bytes_bytes.
    + split; [rewrite Hl; lia | assumption].
Qed.

Lemma key_expansion_spec key :
  (4 <= length key)%nat -> (length key mod 4 = 0)%nat ->
  forallb is_byte key = true ->
  length (key_expansion key) = (16 * (length key / 4 + 7))%nat /\
  forallb is_byte (key_expansion key) = true.
Proof.
  intros Hlen Hmod Hkey. unfold key_expansion.
  set (Nk := (length key / 4)%nat).
  assert (length key = (4 * Nk)%nat) as HNk.
  { unfold Nk. pose proof (Nat.div_mod_eq (length key) 4). lia. }
  edestruct (key_expansion_invariant Nk) as [Hl Hb];
    [| intros W i; reflexivity | reflexivity | exact HNk | exact Hkey |].
  - lia.
  - split; [rewrite Hl; lia | exact Hb].
Qed.

(** Encrypting a block gives 16 bytes. *)
Lemma encrypt_block_spec key blk :
  (4 <= length key)%nat -> (length key mod 4 = 0)%nat ->
  forallb is_byte key = true -> forallb is_byte blk = true ->
  length (encrypt_block key blk) = 16%nat /\
  forallb is_byte (encrypt_block key blk) = true.
Proof.
  intros Hlen Hmod Hkey Hblk. unfold encrypt_block. cbv zeta.
  destruct (key_expansion_spec key Hlen Hmod Hkey) as [HWl HWb].
  set (W := key_expansion key) in *.
  set (s := fold_left _ _ _).
  split.
  - unfold xor_bytes. rewrite length_zip_with, shift_rows_length.
    unfold round_key. rewrite length_take, length_drop, HWl. lia.
  - apply xor_bytes_bytes; [| now apply round_key_bytes].
    apply shift_rows_bytes, sub_bytes_bytes.
Qed.

Lemma ecb_encrypt_spec key data :
  (4 <= length key)%nat -> (length key mod 4 = 0)%nat ->
  forallb is_byte key = true -> forallb is_byte data = true ->
  (length data mod 16 = 0)%nat ->
  length (ecb_encrypt key data) = length data /\
  forallb is_byte (ecb_encrypt key data) = true.
Proof.
  intros Hlen Hmod Hkey Hdata Hblocks. unfold ecb_encrypt.
  assert (forall k, length (encrypt_block key (take 16 (drop (16 * k) data))) = 16%nat /\
                    forallb is_byte (encrypt_block key (take 16 (drop (16 * k) data))) = true)
    as Hblk.
  { intros k. apply encrypt_block_spec; try assumption.
    now apply forallb_take, forallb_drop. }
  assert (forall n start,
             length (flat_map (fun k => encrypt_block key (take 16 (drop (16 * k) data)))
                              (seq start n)) = (16 * n)%nat /\
             forallb is_byte
               (flat_map (fun k => encrypt_block key (take 16 (drop (16 * k) data)))
                         (seq start n)) = true) as Hall.
  { induction n as [| n IH]; intros start; [now split |].
    change (seq start (S n)) with (start :: seq (S start) n). cbn [flat_map].
    destruct (IH (S start)) as [Hl Hb], (Hblk start) as [Hl' Hb'].
    rewrite length_app, forallb_app, Hl, Hl', Hb, Hb'. split; [lia | reflexivity]. }
  destruct (Hall (length data / 16)%nat 0%nat) as [Hl Hb]. split; [| exact Hb].
  rewrite Hl. pose proof (Nat.div_mod_eq (length data) 16). lia.
Qed.

End AESLemmas.

(** ** The data generator in working order *)

Section GeneratorWorking.

Import DataGenerator DataGeneratorSpec GeneratorSpec.

Lemma getattr_eq self name w r :
  fst (getattr self name w) = r -> getattr self name w = (r, w).
Proof.
  intros <-. rewrite <- (getattr_state self name w) at 3.
  now destruct (getattr self name w).
Qed.

Lemma bytes_ok {St} l (s : St) : forallb is_byte l = true -> bytes l s = (Ret l, s).
Proof. intros Hl. unfold bytes. now rewrite Hl. Qed.

Lemma AES_new_ok {St} key (s : St) :
  length key = 16%nat -> AES_new key s = (Ret (PyAES key), s).
Proof.
  intros Hlen. unfold AES_new. rewrite Hlen.
  now rewrite bool_decide_eq_true_2 by (apply list_elem_of_here).
Qed.

Lemma encrypt_ok {St} key data (s : St) :
  length data = 16%nat -> encrypt (PyAES key) data s = (Ret (AES.ecb_encrypt key data), s).
Proof. intros Hlen. unfold encrypt. now rewrite Hlen. Qed.

Lemma KMAC128_digest_ok {St} key data (s : St) :
  length key = 16%nat -> KMAC128_digest key data s = (Ret (KMAC.kmac128 key data 32), s).
Proof. intros Hlen. unfold KMAC128_digest. now rewrite Hlen. Qed.

Lemma kmac128_spec key data n :
  length (KMAC.kmac128 key data n) = n /\ forallb is_byte (KMAC.kmac128 key data n) = true.
Proof.
  unfold KMAC.kmac128, Keccak.sponge. split.
  - now rewrite length_map, length_seq.
  - apply forallb_map_seq. intros i. unfold Keccak.state_byte.
    apply is_byte_range. change 0xFF with (Z.ones 8). rewrite Z.land_ones by lia.
    apply Z.mod_pos_bound. reflexivity.
Qed.

Lemma block_encrypt_spec k b :
  length k = 16%nat -> forallb is_byte k = true ->
  length b = 16%nat -> forallb is_byte b = true ->
  length (AES.ecb_encrypt k b) = 16%nat /\ forallb is_byte (AES.ecb_encrypt k b) = true.
Proof.
  intros Hk Hkb Hlen Hb.
  destruct (ecb_encrypt_spec k b) as [Hl Hr]; try assumption;
    try (rewrite ?Hk, ?Hlen; reflexivity || lia).
  rewrite Hl. now split.
Qed.

Lemma next_block_spec b :
  length b = 16%nat -> forallb is_byte b = true ->
  length (next_block b) = 16%nat /\ forallb is_byte (next_block b) = true.
Proof. now apply block_encrypt_spec. Qed.

Lemma setattr_exists self n v w i :
  is_Some (instances (snd (setattr self n v w)) !! i) <-> is_Some (instances w !! i).
Proof.
  unfold setattr, modify. simpl.
  destruct (decide (self = i)) as [-> | Hne].
  - rewrite list_lookup_alter_eq. apply fmap_is_Some.
  - now rewrite list_lookup_alter_ne.
Qed.

Lemma getattr_after_setattr self n v name w r :
  is_Some (instances w !! self) ->
  (if decide (n = name) then r = Ret v else getattr self name w = (r, w)) ->
  getattr self name (snd (setattr self n v w)) = (r, snd (setattr self n v w)).
Proof.
  intros [d Hd] Hr. apply getattr_eq. rewrite getattr_setattr, Hd.
  destruct (decide (n = name)); [now subst | now rewrite Hr].
Qed.

Lemma holds_block_setattr self n b name w b' :
  is_Some (instances w !! self) ->
  (if decide (n = name)
   then b' = b /\ length b = 16%nat /\ forallb is_byte b = true
   else holds_block self name w b') ->
  holds_block self name (snd (setattr self n (PyBytes b) w)) b'.
Proof.
  intros Hex Hcase. unfold holds_block.
  destruct (decide (n = name)) as [Heq | Hne].
  - destruct Hcase as (-> & Hl & Hb). split; [| now split].
    apply getattr_after_setattr; [assumption |]. now rewrite decide_True.
  - destruct Hcase as (Hg & Hl & Hb). split; [| now split].
    apply getattr_after_setattr; [assumption |]. now rewrite decide_False.
Qed.

(** Assigning a block to a register leaves the generator in working
    order. *)
Lemma working_setattr self n b w :
  working self w ->
  n ∈ ["text_fixed"; "text_random"; "key_fixed"; "key_random"] ->
  length b = 16%nat -> forallb is_byte b = true ->
  working self (snd (setattr self n (PyBytes b) w)).
Proof.
  intros (Hex & Hregs & Hgen) Hn Hl Hb. split; [| split].
  - now apply setattr_exists.
  - intros name Hname. destruct (decide (n = name)) as [Heq | Hne].
    + exists b. apply holds_block_setattr; [assumption |]. now rewrite decide_True.
    + destruct (Hregs name Hname) as [b' Hb']. exists b'.
      apply holds_block_setattr; [assumption |]. now rewrite decide_False.
  - apply getattr_after_setattr; [assumption |].
    rewrite decide_False; [assumption |]. intros ->.
    apply list_elem_of_In in Hn. simpl in Hn. intuition discriminate.
Qed.

Lemma reencrypt_spec self name w b :
  getattr self "cipher_gen" w = (Ret (PyAES key_generation), w) ->
  holds_block self name w b ->
  reencrypt self name w =
  (Ret tt, snd (setattr self name (PyBytes (next_block b)) w)).
Proof.
  intros Hgen (Hget & Hl & Hb). unfold reencrypt.
  rewrite (bind_ret _ _ _ _ _ Hgen), (bind_ret _ _ _ _ _ Hget).
  simpl bytes_of. rewrite (bind_ret _ _ _ _ _ (bytes_ok b w Hb)).
  rewrite (bind_ret _ _ _ _ _ (encrypt_ok key_generation b w Hl)).
  reflexivity.
Qed.

Lemma get_fixed_spec self w t k :
  working self w ->
  holds_block self "text_fixed" w t -> holds_block self "key_fixed" w k ->
  get_fixed self w =
  (Ret (PyBytes t, PyBytes (AES.ecb_encrypt k t), PyBytes k),
   snd (setattr self "text_fixed" (PyBytes (next_block t)) w)).
Proof.
  intros (_ & _ & Hgen) Ht Hk. assert (Ht' := Ht). assert (Hk' := Hk).
  destruct Ht' as (Hgt & Hlt & Hbt), Hk' as (Hgk & Hlk & Hbk).
  unfold get_fixed.
  rewrite (bind_ret _ _ _ _ _ Hgt), (bind_ret _ _ _ _ _ Hgk), (bind_ret _ _ _ _ _ Hgk).
  simpl bytes_of. rewrite (bind_ret _ _ _ _ _ (bytes_ok k w Hbk)).
  rewrite (bind_ret _ _ _ _ _ (AES_new_ok k w Hlk)), (bind_ret _ _ _ _ _ Hgt).
  simpl bytes_of. rewrite (bind_ret _ _ _ _ _ (bytes_ok t w Hbt)).
  rewrite (bind_ret _ _ _ _ _ (encrypt_ok k t w Hlt)).
  unfold advance_fixed. rewrite (bind_ret _ _ _ _ _ (reencrypt_spec self _ w t Hgen Ht)).
  reflexivity.
Qed.

Lemma get_kmac_fixed_spec self w t k :
  working self w ->
  holds_block self "text_fixed" w t -> holds_block self "key_fixed" w k ->
  get_kmac_fixed self w =
  (Ret (PyBytes t, PyBytes (KMAC.kmac128 k t 32), PyBytes k),
   snd (setattr self "text_fixed" (PyBytes (next_block t)) w)).
Proof.
  intros (_ & _ & Hgen) Ht Hk. assert (Ht' := Ht). assert (Hk' := Hk).
  destruct Ht' as (Hgt & Hlt & Hbt), Hk' as (Hgk & Hlk & Hbk).
  unfold get_kmac_fixed.
  rewrite (bind_ret _ _ _ _ _ Hgt), (bind_ret _ _ _ _ _ Hgk), (bind_ret _ _ _ _ _ Hgk).
  simpl bytes_of. rewrite (bind_ret _ _ _ _ _ (bytes_ok k w Hbk)).
  rewrite (bind_ret _ _ _ _ _ Hgt).
  simpl bytes_of. rewrite (bind_ret _ _ _ _ _ (bytes_ok t w Hbt)).
  rewrite (bind_ret _ _ _ _ _ (KMAC128_digest_ok k t w Hlk)).
  unfold advance_fixed. rewrite (bind_ret _ _ _ _ _ (reencrypt_spec self _ w t Hgen Ht)).
  reflexivity.
Qed.

(** Both random registers move on. *)
Lemma advance_random_spec self w t k :
  working self w ->
  holds_block self "text_random" w t -> holds_block self "key_random" w k ->
  advance_random self w =
  (Ret tt, snd (setattr self "key_random" (PyBytes (next_block k))
                  (snd (setattr self "text_random" (PyBytes (next_block t)) w)))).
Proof.
  intros (Hex & _ & Hgen) Ht Hk. unfold advance_random.
  rewrite (bind_ret _ _ _ _ _ (reencrypt_spec self _ w t Hgen Ht)).
  apply reencrypt_spec.
  - apply getattr_after_setattr; [assumption |]. now rewrite decide_False.
  - apply holds_block_setattr; [assumption |]. now rewrite decide_False.
Qed.

Lemma get_random_spec self w t k :
  working self w ->
  holds_block self "text_random" w t -> holds_block self "key_random" w k ->
  get_random self w =
  (Ret (PyBytes t, PyBytes (AES.ecb_encrypt k t), PyBytes k),
   snd (setattr self "key_random" (PyBytes (next_block k))
          (snd (setattr self "text_random" (PyBytes (next_block t)) w)))).
Proof.
  intros Hw Ht Hk. assert (Ht' := Ht). assert (Hk' := Hk).
  destruct Ht' as (Hgt & Hlt & Hbt), Hk' as (Hgk & Hlk & Hbk).
  unfold get_random.
  rewrite (bind_ret _ _ _ _ _ Hgt), (bind_ret _ _ _ _ _ Hgk), (bind_ret _ _ _ _ _ Hgk).
  simpl bytes_of. rewrite (bind_ret _ _ _ _ _ (bytes_ok k w Hbk)).
  rewrite (bind_ret _ _ _ _ _ (AES_new_ok k w Hlk)), (bind_ret _ _ _ _ _ Hgt).
  simpl bytes_of. rewrite (bind_ret _ _ _ _ _ (bytes_ok t w Hbt)).
  rewrite (bind_ret _ _ _ _ _ (encrypt_ok k t w Hlt)).
  rewrite (bind_ret _ _ _ _ _ (advance_random_spec self w t k Hw Ht Hk)).
  reflexivity.
Qed.

Lemma get_kmac_random_spec self w t k :
  working self w ->
  holds_block self "text_random" w t -> holds_block self "key_random" w k ->
  get_kmac_random self w =
  (Ret (PyBytes t, PyBytes (KMAC.kmac128 k t 32), PyBytes k),
   snd (setattr self "key_random" (PyBytes (next_block k))
          (snd (setattr self "text_random" (PyBytes (next_block t)) w)))).
Proof.
  intros Hw Ht Hk. assert (Ht' := Ht). assert (Hk' := Hk).
  destruct Ht' as (Hgt & Hlt & Hbt), Hk' as (Hgk & Hlk & Hbk).
  unfold get_kmac_random.
  rewrite (bind_ret _ _ _ _ _ Hgt), (bind_ret _ _ _ _ _ Hgk), (bind_ret _ _ _ _ _ Hgk).
  simpl bytes_of. rewrite (bind_ret _ _ _ _ _ (bytes_ok k w Hbk)).
  rewrite (bind_ret _ _ _ _ _ Hgt).
  simpl bytes_of. rewrite (bind_ret _ _ _ _ _ (bytes_ok t w Hbt)).
  rewrite (bind_ret _ _ _ _ _ (KMAC128_digest_ok k t w Hlk)).
  rewrite (bind_ret _ _ _ _ _ (advance_random_spec self w t k Hw Ht Hk)).
  reflexivity.
Qed.

End GeneratorWorking.

(** ** The data generator: what a call reads *)

Section GeneratorRegisters.

Import DataGenerator DataGeneratorSpec GeneratorSpec.

Section Relation.

Context (names : list string) (self1 self2 : nat).

Lemma getattr_registers name :
  name ∈ names ->
  related (same_registers names self1 self2) (getattr self1 name) (getattr self2 name).
Proof.
  intros Hname w1 w2 HR. rewrite !getattr_state. split; [now apply HR | exact HR].
Qed.

Lemma setattr_registers name v :
  related (same_registers names self1 self2) (setattr self1 name v) (setattr self2 name v).
Proof.
  intros w1 w2 [Hex Hget]. split; [reflexivity |]. split.
  - now rewrite !setattr_exists.
  - intros name' Hname'. rewrite !getattr_setattr.
    destruct (instances w1 !! self1) as [d1 |], (instances w2 !! self2) as [d2 |].
    + destruct (decide (name = name')); [reflexivity | now apply Hget].
    + destruct Hex as [Hex _]. destruct Hex; [eauto | discriminate].
    + destruct Hex as [_ Hex]. destruct Hex; [eauto | discriminate].
    + reflexivity.
Qed.

Lemma pure_registers {A} (m : M world A) :
  (exists r, forall w, m w = (r, w)) -> related (same_registers names self1 self2) m m.
Proof. intros [r Hm] w1 w2 HR. now rewrite !Hm. Qed.

Lemma bytes_of_registers v :
  related (same_registers names self1 self2) (bytes_of v) (bytes_of v).
Proof.
  apply pure_registers. destruct v; simpl; unfold bytes.
  - destruct (forallb is_byte b); eauto.
  - eauto.
Qed.

Lemma AES_new_registers key :
  related (same_registers names self1 self2) (AES_new key) (AES_new key).
Proof. apply pure_registers. unfold AES_new. case_bool_decide; eauto. Qed.

Lemma encrypt_registers c data :
  related (same_registers names self1 self2) (encrypt c data) (encrypt c data).
Proof.
  apply pure_registers. unfold encrypt. destruct c; [eauto |].
  destruct (_ =? _)%nat; eauto.
Qed.

Lemma KMAC128_digest_registers key data :
  related (same_registers names self1 self2)
          (KMAC128_digest key data) (KMAC128_digest key data).
Proof. apply pure_registers. unfold KMAC128_digest. destruct (_ <? _)%nat; eauto. Qed.

Lemma reencrypt_registers name :
  "cipher_gen" ∈ names -> name ∈ names ->
  related (same_registers names self1 self2) (reencrypt self1 name) (reencrypt self2 name).
Proof.
  intros Hgen Hname. unfold reencrypt.
  apply related_bind; [now apply getattr_registers | intros c].
  apply related_bind; [now apply getattr_registers | intros v].
  apply related_bind; [apply bytes_of_registers | intros b].
  apply related_bind; [apply encrypt_registers | intros e].
  apply setattr_registers.
Qed.

Ltac registers_step :=
  first [ apply getattr_registers; assumption
        | apply reencrypt_registers; assumption
        | apply setattr_registers
        | apply bytes_of_registers
        | apply AES_new_registers
        | apply encrypt_registers
        | apply KMAC128_digest_registers
        | apply related_ret
        | apply related_bind; [| intros ?] ].

(** A call gives the same result on two generators that agree on the
    registers it reads. *)
Lemma run_call_registers c :
  (forall name, name ∈ reads (is_fixed_call c) -> name ∈ names) ->
  related (same_registers names self1 self2) (run_call self1 c) (run_call self2 c).
Proof.
  intros Hreads.
  assert ("cipher_gen" ∈ names) as Hgen
    by (apply Hreads; destruct c; simpl;
        repeat first [apply list_elem_of_here | apply list_elem_of_further]).
  destruct c; simpl in Hreads;
    match goal with
    | |- context [run_call _ ?c] =>
        assert (forall n, n ∈ reads (is_fixed_call c) -> n ∈ names) as Hr by exact Hreads
    end; simpl in Hr.
  all: pose proof (Hr _ (list_elem_of_here _ _)) as Htext.
  all: pose proof (Hr _ (list_elem_of_further _ _ _ (list_elem_of_here _ _))) as Hkey.
  all: simpl; unfold get_fixed, get_random, get_kmac_fixed, get_kmac_random,
         advance_fixed, advance_random; repeat registers_step.
Qed.

Lemma replay_registers cs : forall w1 w2,
  (forall c, c ∈ cs -> forall name, name ∈ reads (is_fixed_call c) -> name ∈ names) ->
  same_registers names self1 self2 w1 w2 ->
  replay self1 cs w1 = replay self2 cs w2.
Proof.
  induction cs as [| c cs IH]; intros w1 w2 Hreads HR; [reflexivity |].
  simpl. destruct (run_call_registers c) with (s1 := w1) (s2 := w2) as [Hr HR'].
  - apply Hreads. apply list_elem_of_here.
  - exact HR.
  - destruct (run_call self1 c w1) as [r1 w1'], (run_call self2 c w2) as [r2 w2'].
    simpl in *. subst r2. f_equal. apply IH; [| assumption].
    intros c' Hc'. apply Hreads. now apply list_elem_of_further.
Qed.

End Relation.

End GeneratorRegisters.

(** ** The data generator: two independent streams *)

Section GeneratorStreams.

Import DataGenerator DataGeneratorSpec GeneratorSpec.

Lemma frame_exists self names w w' i :
  frame self names w w' ->
  is_Some (instances w' !! i) <-> is_Some (instances w !! i).
Proof. intros (_ & Hlen & _). rewrite !lookup_lt_is_Some. lia. Qed.

(** What a frame leaves alone reads as before, in any instance. *)
Lemma frame_getattr_any self names w w' i name :
  frame self names w w' -> i <> self \/ name ∉ names ->
  fst (getattr i name w') = fst (getattr i name w).
Proof.
  intros Hframe Hout. pose proof (frame_exists _ _ _ _ i Hframe) as Hex.
  destruct Hframe as (Hc & _ & Ha). specialize (Ha i name Hout). unfold attr in Ha.
  unfold getattr. rewrite Hc.
  destruct (instances w' !! i) as [d' |], (instances w !! i) as [d |]; simpl in Ha.
  - rewrite Ha. now destruct (d !! name), (class_attrs w !! name).
  - destruct Hex as [Hex _]. destruct Hex; [eauto | discriminate].
  - destruct Hex as [_ Hex]. destruct Hex; [eauto | discriminate].
  - reflexivity.
Qed.

Lemma writes_not_read c fixed name :
  is_fixed_call c = negb fixed -> name ∈ reads fixed -> name ∉ writes c.
Proof.
  intros Hc Hname Hw. apply list_elem_of_In in Hname, Hw.
  destruct c, fixed; simpl in *; try discriminate; intuition congruence.
Qed.

(** A call of the other kind changes nothing that a call of this kind
    reads. *)
Lemma other_call_same_registers self c fixed w1 w2 :
  is_fixed_call c = negb fixed ->
  same_registers (reads fixed) self self w1 w2 ->
  same_registers (reads fixed) self self (snd (run_call self c w1)) w2.
Proof.
  intros Hc [Hex Hget]. pose proof (run_call_frame self c w1) as Hframe. split.
  - now rewrite (frame_exists _ _ _ _ self Hframe).
  - intros name Hname. rewrite <- (Hget name Hname).
    apply (frame_getattr_any _ _ _ _ _ _ Hframe). right.
    now apply (writes_not_read c fixed).
Qed.

Lemma results_of_cons {A} p c cs (r : A) rs :
  results_of p (c :: cs) (r :: rs) =
  if p c then r :: results_of p cs rs else results_of p cs rs.
Proof. unfold results_of. simpl. now destruct (p c). Qed.

Lemma streams_from_same_registers self fixed cs : forall w1 w2,
  same_registers (reads fixed) self self w1 w2 ->
  results_of (fun c => bool_decide (is_fixed_call c = fixed)) cs (replay self cs w1) =
  replay self (List.filter (fun c => bool_decide (is_fixed_call c = fixed)) cs) w2.
Proof.
  induction cs as [| c cs IH]; intros w1 w2 HR; [reflexivity |].
  simpl replay at 1. destruct (run_call self c w1) as [r1 w1'] eqn:Hrun.
  rewrite results_of_cons. simpl List.filter. case_bool_decide as Hc.
  - simpl replay.
    destruct (run_call_registers (reads fixed) self self c) with (s1 := w1) (s2 := w2)
      as [Hr HR']; [now rewrite Hc | exact HR |].
    rewrite Hrun in Hr, HR'. destruct (run_call self c w2) as [r2 w2'].
    simpl in *. subst r2. f_equal. now apply IH.
  - apply IH. replace w1' with (snd (run_call self c w1)) by now rewrite Hrun.
    apply other_call_same_registers; [| exact HR].
    destruct (is_fixed_call c), fixed; try reflexivity; now contradict Hc.
Qed.

(** X2: the fixed and the random stream do not interfere: in any sequence
    of calls, on any generator, the calls of one kind return what they
    return when the calls of the other kind are left out. *)
Theorem streams_independent (self : nat) (w : world) (cs : list call) (fixed : bool) :
  let kind c := bool_decide (is_fixed_call c = fixed) in
  results_of kind cs (replay self cs w) = replay self (List.filter kind cs) w.
Proof. intros kind. apply streams_from_same_registers. now split. Qed.

End GeneratorStreams.

(** ** The data generator: every reachable generator works *)

Section GeneratorReachable.

Import DataGenerator DataGeneratorSpec GeneratorSpec.

Lemma register_cases name :
  name ∈ ["text_fixed"; "text_random"; "key_fixed"; "key_random"] ->
  name = "text_fixed" \/ name = "text_random" \/ name = "key_fixed" \/ name = "key_random".
Proof. intros Hn. apply list_elem_of_In in Hn. simpl in Hn. intuition auto. Qed.

(** A call on a generator in working order returns three byte strings
    and leaves the generator in working order. *)
Lemma run_call_working self c w :
  working self w ->
  exists pt ct key,
    run_call self c w = (Ret (PyBytes pt, PyBytes ct, PyBytes key), snd (run_call self c w)) /\
    length pt = 16%nat /\ length key = 16%nat /\ length ct = digest_length c /\
    forallb is_byte pt = true /\ forallb is_byte ct = true /\ forallb is_byte key = true /\
    working self (snd (run_call self c w)).
Proof.
  intros Hw. assert (Hw' := Hw). destruct Hw' as (Hex & Hregs & Hgen).
  destruct (Hregs "text_fixed") as [tf Htf];
    [repeat first [apply list_elem_of_here | apply list_elem_of_further] |].
  destruct (Hregs "text_random") as [tr Htr];
    [repeat first [apply list_elem_of_here | apply list_elem_of_further] |].
  destruct (Hregs "key_fixed") as [kf Hkf];
    [repeat first [apply list_elem_of_here | apply list_elem_of_further] |].
  destruct (Hregs "key_random") as [kr Hkr];
    [repeat first [apply list_elem_of_here | apply list_elem_of_further] |].
  assert (Htf' := Htf). assert (Htr' := Htr). assert (Hkf' := Hkf). assert (Hkr' := Hkr).
  destruct Htf' as (_ & Hltf & Hbtf), Htr' as (_ & Hltr & Hbtr),
           Hkf' as (_ & Hlkf & Hbkf), Hkr' as (_ & Hlkr & Hbkr).
  destruct (next_block_spec tf Hltf Hbtf) as [Hntf Hntfb].
  destruct (next_block_spec tr Hltr Hbtr) as [Hntr Hntrb].
  destruct (next_block_spec kr Hlkr Hbkr) as [Hnkr Hnkrb].
  destruct c; simpl run_call.
  - rewrite (get_fixed_spec self w tf kf Hw Htf Hkf). cbn [snd].
    destruct (block_encrypt_spec kf tf Hlkf Hbkf Hltf Hbtf) as [Hl Hb].
    exists tf, (AES.ecb_encrypt kf tf), kf. do 7 (split; [first [assumption | reflexivity] |]).
    apply working_setattr; try assumption.
    repeat first [apply list_elem_of_here | apply list_elem_of_further].
  - rewrite (get_random_spec self w tr kr Hw Htr Hkr). cbn [snd].
    destruct (block_encrypt_spec kr tr Hlkr Hbkr Hltr Hbtr) as [Hl Hb].
    exists tr, (AES.ecb_encrypt kr tr), kr. do 7 (split; [first [assumption | reflexivity] |]).
    apply working_setattr; try assumption;
      [apply working_setattr; try assumption |];
      repeat first [apply list_elem_of_here | apply list_elem_of_further].
  - rewrite (get_kmac_fixed_spec self w tf kf Hw Htf Hkf). cbn [snd].
    destruct (kmac128_spec kf tf 32) as [Hl Hb].
    exists tf, (KMAC.kmac128 kf tf 32), kf. do 7 (split; [first [assumption | reflexivity] |]).
    apply working_setattr; try assumption.
    repeat first [apply list_elem_of_here | apply list_elem_of_further].
  - rewrite (get_kmac_random_spec self w tr kr Hw Htr Hkr). cbn [snd].
    destruct (kmac128_spec kr tr 32) as [Hl Hb].
    exists tr, (KMAC.kmac128 kr tr 32), kr. do 7 (split; [first [assumption | reflexivity] |]).
    apply working_setattr; try assumption;
      [apply working_setattr; try assumption |];
      repeat first [apply list_elem_of_here | apply list_elem_of_further].
Qed.

(** A working generator that a frame of another instance, or of other
    worlds' business, passes by is still working. *)
Lemma working_frame_other self names w w' i :
  frame self names w w' -> i <> self -> working i w -> working i w'.
Proof.
  intros Hframe Hne (Hex & Hregs & Hgen). split; [| split].
  - now apply (frame_exists _ _ _ _ i Hframe).
  - intros name Hname. destruct (Hregs name Hname) as (b & Hg & Hl & Hb).
    exists b. split; [| now split]. apply getattr_eq.
    rewrite (frame_getattr_any _ _ _ _ i name Hframe) by now left. now rewrite Hg.
  - apply getattr_eq.
    rewrite (frame_getattr_any _ _ _ _ i _ Hframe) by now left. now rewrite Hgen.
Qed.

Lemma set_start_eq self w :
  set_start self w =
  (Ret tt,
   snd (setattr self "key_random" (PyBytes key_random)
     (snd (setattr self "key_fixed" (PyBytes key_fixed)
       (snd (setattr self "text_random" (PyBytes text_random)
         (snd (setattr self "text_fixed" (PyBytes text_fixed) w)))))))).
Proof. reflexivity. Qed.

Lemma set_start_working self w : working self w -> working self (snd (set_start self w)).
Proof.
  intros Hw. rewrite set_start_eq. cbn [snd].
  repeat (apply working_setattr;
          [| repeat first [apply list_elem_of_here | apply list_elem_of_further]
           | reflexivity | reflexivity]).
  exact Hw.
Qed.

Lemma fresh_working w :
  class_attrs w = class_body -> working (length (instances w)) (snd (new w)).
Proof.
  intros Hc. rewrite (new_fresh w Hc). cbn [snd].
  assert (forall name,
    getattr (length (instances w)) name
      {| class_attrs := class_attrs w;
         instances := instances w ++ [<["cipher_gen" := PyAES key_generation]> ∅] |}
    = (match (<["cipher_gen" := PyAES key_generation]> (∅ : gmap string pyval)) !! name with
       | Some v => Ret v
       | None => match class_body !! name with
                 | Some v => Ret v
                 | None => Raise AttributeError
                 end
       end,
       {| class_attrs := class_attrs w;
          instances := instances w ++ [<["cipher_gen" := PyAES key_generation]> ∅] |}))
    as Hget.
  { intros name. unfold getattr. cbn [instances class_attrs].
    rewrite list_lookup_middle by reflexivity. rewrite Hc.
    destruct (_ !! name); [reflexivity |]. now destruct (class_body !! name). }
  split; [| split].
  - cbn [instances]. rewrite list_lookup_middle by reflexivity. eauto.
  - intros name Hname. unfold holds_block. rewrite Hget.
    apply register_cases in Hname as [-> | [-> | [-> | ->]]];
      eexists; (split; [reflexivity | split; reflexivity]).
  - rewrite Hget. reflexivity.
Qed.

Lemma working_older w i :
  class_attrs w = class_body -> working i w -> working i (snd (new w)).
Proof.
  intros Hc (Hex & Hregs & Hgen). rewrite (new_fresh w Hc). cbn [snd].
  assert (forall name r, getattr i name w = (r, w) ->
            getattr i name
              {| class_attrs := class_attrs w;
                 instances := instances w ++ [<["cipher_gen" := PyAES key_generation]> ∅] |}
            = (r, {| class_attrs := class_attrs w;
                     instances := instances w ++ [<["cipher_gen" := PyAES key_generation]> ∅] |}))
    as Hget.
  { intros name r Hr. apply getattr_eq. apply (f_equal fst) in Hr. simpl in Hr.
    rewrite <- Hr. unfold getattr. cbn [instances class_attrs].
    destruct Hex as [d Hd]. rewrite (lookup_app_l_Some _ _ _ _ Hd), Hd.
    destruct (d !! name); [reflexivity |]. now destruct (class_attrs w !! name). }
  split; [| split].
  - cbn [instances]. destruct Hex as [d Hd]. rewrite (lookup_app_l_Some _ _ _ _ Hd). eauto.
  - intros name Hname. destruct (Hregs name Hname) as (b & Hg & Hl & Hb).
    exists b. split; [now apply Hget | now split].
  - now apply Hget.
Qed.

(** Whatever was done since the module was imported, every generator
    there is is in working order. *)
Lemma reachable_working w :
  reachable w -> forall i, is_Some (instances w !! i) -> working i w.
Proof.
  induction 1 as [| w self c Hreach IH | w self Hreach IH | w Hreach IH]; intros i Hi.
  - unfold module_world, import.
    assert (class_attrs {| class_attrs := class_body; instances := [] |} = class_body)
      as Hc by reflexivity.
    pose proof (fresh_working _ Hc) as Hw. simpl length in Hw.
    rewrite module_world_eq in Hi. destruct i as [| i]; [exact Hw |].
    simpl in Hi. destruct Hi as [? Hi]. discriminate Hi.
  - pose proof (run_call_frame self c w) as Hframe.
    apply (frame_exists _ _ _ _ i Hframe) in Hi.
    destruct (decide (i = self)) as [-> | Hne].
    + destruct (run_call_working self c w (IH self Hi)) as (? & ? & ? & Hrun); apply Hrun.
    + eapply working_frame_other; eauto.
  - pose proof (set_start_frame self w) as Hframe.
    apply (frame_exists _ _ _ _ i Hframe) in Hi.
    destruct (decide (i = self)) as [-> | Hne].
    + apply set_start_working. auto.
    + eapply working_frame_other; eauto.
  - pose proof (reachable_class w Hreach) as Hc.
    rewrite (new_fresh w Hc) in Hi. cbn [snd instances] in Hi.
    apply lookup_lt_is_Some in Hi. rewrite length_app in Hi. simpl in Hi.
    destruct (decide (i = length (instances w))) as [-> | Hne].
    + now apply fresh_working.
    + apply working_older; [assumption |]. apply IH. apply lookup_lt_is_Some. lia.
Qed.

End GeneratorReachable.

(** ** The data generator: what its callers can rely on *)

Section GeneratorGuarantees.

Import DataGenerator DataGeneratorSpec GeneratorSpec.

Lemma replay_working self cs : forall w,
  working self w -> Forall2 well_formed_result cs (replay self cs w).
Proof.
  induction cs as [| c cs IH]; intros w Hw; [constructor |].
  simpl. destruct (run_call_working self c w Hw)
    as (pt & ct & key & Hrun & Hpt & Hkey & Hct & Hbpt & Hbct & Hbkey & Hw').
  rewrite Hrun. constructor; [| now apply IH].
  exists pt, ct, key. now splits.
Qed.

(** X1: on every generator there is, whatever was called before, no
    sequence of calls raises: each call returns a 16-byte plaintext, a
    16-byte key and a digest of 16 bytes (AES) or 32 bytes (KMAC). *)
Theorem generator_calls_succeed (w : world) (self : nat) (cs : list call) :
  reachable w -> is_Some (instances w !! self) ->
  Forall2 well_formed_result cs (replay self cs w).
Proof. intros Hreach Hself. now apply replay_working, reachable_working. Qed.

Lemma generator_calls_succeed_witness :
  let w := snd (run_call _inst GetKmacRandom (snd (set_start _inst module_world))) in
  (reachable w /\ is_Some (instances w !! _inst)) /\
  Forall2 well_formed_result [GetFixed; GetRandom; GetKmacFixed]
          (replay _inst [GetFixed; GetRandom; GetKmacFixed] w).
Proof.
  intros w.
  assert (reachable w) as Hreach by apply reach_call, reach_set_start, reach_import.
  assert (is_Some (instances w !! _inst)) as Hself.
  { apply (frame_exists _ _ _ _ _ (run_call_frame _ _ _)).
    apply (frame_exists _ _ _ _ _ (set_start_frame _ _)).
    rewrite module_world_eq. simpl. eauto. }
  split; [now split |].
  exact (generator_calls_succeed w _inst _ Hreach Hself).
Defined.

Lemma imap_ext_shift {A B} (f g : nat -> A -> B) l :
  (forall i x, f i x = g i x) -> imap f l = imap g l.
Proof. intros Hfg. apply imap_ext. intros; apply Hfg. Qed.

(** A stream of calls of one kind, from a generator in working order. *)
Lemma fixed_stream self cs : forall w t k,
  forallb is_fixed_call cs = true ->
  working self w ->
  holds_block self "text_fixed" w t -> holds_block self "key_fixed" w k ->
  replay self cs w = imap (fun i c => stream_result c i t k) cs.
Proof.
  induction cs as [| c cs IH]; intros w t k Hcs Hw Ht Hk; [reflexivity |].
  simpl in Hcs. apply andb_true_iff in Hcs as [Hc Hcs].
  assert (Ht' := Ht). assert (Hk' := Hk).
  destruct Ht' as (_ & Hlt & Hbt), Hk' as (_ & Hlk & Hbk).
  destruct (next_block_spec t Hlt Hbt) as [Hnl Hnb].
  destruct Hw as (Hex & Hregs & Hgen).
  assert (working self w) as Hw by now split.
  simpl replay. simpl imap.
  assert (run_call self c w =
          (stream_result c 0 t k,
           snd (setattr self "text_fixed" (PyBytes (next_block t)) w))) as Hrun.
  { destruct c; try discriminate; simpl.
    - now rewrite (get_fixed_spec self w t k Hw Ht Hk).
    - now rewrite (get_kmac_fixed_spec self w t k Hw Ht Hk). }
  rewrite Hrun. f_equal.
  rewrite (IH _ (next_block t) k); try assumption.
  - apply imap_ext. intros i c' Hc'.
    assert (is_fixed_call c' = true) as Hkind.
    { rewrite forallb_forall in Hcs. apply list_elem_of_lookup_2 in Hc'.
      apply list_elem_of_In in Hc'. now apply Hcs in Hc'. }
    unfold stream_result, compose. cbv beta zeta. rewrite Hkind.
    now rewrite !Nat.iter_succ_r.
  - apply working_setattr; try assumption.
    repeat first [apply list_elem_of_here | apply list_elem_of_further].
  - apply holds_block_setattr; [assumption |]. now rewrite decide_True.
  - apply holds_block_setattr; [assumption |]. now rewrite decide_False.
Qed.

Lemma random_stream self cs : forall w t k,
  forallb is_random_call cs = true ->
  working self w ->
  holds_block self "text_random" w t -> holds_block self "key_random" w k ->
  replay self cs w = imap (fun i c => stream_result c i t k) cs.
Proof.
  induction cs as [| c cs IH]; intros w t k Hcs Hw Ht Hk; [reflexivity |].
  simpl in Hcs. apply andb_true_iff in Hcs as [Hc Hcs].
  assert (Ht' := Ht). assert (Hk' := Hk).
  destruct Ht' as (_ & Hlt & Hbt), Hk' as (_ & Hlk & Hbk).
  destruct (next_block_spec t Hlt Hbt) as [Hnl Hnb].
  destruct (next_block_spec k Hlk Hbk) as [Hnkl Hnkb].
  destruct Hw as (Hex & Hregs & Hgen).
  assert (working self w) as Hw by now split.
  simpl replay. simpl imap.
  assert (run_call self c w =
          (stream_result c 0 t k,
           snd (setattr self "key_random" (PyBytes (next_block k))
                  (snd (setattr self "text_random" (PyBytes (next_block t)) w)))))
    as Hrun.
  { destruct c; try discriminate; simpl.
    - now rewrite (get_random_spec self w t k Hw Ht Hk).
    - now rewrite (get_kmac_random_spec self w t k Hw Ht Hk). }
  rewrite Hrun. f_equal.
  assert (working self (snd (setattr self "text_random" (PyBytes (next_block t)) w)))
    as Hw1.
  { apply working_setattr; try assumption.
    repeat first [apply list_elem_of_here | apply list_elem_of_further]. }
  rewrite (IH _ (next_block t) (next_block k)); try assumption.
  - apply imap_ext. intros i c' Hc'.
    assert (is_fixed_call c' = false) as Hkind.
    { rewrite forallb_forall in Hcs. apply list_elem_of_lookup_2 in Hc'.
      apply list_elem_of_In in Hc'. apply Hcs in Hc'. unfold is_random_call in Hc'.
      now destruct (is_fixed_call c'). }
    unfold stream_result, compose. cbv beta zeta. rewrite Hkind.
    now rewrite !Nat.iter_succ_r.
  - apply working_setattr; try assumption.
    repeat first [apply list_elem_of_here | apply list_elem_of_further].
  - apply holds_block_setattr; [now apply setattr_exists |]. rewrite decide_False by discriminate.
    apply holds_block_setattr; [assumption |]. now rewrite decide_True.
  - apply holds_block_setattr; [now apply setattr_exists |]. now rewrite decide_True.
Qed.

(** X3: in any sequence of calls on a generator in working order, the
    calls of one stream return, one after the other, the stream's text
    encrypted 0, 1, 2, ... times under the generation key (the calls of
    the other stream in between do not count), each with its digest
    under the key returned with it: the fixed key, or for the random
    stream the key encrypted as many times as the text. *)
Theorem stream_contents (self : nat) (w : world) (cs : list call) (fixed : bool)
    (t k : list Z) :
  working self w ->
  holds_block self (if fixed then "text_fixed" else "text_random") w t ->
  holds_block self (if fixed then "key_fixed" else "key_random") w k ->
  let kind c := bool_decide (is_fixed_call c = fixed) in
  results_of kind cs (replay self cs w) =
  imap (fun i c => stream_result c i t k) (List.filter kind cs).
Proof.
  intros Hw Ht Hk kind. subst kind. cbv beta.
  rewrite (streams_from_same_registers self fixed cs w w) by now split.
  destruct fixed.
  - apply fixed_stream; try assumption.
    apply forallb_forall. intros c Hc. apply List.filter_In in Hc as [_ Hc].
    now apply bool_decide_eq_true in Hc.
  - apply random_stream; try assumption.
    apply forallb_forall. intros c Hc. apply List.filter_In in Hc as [_ Hc].
    apply bool_decide_eq_true in Hc. unfold is_random_call. now rewrite Hc.
Qed.

Lemma stream_contents_witness :
  let cs := [GetRandom; GetFixed; GetKmacRandom; GetFixed] in
  let kind c := bool_decide (is_fixed_call c = true) in
  (working _inst module_world /\
   holds_block _inst "text_fixed" module_world text_fixed /\
   holds_block _inst "key_fixed" module_world key_fixed) /\
  results_of kind cs (replay _inst cs module_world) =
  imap (fun i c => stream_result c i text_fixed key_fixed) (List.filter kind cs).
Proof.
  intros cs kind.
  assert (working _inst module_world) as Hw.
  { apply reachable_working; [apply reach_import |].
    rewrite module_world_eq. simpl. eauto. }
  assert (holds_block _inst "text_fixed" module_world text_fixed) as Ht.
  { rewrite module_world_eq. split; [vm_compute; reflexivity | split; reflexivity]. }
  assert (holds_block _inst "key_fixed" module_world key_fixed) as Hk.
  { rewrite module_world_eq. split; [vm_compute; reflexivity | split; reflexivity]. }
  split; [splits; [exact Hw | exact Ht | exact Hk] |].
  exact (stream_contents _inst module_world cs true text_fixed key_fixed Hw Ht Hk).
Defined.

Lemma getattr_setattr_some self n v name w :
  is_Some (instances w !! self) ->
  fst (getattr self name (snd (setattr self n v w))) =
  if decide (n = name) then Ret v else fst (getattr self name w).
Proof. intros [d Hd]. now rewrite getattr_setattr, Hd. Qed.

(** X4: [set_start] puts a generator back to where a freshly imported
    module's generator starts: whatever was called before, any sequence
    of calls after it returns what it returns right after import. *)
Theorem set_start_resets (w : world) (self : nat) (cs : list call) :
  reachable w -> is_Some (instances w !! self) ->
  replay self cs (snd (set_start self w)) = replay _inst cs module_world.
Proof.
  intros Hreach Hself.
  destruct (reachable_working w Hreach self Hself) as (_ & _ & Hgen).
  apply (replay_registers registers).
  { intros c _ name Hname. apply list_elem_of_In in Hname. apply list_elem_of_In.
    unfold registers. destruct c; simpl in *; intuition auto. }
  split.
  - rewrite (frame_exists _ _ _ _ self (set_start_frame self w)).
    rewrite module_world_eq. simpl. split; eauto.
  - intros name Hname. rewrite set_start_eq. cbn [snd].
    rewrite !getattr_setattr_some by (rewrite ?setattr_exists; exact Hself).
    rewrite module_world_eq.
    apply list_elem_of_In in Hname. unfold registers in Hname. simpl in Hname.
    destruct Hname as [<- | [<- | [<- | [<- | [<- | []]]]]];
      try reflexivity.
    repeat (rewrite decide_False by discriminate). now rewrite Hgen.
Qed.

Lemma set_start_resets_witness :
  let w := snd (run_call _inst GetRandom (snd (run_call _inst GetFixed module_world))) in
  let cs := [GetFixed; GetRandom] in
  (reachable w /\ is_Some (instances w !! _inst)) /\
  replay _inst cs (snd (set_start _inst w)) = replay _inst cs module_world.
Proof.
  intros w cs.
  assert (reachable w) as Hreach by apply reach_call, reach_call, reach_import.
  assert (is_Some (instances w !! _inst)) as Hself.
  { apply (frame_exists _ _ _ _ _ (run_call_frame _ _ _)).
    apply (frame_exists _ _ _ _ _ (run_call_frame _ _ _)).
    rewrite module_world_eq. simpl. eauto. }
  split; [split; [exact Hreach | exact Hself] |].
  exact (set_start_resets w _inst cs Hreach Hself).
Defined.

End GeneratorGuarantees.

(** ** The data generator: several instances *)

Section GeneratorInstances.

Import DataGenerator DataGeneratorSpec GeneratorSpec.

Lemma registers_read c name : name ∈ reads (is_fixed_call c) -> name ∈ registers.
Proof.
  intros Hname. apply list_elem_of_In in Hname. apply list_elem_of_In.
  unfold registers. destruct c; simpl in *; intuition auto.
Qed.

(** A call on another instance changes nothing that this one reads. *)
Lemma foreign_call_same_registers self i c w1 w2 :
  i <> self ->
  same_registers registers self self w1 w2 ->
  same_registers registers self self (snd (run_call i c w1)) w2.
Proof.
  intros Hne [Hex Hget]. pose proof (run_call_frame i c w1) as Hframe. split.
  - now rewrite (frame_exists _ _ _ _ self Hframe).
  - intros name Hname. rewrite <- (Hget name Hname).
    apply (frame_getattr_any _ _ _ _ _ _ Hframe). left. congruence.
Qed.

Lemma instances_from_same_registers self cs : forall w1 w2,
  same_registers registers self self w1 w2 ->
  map snd (List.filter (fun icr => bool_decide (fst (fst icr) = self))
                       (zip cs (replay_on cs w1))) =
  replay self (map snd (List.filter (fun ic => bool_decide (fst ic = self)) cs)) w2.
Proof.
  induction cs as [| [i c] cs IH]; intros w1 w2 HR; [reflexivity |].
  cbn [replay_on]. destruct (run_call i c w1) as [r1 w1'] eqn:Hrun.
  cbn [zip zip_with List.filter fst snd]. case_bool_decide as Hi.
  - subst i. cbn [map snd replay].
    destruct (run_call_registers registers self self c (registers_read c)
                w1 w2 HR) as [Hr HR'].
    rewrite Hrun in Hr, HR'. destruct (run_call self c w2) as [r2 w2'].
    cbn [fst snd] in *. subst r2. f_equal. now apply IH.
  - apply IH. replace w1' with (snd (run_call i c w1)) by now rewrite Hrun.
    now apply foreign_call_same_registers.
Qed.

(** X5: generators do not share state: when calls on several instances
    are interleaved, the calls on one instance return what they return
    with the calls on the other instances left out.  (The lists that
    the class holds are never changed in place; every function binds a
    new value in the instance.) *)
Theorem instances_independent (self : nat) (w : world) (cs : list (nat * call)) :
  let mine (ic : nat * call) := bool_decide (fst ic = self) in
  map snd (List.filter (fun icr => mine (fst icr)) (zip cs (replay_on cs w))) =
  replay self (map snd (List.filter mine cs)) w.
Proof. intros mine. apply instances_from_same_registers. now split. Qed.

End GeneratorInstances.

(** ** The capture script, however a run ends *)

Section ToBytes.

Lemma to_bytes_4_little_ret {St} n bs (s s' : St) :
  to_bytes_4_little n s = (Ret bs, s') ->
  s' = s /\ length bs = 4%nat /\ forallb is_byte bs = true /\ from_bytes_little bs = n.
Proof.
  unfold to_bytes_4_little. destruct ((0 <=? n) && (n <? 2 ^ 32)) eqn:Hn; [| discriminate].
  intros [= <- <-]. apply andb_true_iff in Hn as [Hlo Hhi].
  apply Z.leb_le in Hlo. apply Z.ltb_lt in Hhi.
  split; [reflexivity |]. split; [reflexivity |].
  cbn [map from_bytes_little fold_right forallb].
  change 0xFF with (Z.ones 8). rewrite !Z.land_ones, !Z.shiftr_div_pow2 by lia.
  split.
  - unfold is_byte.
    repeat match goal with
           | |- context [?a mod 2 ^ 8] =>
               pose proof (Z.mod_pos_bound a (2 ^ 8) eq_refl);
               generalize dependent (a mod 2 ^ 8); intros
           end.
    rewrite !andb_true_iff, !Z.leb_le, !Z.ltb_lt. lia.
  - change (8 * 0) with 0. change (8 * 1) with 8. change (8 * 2) with 16.
    change (8 * 3) with 24. change (2 ^ 0) with 1. rewrite Z.div_1_r.
    change (2 ^ 8) with 256. change (2 ^ 16) with 65536. change (2 ^ 24) with 16777216.
    change (2 ^ 32) with 4294967296 in Hhi.
    Z.div_mod_to_equations. lia.
Qed.

Lemma to_bytes_4_little_raise {St} n e (s s' : St) :
  to_bytes_4_little n s = (Raise e, s') ->
  s' = s /\ e = OverflowError /\ (n < 0 \/ 2 ^ 32 <= n).
Proof.
  unfold to_bytes_4_little. destruct ((0 <=? n) && (n <? 2 ^ 32)) eqn:Hn; [discriminate |].
  intros [= <- <-]. apply andb_false_iff in Hn as [Hn | Hn].
  - apply Z.leb_gt in Hn. auto.
  - apply Z.ltb_ge in Hn. auto.
Qed.

Lemma to_bytes_4_little_fits {St} n (s : St) :
  0 <= n < 2 ^ 32 ->
  exists bs, to_bytes_4_little n s = (Ret bs, s) /\
             length bs = 4%nat /\ from_bytes_little bs = n.
Proof.
  intros Hn. destruct (to_bytes_4_little n s) as [[bs | e] s'] eqn:Hrun.
  - apply to_bytes_4_little_ret in Hrun as (-> & Hlen & _ & Hval). now exists bs.
  - apply to_bytes_4_little_raise in Hrun as (_ & _ & Hout). lia.
Qed.

Lemma to_bytes_4_little_overflow {St} n (s : St) :
  ~ 0 <= n < 2 ^ 32 -> to_bytes_4_little n s = (Raise OverflowError, s).
Proof.
  intros Hn. destruct (to_bytes_4_little n s) as [[bs | e] s'] eqn:Hrun.
  - unfold to_bytes_4_little in Hrun.
    destruct ((0 <=? n) && (n <? 2 ^ 32)) eqn:Hfit; [| discriminate].
    apply andb_true_iff in Hfit as [Hlo Hhi]. apply Z.leb_le in Hlo.
    apply Z.ltb_lt in Hhi. lia.
  - now apply to_bytes_4_little_raise in Hrun as (-> & -> & _).
Qed.

End ToBytes.

Section BindCases.

Context {St : Type}.

(** A computation followed by another, case by case. *)
Lemma bind_case {A B} (m : M St A) (k : A -> M St B) s (Q : outcome B * St -> Prop) :
  (forall a s1, m s = (Ret a, s1) -> Q (k a s1)) ->
  (forall e s1, m s = (Raise e, s1) -> Q (Raise e, s1)) ->
  Q (bind m k s).
Proof. intros HR HE. unfold bind. destruct (m s) as [[a | e] s1]; auto. Qed.

Lemma assert_raise b e (s s' : St) : assert b s = (Raise e, s') -> s' = s.
Proof. destruct b; simpl; [discriminate |]. now intros [= _ <-]. Qed.

Lemma bytes_raise l e (s s' : St) : bytes l s = (Raise e, s') -> s' = s.
Proof. unfold bytes. destruct (forallb is_byte l); [discriminate |]. now intros [= _ <-]. Qed.

End BindCases.

Lemma bound_raise {A} (v : option A) e s s' : bound v s = (Raise e, s') -> s' = s.
Proof. destruct v; simpl; [discriminate |]. now intros [= _ <-]. Qed.

Section CaptureAnyOutcome.

Import CaptureLog.

Context (E : Env) `{DgSha3}.

Ltac step := apply bind_case; [intros ? ? ?Hok | intros ? ? ?Hbad].

(** A segment that raises has stored nothing. *)
Lemma segment_raise cfg waves i s e s' :
  segment E cfg waves i s = (Raise e, s') -> log s' = log s.
Proof.
  intros Hrun.
  cut (match fst (segment E cfg waves i s) with
       | Raise _ => log (snd (segment E cfg waves i s)) = log s
       | Ret _ => True
       end); [now rewrite Hrun |].
  clear Hrun.
  set (Q := fun r : outcome unit * state =>
              match fst r with Raise _ => log (snd r) = log s | Ret _ => True end).
  change (Q (segment E cfg waves i s)). unfold segment.
  assert (forall s1 r,
    (if batch_mode cfg || bool_decide (capture_mode cfg = "sha3_random")
     then next_sample E cfg else ret tt) s = (r, s1) -> log s1 = log s) as Hpre.
  { intros s1 r Hs1.
    destruct (batch_mode cfg || bool_decide (capture_mode cfg = "sha3_random")).
    - pose proof (next_sample_quiet E cfg s) as Hq. rewrite Hs1 in Hq. apply Hq.
    - now injection Hs1 as _ <-. }
  apply bind_case; [intros [] s1 Hs1 | intros e1 s1 Hs1; now apply Hpre in Hs1].
  apply Hpre in Hs1.
  apply bind_case; [intros w s2 Hw | intros e1 s2 Hw].
  2: { destruct (waves !! i); [discriminate |]. now injection Hw as _ <-. }
  assert (s2 = s1) as ->
    by (destruct (waves !! i); [now injection Hw as _ <- | discriminate]).
  clear Hw.
  apply bind_case; [intros [] s2 Hlen | intros e1 s2 Hbad; now apply assert_raise in Hbad as ->].
  minv.
  apply bind_case; [intros s3 s4 Hget | discriminate]. minv.
  apply bind_case; [intros p s4 Hp | intros e1 s4 Hbad; now apply bytes_raise in Hbad as ->].
  minv.
  apply bind_case; [intros c s4 Hc | intros e1 s4 Hbad; now apply bound_raise in Hbad as ->].
  minv.
  apply bind_case; [intros c' s4 Hc' | intros e1 s4 Hbad; now apply bytes_raise in Hbad as ->].
  minv.
  apply bind_case; [intros [] s4 Hemit | discriminate]. minv.
  unfold Q.
  destruct (bool_decide (capture_mode cfg = "sha3_random")), (batch_mode cfg);
    unfold bind; rewrite ?random_bytes_eq; unfold get, modify, ret; cbn;
    rewrite H2; exact I.
Qed.

Lemma host_hashes_not_generator cfg :
  host_hashes cfg = true ->
  bool_decide (capture_mode cfg = "sha3_fvsr_data") && negb (batch_mode cfg) = false.
Proof.
  unfold host_hashes. destruct (batch_mode cfg); [now rewrite andb_false_r |].
  simpl. case_bool_decide as Hr; [| discriminate]. intros _. rewrite Hr. reflexivity.
Qed.

(** A segment that goes through has stored one trace, of the text of
    the moment; without batches that is the text it started with. *)
Lemma segment_stores cfg waves i s s' :
  segment E cfg waves i s = (Ret tt, s') ->
  exists w c,
    log s' = log s ++ [AppendTrace w (text s') c] /\
    stored cfg (AppendTrace w (text s') c) /\
    (batch_mode cfg = false -> text s' = text s).
Proof.
  intros Hseg.
  apply segment_ret in Hseg as (s0 & w & c & Hs0 & _ & Hw & Hc & Hp & Hcb & ->).
  exists w, c.
  assert (log s0 = log s /\
          (host_hashes cfg = true -> c = SHA3_256_digest (text s0)) /\
          (batch_mode cfg = false -> text s0 = text s)) as (Hlog & Hdig & Htext).
  { fold (host_hashes cfg) in Hs0. destruct (host_hashes cfg) eqn:Hh.
    - pose proof (next_sample_quiet E cfg s) as Hq. rewrite Hs0 in Hq.
      split; [apply Hq |]. split.
      + intros _. apply next_sample_hashes in Hs0;
          [congruence | now apply host_hashes_not_generator].
      + intros Hb. unfold host_hashes in Hh. rewrite Hb in Hh. simpl in Hh.
        apply bool_decide_eq_true in Hh.
        now rewrite (next_sample_random E cfg s s0 Hh Hs0).
    - subst s0. split; [reflexivity |]. split; [discriminate | reflexivity]. }
  destruct (bool_decide (capture_mode cfg = "sha3_random")); cbn;
    rewrite Hlog; (split; [reflexivity |]); (split; [| exact Htext]);
    repeat split; assumption.
Qed.

(** The segments of a batch, to the end or to the first one that
    raises: each one that went through has stored a trace, and without
    batches every one of them with the text the batch started with. *)
Lemma segments_any cfg waves n : forall i s,
  exists new,
    log (snd (for_range (segment E cfg waves) i n s)) = log s ++ new /\
    (length new <= n)%nat /\
    Forall (stored cfg) new /\
    (batch_mode cfg = false -> Forall (stores (text s)) new).
Proof.
  induction n as [| n IH]; intros i s.
  - exists []. simpl. rewrite app_nil_r. repeat split; auto.
  - cbn [for_range]. unfold bind at 1.
    destruct (segment E cfg waves i s) as [[[] | e] s1] eqn:Hseg.
    + destruct (IH (S i) s1) as (new & Hlog & Hlen & Hst & Htext).
      apply segment_stores in Hseg as (w & c & Hlog1 & Hst1 & Htext1).
      exists (AppendTrace w (text s1) c :: new). split; [| split; [| split]].
      * rewrite Hlog, Hlog1, <- app_assoc. reflexivity.
      * simpl. lia.
      * now constructor.
      * intros Hb. rewrite <- (Htext1 Hb). constructor; [now exists w, c | auto].
    + apply segment_raise in Hseg. exists []. cbn [snd]. rewrite app_nil_r.
      repeat split; auto. simpl. lia.
Qed.

(** Triggering the device, to the end or to an exception: the command
    is logged when it has been sent. *)
Lemma trigger_any cfg s :
  let m := if batch_mode cfg then
             n <- to_bytes_4_little (num_segments cfg) ;;
             emit (AbsorbBatch n)
           else
             (if bool_decide (capture_mode cfg = "sha3_fvsr_data")
              then next_sample E cfg else ret tt) ;;
             s <- get ;;
             emit (Absorb (text s)) in
  match fst (m s) with
  | Raise _ => log (snd (m s)) = log s
  | Ret _ =>
      exists trig, log (snd (m s)) = log s ++ [trig] /\ trigger cfg trig /\
                   (forall t, trig = Absorb t -> text (snd (m s)) = t)
  end.
Proof.
  intros m. subst m. destruct (batch_mode cfg) eqn:Hb.
  - destruct (to_bytes_4_little (num_segments cfg) s) as [[n | e] s1] eqn:Hn.
    + rewrite (bind_ret _ _ _ _ _ Hn).
      apply to_bytes_4_little_ret in Hn as (-> & Hlen & Hbytes & Hval).
      exists (AbsorbBatch n). cbn. repeat split; try assumption. discriminate.
    + rewrite (bind_raise _ _ _ _ _ Hn).
      now apply to_bytes_4_little_raise in Hn as (-> & _).
  - destruct ((if bool_decide (capture_mode cfg = "sha3_fvsr_data")
               then next_sample E cfg else ret tt) s) as [[[] | e] s1] eqn:Hs1.
    + rewrite (bind_ret _ _ _ _ _ Hs1).
      assert (log s1 = log s) as Hlog.
      { destruct (bool_decide (capture_mode cfg = "sha3_fvsr_data")).
        - pose proof (next_sample_quiet E cfg s) as Hq. rewrite Hs1 in Hq. apply Hq.
        - now injection Hs1 as <-. }
      exists (Absorb (text s1)). cbn. rewrite Hlog. repeat split; try assumption.
      now intros t [= <-].
    + rewrite (bind_raise _ _ _ _ _ Hs1). cbn.
      destruct (bool_decide (capture_mode cfg = "sha3_fvsr_data")); [| discriminate].
      pose proof (next_sample_quiet E cfg s) as Hq. rewrite Hs1 in Hq. apply Hq.
Qed.

(** From arming the scope to the end of the batch's segments, or to an
    exception. *)
Lemma acquire_any cfg s :
  exists p,
    log (snd (acquire E cfg s)) = log s ++ p /\
    match fst (acquire E cfg s) with
    | Raise _ =>
        p = [Arm] \/
        exists trig trs,
          p = [Arm; trig; CaptureAndTransferWaves] ++ trs /\
          trigger cfg trig /\ Forall (stored cfg) trs /\
          (forall t, trig = Absorb t -> Forall (stores t) trs) /\
          (length trs <= Z.to_nat (num_segments cfg))%nat
    | Ret _ =>
        exists trig trs,
          p = [Arm; trig; CaptureAndTransferWaves] ++ trs /\
          trigger cfg trig /\ Forall (stored cfg) trs /\
          (forall t, trig = Absorb t -> Forall (stores t) trs) /\
          Z.of_nat (length trs) = num_segments cfg /\
          (num_segments cfg <= 0 -> expected_ciphertext (snd (acquire E cfg s)) = None)
    end.
Proof.
  set (sa := set_log (log s ++ [Arm]) s).
  pose proof (trigger_any cfg sa) as Htrig. cbv zeta in Htrig.
  unfold acquire. rewrite (bind_ret (emit Arm) _ s tt sa eq_refl).
  match type of Htrig with
  | match fst (?m sa) with _ => _ end => destruct (m sa) as [[[] | e] st] eqn:Hm
  end; cbn [fst snd] in Htrig.
  2: { rewrite (bind_raise _ _ _ _ _ Hm). exists [Arm]. cbn [fst snd].
       split; [now rewrite Htrig | now left]. }
  rewrite (bind_ret _ _ _ _ _ Hm).
  destruct Htrig as (trig & Hlog & Htrig & Htext).
  rewrite (bind_ret get _ st st st eq_refl).
  set (sc := set_log (log st ++ [CaptureAndTransferWaves]) st).
  rewrite (bind_ret (emit CaptureAndTransferWaves) _ st tt sc eq_refl).
  set (waves := waves_of E (count is_transfer (log st))).
  assert (log sc = log s ++ [Arm; trig; CaptureAndTransferWaves]) as Hsc.
  { subst sc. cbn. rewrite Hlog. subst sa. cbn. now rewrite <- !app_assoc. }
  destruct (Z.of_nat (length waves) =? num_segments cfg) eqn:Hwaves.
  2: { rewrite (bind_raise (assert false) _ sc AssertionError sc eq_refl).
       exists [Arm; trig; CaptureAndTransferWaves]. cbn [fst snd].
       split; [exact Hsc |]. right. exists trig, [].
       splits; [reflexivity | assumption | constructor | intros; constructor
               | simpl; lia]. }
  apply Z.eqb_eq in Hwaves.
  rewrite (bind_ret (assert true) _ sc tt sc eq_refl).
  set (se := set_expected_ciphertext None sc).
  rewrite (bind_ret (modify (set_expected_ciphertext None)) _ sc tt se eq_refl).
  destruct (segments_any cfg waves (Z.to_nat (num_segments cfg)) 0%nat se)
    as (new & Hnew & Hlen & Hst & Hstores).
  exists ([Arm; trig; CaptureAndTransferWaves] ++ new). split.
  { rewrite Hnew. subst se. cbn [log set_expected_ciphertext]. rewrite Hsc.
    now rewrite <- app_assoc. }
  assert (forall t, trig = Absorb t -> Forall (stores t) new) as Hsent.
  { intros t Ht. rewrite <- (Htext t Ht). apply Hstores.
    subst trig. exact Htrig. }
  destruct (for_range (segment E cfg waves) 0 (Z.to_nat (num_segments cfg)) se)
    as [[[] | e] s1] eqn:Hrun; cbn [fst snd] in *.
  - exists trig, new. repeat split; try assumption.
    + apply segments_ret in Hrun as (new' & Hlog' & Hlen' & _).
      rewrite Hlog' in Hnew. apply app_inv_head in Hnew. subst new'.
      rewrite Hlen'. lia.
    + intros Hns. replace (Z.to_nat (num_segments cfg)) with 0%nat in Hrun by lia.
      simpl in Hrun. now injection Hrun as <-.
  - right. exists trig, new. repeat split; assumption.
Qed.

End CaptureAnyOutcome.

(** ** The capture script: what a run leaves in the log *)

Section PassShape.

Import CaptureLog.

Lemma stored_is_trace cfg e : stored cfg e -> is_trace e = true.
Proof. now destruct e. Qed.

Lemma trigger_cases cfg e :
  trigger cfg e -> is_trace e = false /\ is_arm e = false /\ traces [e] = [].
Proof. now destruct e. Qed.

Lemma ending_cases cfg n tail :
  ending cfg n tail ->
  traces tail = [] /\ count is_arm tail = 0%nat /\
  Z.of_nat n <= Z.max 0 (num_segments cfg) /\
  complete ([Arm] ++ tail) = match tail with [_; _; _] => true | _ => false end.
Proof. intros [Hn | Hn | k Hn Hns]; repeat split; try reflexivity; lia. Qed.

(** A pass arms the scope once and stores at most [num_segments]
    traces. *)
Lemma pass_counts cfg p :
  pass cfg p ->
  count is_arm p = 1%nat /\
  length (traces p) = count is_trace p /\
  Z.of_nat (length (traces p)) <= Z.max 0 (num_segments cfg).
Proof.
  intros [| trig trs tail Htrig Hst _ Hend]; [repeat split; simpl; lia |].
  apply trigger_cases in Htrig as (Htr & Harm & Htrs).
  apply ending_cases in Hend as (Htail & Htail_arm & Hn & _).
  assert (Forall (fun e => is_trace e = true) trs) as Hall
    by (eapply Forall_impl; [exact Hst | apply stored_is_trace]).
  assert (count is_arm trs = 0%nat) as Htrs_arm
    by (apply count_none; eapply Forall_impl; [exact Hall | now intros []]).
  assert (count is_trace trs = length trs) as Htrs_tr.
  { unfold count. clear -Hall. induction Hall as [| e l He _ IH]; [reflexivity |].
    simpl. rewrite He. simpl. now rewrite IH. }
  assert (count is_trace tail = 0%nat) as Htail_tr.
  { unfold count. clear -Htail. unfold traces in Htail.
    induction tail as [| e l IH]; [reflexivity |].
    destruct e; try discriminate; simpl in *; auto. }
  rewrite !count_app, !traces_app, !length_app, Htail, Htail_arm, Htrs_arm,
    Htail_tr, Htrs_tr, (length_traces trs Hall).
  change ([Arm; trig; CaptureAndTransferWaves])
    with ([Arm] ++ [trig] ++ [CaptureAndTransferWaves]).
  rewrite !count_app, !traces_app, Htrs.
  unfold count. simpl. rewrite Harm, Htr. simpl. lia.
Qed.

End PassShape.

Section CapturePasses.

Import CaptureLog.

Context (E : Env) `{DgSha3}.

(** One pass of the loop, however it ends. *)
Lemma iteration_pass cfg s :
  exists p,
    log (snd (iteration E cfg s)) = log s ++ p /\
    pass cfg p /\
    complete p = match fst (iteration E cfg s) with Ret _ => true | Raise _ => false end.
Proof.
  rewrite iteration_eq.
  destruct (acquire_any E cfg s) as (p & Hlog & Hp).
  destruct (acquire E cfg s) as [[[] | e] s1]; cbn [fst snd] in Hlog, Hp.
  - destruct Hp as (trig & trs & -> & Htrig & Hst & Hsent & Hlen & Hnone).
    assert (forall tail, ending cfg (length trs) tail ->
              pass cfg (([Arm; trig; CaptureAndTransferWaves] ++ trs) ++ tail)) as Hpass
      by (intros tail Hend; rewrite <- app_assoc; now constructor).
    destruct (expected_ciphertext s1) as [x |] eqn:Hexp.
    + case_bool_decide as Hcmp; cbn [fst snd].
      * eexists. split; [| split; [apply Hpass, (completed _ _ (num_segments_storage s1));
                                    [exact Hlen |] |]].
        -- unfold bookkeeping. cbn. rewrite Hlog, <- !app_assoc. reflexivity.
        -- destruct (Z.le_gt_cases 1 (num_segments cfg)) as [Hns | Hns]; [exact Hns |].
           specialize (Hnone ltac:(lia)). discriminate.
        -- unfold complete. now rewrite !last_app.
      * eexists. split; [| split; [apply Hpass, rejected; exact Hlen |]].
        -- cbn. rewrite Hlog, <- !app_assoc. reflexivity.
        -- unfold complete. now rewrite !last_app.
    + eexists. split; [| split; [apply Hpass, rejected; exact Hlen |]].
      * cbn. rewrite Hlog, <- !app_assoc. reflexivity.
      * unfold complete. now rewrite !last_app.
  - exists p. split; [exact Hlog |].
    destruct Hp as [-> | (trig & trs & -> & Htrig & Hst & Hsent & Hlen)];
      [split; [constructor | reflexivity] |].
    split.
    + rewrite <- (app_nil_r trs). constructor; try assumption. now constructor.
    + unfold complete. rewrite last_app.
      destruct trs as [| e0 trs0] using rev_ind; [reflexivity |].
      rewrite last_snoc. apply Forall_app in Hst as [_ Hst].
      inversion Hst as [| ? ? He0 _]; subst. now destruct e0.
Qed.

Lemma removelast_complete (p : list event) passes :
  complete p = true ->
  Forall (fun p => complete p = true) (removelast passes) ->
  Forall (fun p => complete p = true) (removelast (p :: passes)).
Proof. intros Hp Hall. destruct passes; [constructor | now constructor]. Qed.

(** The loop, however it ends: a sequence of passes of which only the
    last can be incomplete, and no more of them than the traces that
    remain call for. *)
Lemma capture_loop_passes cfg : forall fuel s,
  exists passes,
    log (snd (capture_loop E fuel cfg s)) = log s ++ concat passes /\
    Forall (pass cfg) passes /\
    Forall (fun p => complete p = true) (removelast passes) /\
    (forall u, fst (capture_loop E fuel cfg s) = Ret u ->
               Forall (fun p => complete p = true) passes) /\
    Z.of_nat (length passes) <=
      Z.max 0 (ceil_div (remaining_num_traces s) (Z.max 1 (num_segments cfg))).
Proof.
  induction fuel as [| fuel IH]; intros s;
    destruct (Z.lt_ge_cases 0 (remaining_num_traces s)) as [Hrem | Hrem].
  - exists []. simpl. unfold bind, get. apply Z.ltb_lt in Hrem. rewrite Hrem.
    cbn. rewrite app_nil_r.
    splits; [reflexivity | constructor | constructor | intros; constructor | lia].
  - exists []. rewrite capture_loop_done by assumption. cbn. rewrite app_nil_r.
    splits; [reflexivity | constructor | constructor | intros; constructor | lia].
  - rewrite capture_loop_step by assumption.
    destruct (iteration_pass cfg s) as (p & Hlog & Hp & Hcomplete).
    pose proof (ceil_div_pos (remaining_num_traces s) (Z.max 1 (num_segments cfg))
                  ltac:(lia) Hrem) as Hpos.
    destruct (iteration E cfg s) as [[[] | e] s1] eqn:Hiter; cbn [fst snd] in *.
    + destruct (IH s1) as (passes & Hlog' & Hpasses & Hdone & Hret & Hcount).
      apply iteration_ret in Hiter as (_ & _ & _ & _ & _ & _ & _ & Hns & Hrem1).
      exists (p :: passes). split; [| split; [| split; [| split]]].
      * rewrite Hlog', Hlog. cbn [concat]. now rewrite <- app_assoc.
      * now constructor.
      * now apply removelast_complete.
      * intros u Hu. constructor; [assumption | now apply (Hret u)].
      * rewrite (Z.max_r 1 (num_segments cfg)) in * by lia.
        rewrite Hrem1, ceil_div_step in Hcount by lia.
        rewrite length_cons. lia.
    + exists [p]. cbn [concat]. rewrite app_nil_r.
      split; [exact Hlog |]. split; [now repeat constructor |].
      split; [constructor |]. split; [discriminate |]. cbn [length]. lia.
  - exists []. rewrite capture_loop_done by assumption. cbn. rewrite app_nil_r.
    splits; [reflexivity | constructor | constructor | intros; constructor | lia].
Qed.

(** What [capture] does before its loop. *)
Lemma capture_with_eq fuel cfg s :
  capture_with E fuel cfg s =
  capture_loop E fuel cfg
    (set_remaining_num_traces (num_traces cfg)
       ((if batch_mode cfg
         then fun s => set_log (log s ++ [FvsrFixedMsgSet (text_fixed cfg)]) s
         else fun s => s)
          (set_num_segments_storage 1
             (set_sample_fixed 0 (set_text (text_fixed cfg) s))))).
Proof. unfold capture_with. now destruct (batch_mode cfg). Qed.

(** More unrolling than there are traces to take changes nothing: every
    pass that goes through takes at least one trace off what remains. *)
Lemma capture_loop_enough cfg : forall fuel fuel' s,
  (Z.to_nat (remaining_num_traces s) <= fuel)%nat -> (fuel <= fuel')%nat ->
  capture_loop E fuel' cfg s = capture_loop E fuel cfg s.
Proof.
  induction fuel as [| fuel IH]; intros fuel' s Hfuel Hle;
    destruct (Z.lt_ge_cases 0 (remaining_num_traces s)) as [Hrem | Hrem];
    try (now rewrite !capture_loop_done by assumption).
  - lia.
  - destruct fuel' as [| fuel']; [lia |].
    rewrite !capture_loop_step by assumption.
    destruct (iteration E cfg s) as [[[] | e] s1] eqn:Hiter; [| reflexivity].
    apply iteration_ret in Hiter as (_ & _ & _ & _ & _ & _ & _ & Hns & Hrem1).
    apply IH; lia.
Qed.

(** With as much unrolling as there are traces to take, the loop does
    not run into its bound, whatever the number of segments. *)
Lemma capture_loop_ends_any cfg :
  generators_end ->
  forall fuel s,
    (Z.to_nat (remaining_num_traces s) <= fuel)%nat ->
    fst (capture_loop E fuel cfg s) <> Raise OutOfFuel.
Proof.
  intros Hdg. induction fuel as [| fuel IH]; intros s Hfuel;
    destruct (Z.lt_ge_cases 0 (remaining_num_traces s)) as [Hrem | Hrem];
    try (now rewrite capture_loop_done by assumption).
  - lia.
  - rewrite capture_loop_step by assumption.
    destruct (iteration E cfg s) as [[[] | e] s1] eqn:Hiter.
    + apply iteration_ret in Hiter as (_ & _ & _ & _ & _ & _ & _ & Hns & Hrem1).
      apply IH. lia.
    + intros [= ->]. now apply (iteration_ends E Hdg cfg s OutOfFuel s1 Hiter).
Qed.

End CapturePasses.

(** ** The capture script: what can go wrong where the host hashes *)

Lemma SHA3_256_digest_bytes data : forallb is_byte (SHA3_256_digest data) = true.
Proof.
  unfold SHA3_256_digest, Keccak.sponge. apply forallb_forall. intros x Hx.
  apply in_map_iff in Hx as (k & <- & _). unfold Keccak.state_byte.
  change 0xFF with (Z.ones 8). rewrite Z.land_ones by lia.
  match goal with |- is_byte (?a mod _) = true =>
    pose proof (Z.mod_pos_bound a (2 ^ 8) eq_refl) as Hb end.
  change (2 ^ 8) with 256 in *. unfold is_byte.
  apply andb_true_iff. split; [apply Z.leb_le | apply Z.ltb_lt]; lia.
Qed.

Section CaptureErrors.

Import CaptureLog.

Context (E : Env) `{DgSha3}.

Variable cfg : CaptureConfig.
Hypothesis Hhost : host_hashes cfg = true.
Hypothesis Hfixed : forallb is_byte (text_fixed cfg) = true.

(** Where the host hashes, generating the next sample cannot fail. *)
Lemma generate_ref_crypto_host s :
  text_is_bytes cfg s ->
  exists t f s1,
    generate_ref_crypto E (sample_fixed s) (capture_mode cfg) (batch_mode cfg)
                        (text s) (text_fixed cfg) (text_len_bytes cfg) s
    = (Ret (t, SHA3_256_digest t, f), s1) /\
    forallb is_byte t = true /\
    (capture_mode cfg = "sha3_random" -> t = text s).
Proof.
  intros Hvalid. unfold generate_ref_crypto.
  rewrite (host_hashes_not_generator cfg Hhost).
  destruct (bool_decide (capture_mode cfg = "sha3_random")) eqn:Hmode.
  - apply bool_decide_eq_true in Hmode. specialize (Hvalid Hmode).
    rewrite (bind_ret _ _ _ _ _ (bytes_ok (text s) s Hvalid)).
    exists (text s), (sample_fixed s), s. now repeat split.
  - apply bool_decide_eq_false in Hmode.
    assert (exists pt s1,
      (if bool_decide (sample_fixed s <> 0) then ret (text_fixed cfg)
       else random_bytes E (Z.to_nat (text_len_bytes cfg))) s = (Ret pt, s1) /\
      forallb is_byte pt = true) as (pt & s1 & Hpt & Hbytes).
    { destruct (bool_decide (sample_fixed s <> 0)).
      - now exists (text_fixed cfg), s.
      - rewrite random_bytes_eq. eexists _, _. split; [reflexivity |].
        apply draws_are_bytes. }
    rewrite (bind_ret _ _ _ _ _ Hpt).
    rewrite (bind_ret _ _ _ _ _ (random_bytes_eq E 16 s1)).
    rewrite (bind_ret _ _ _ _ _ (bytes_ok pt _ Hbytes)).
    eexists pt, _, _. split; [reflexivity |]. split; [exact Hbytes |].
    intros ?. contradiction.
Qed.

Lemma next_sample_host s :
  text_is_bytes cfg s ->
  exists s1,
    next_sample E cfg s = (Ret tt, s1) /\
    text_is_bytes cfg s1 /\
    forallb is_byte (text s1) = true /\
    ciphertext s1 = Some (SHA3_256_digest (text s1)).
Proof.
  intros Hvalid. unfold next_sample.
  rewrite (bind_ret get _ s s s eq_refl).
  destruct (generate_ref_crypto_host s Hvalid) as (t & f & s1 & Hgen & Hbytes & _).
  rewrite (bind_ret _ _ _ _ _ Hgen).
  eexists. split; [reflexivity |]. cbn. repeat split; auto. now intros _.
Qed.

(** Where the host hashes, a segment for which there is a wave returns
    or fails the assertion on the wave. *)
Lemma segment_host waves i s :
  text_is_bytes cfg s -> (i < length waves)%nat ->
  (exists s', segment E cfg waves i s = (Ret tt, s') /\
              text_is_bytes cfg s' /\ is_Some (expected_ciphertext s')) \/
  (exists s', segment E cfg waves i s = (Raise AssertionError, s')).
Proof.
  intros Hvalid Hi. unfold segment.
  change (batch_mode cfg || bool_decide (capture_mode cfg = "sha3_random"))
    with (host_hashes cfg). rewrite Hhost.
  destruct (next_sample_host s Hvalid) as (s1 & Hs1 & Hvalid1 & Hbytes & Hc).
  rewrite (bind_ret _ _ _ _ _ Hs1).
  destruct (lookup_lt_is_Some_2 waves i Hi) as [w Hw]. rewrite Hw.
  rewrite (bind_ret (ret w) _ s1 w s1 eq_refl).
  destruct (1 <=? length w)%nat.
  2: { right. exists s1. reflexivity. }
  rewrite (bind_ret (assert true) _ s1 tt s1 eq_refl).
  rewrite (bind_ret get _ s1 s1 s1 eq_refl).
  rewrite (bind_ret _ _ _ _ _ (bytes_ok (text s1) s1 Hbytes)).
  rewrite Hc.
  rewrite (bind_ret (bound (Some (SHA3_256_digest (text s1)))) _ s1 _ s1 eq_refl).
  rewrite (bind_ret _ _ _ _ _ (bytes_ok _ s1 (SHA3_256_digest_bytes (text s1)))).
  set (c := SHA3_256_digest (text s1)) in *.
  set (s2 := set_log (log s1 ++ [AppendTrace w (text s1) c]) s1).
  rewrite (bind_ret (emit (AppendTrace w (text s1) c)) _ s1 tt s2 eq_refl).
  assert (exists s3,
    (if bool_decide (capture_mode cfg = "sha3_random")
     then p <- random_bytes E 16 ;; modify (set_plaintext (Some p))
     else ret tt) s2 = (Ret tt, s3) /\
    text s3 = text s1 /\ ciphertext s3 = Some c) as (s3 & Hs3 & Htext3 & Hc3).
  { destruct (bool_decide (capture_mode cfg = "sha3_random")).
    - rewrite (bind_ret _ _ _ _ _ (random_bytes_eq E 16 s2)).
      eexists. split; [reflexivity |]. split; [reflexivity | exact Hc].
    - exists s2. split; [reflexivity |]. split; [reflexivity | exact Hc]. }
  rewrite (bind_ret _ _ _ _ _ Hs3).
  rewrite (bind_ret get _ s3 s3 s3 eq_refl).
  rewrite Hc3. left.
  assert (forall v, text_is_bytes cfg (set_expected_ciphertext v s3)) as Hvalid3.
  { intros v Hmode. change (text (set_expected_ciphertext v s3)) with (text s3).
    rewrite Htext3. exact Hbytes. }
  destruct (batch_mode cfg);
    rewrite (bind_ret (bound (Some c)) _ s3 c s3 eq_refl);
    (eexists; split; [reflexivity |]); (split; [apply Hvalid3 | eexists; reflexivity]).
Qed.

(** The segments of a batch for which there are waves. *)
Lemma segments_host waves n : forall i s,
  text_is_bytes cfg s -> (i + n <= length waves)%nat ->
  (exists s', for_range (segment E cfg waves) i n s = (Ret tt, s') /\
              text_is_bytes cfg s' /\
              ((1 <= n)%nat -> is_Some (expected_ciphertext s'))) \/
  (exists s', for_range (segment E cfg waves) i n s = (Raise AssertionError, s')).
Proof.
  induction n as [| n IH]; intros i s Hvalid Hi.
  - left. exists s. repeat split; [exact Hvalid | lia].
  - cbn [for_range].
    destruct (segment_host waves i s Hvalid ltac:(lia))
      as [(s1 & Hseg & Hvalid1 & Hexp) | (s1 & Hseg)].
    + rewrite (bind_ret _ _ _ _ _ Hseg).
      destruct n as [| n].
      * left. exists s1. now repeat split.
      * destruct (IH (S i) s1 Hvalid1 ltac:(lia)) as [(s' & Hrun & Hvalid' & Hexp') | Hfail];
          [| now right].
        left. exists s'. repeat split; try assumption. intros _. apply Hexp'. lia.
    + right. exists s1. now rewrite (bind_raise _ _ _ _ _ Hseg).
Qed.

(** Where the host hashes, a batch of at least one segment returns
    with an expected value, or fails an assertion. *)
Lemma acquire_host s :
  text_is_bytes cfg s ->
  1 <= num_segments cfg ->
  (batch_mode cfg = true -> num_segments cfg < 2 ^ 32) ->
  (exists s', acquire E cfg s = (Ret tt, s') /\
              text_is_bytes cfg s' /\ is_Some (expected_ciphertext s')) \/
  (exists s', acquire E cfg s = (Raise AssertionError, s')).
Proof.
  intros Hvalid Hns Hfit. unfold acquire.
  set (sa := set_log (log s ++ [Arm]) s).
  rewrite (bind_ret (emit Arm) _ s tt sa eq_refl).
  assert (exists st,
    (if batch_mode cfg then
       n <- to_bytes_4_little (num_segments cfg) ;; emit (AbsorbBatch n)
     else
       (if bool_decide (capture_mode cfg = "sha3_fvsr_data")
        then next_sample E cfg else ret tt) ;;
       s <- get ;; emit (Absorb (text s))) sa = (Ret tt, st) /\
    text st = text s) as (st & Htrig & Htext).
  { destruct (batch_mode cfg) eqn:Hb.
    - destruct (to_bytes_4_little_fits (num_segments cfg) sa) as (n & Hn & _);
        [specialize (Hfit eq_refl); lia |].
      rewrite (bind_ret _ _ _ _ _ Hn). eexists. split; reflexivity.
    - unfold host_hashes in Hhost. rewrite Hb in Hhost. cbn in Hhost.
      apply bool_decide_eq_true in Hhost. rewrite Hhost.
      rewrite bool_decide_eq_false_2 by discriminate.
      eexists. split; reflexivity. }
  rewrite (bind_ret _ _ _ _ _ Htrig).
  rewrite (bind_ret get _ st st st eq_refl).
  set (sc := set_log (log st ++ [CaptureAndTransferWaves]) st).
  rewrite (bind_ret (emit CaptureAndTransferWaves) _ st tt sc eq_refl).
  set (waves := waves_of E (count is_transfer (log st))).
  destruct (Z.of_nat (length waves) =? num_segments cfg) eqn:Hwaves.
  2: { right. exists sc. reflexivity. }
  apply Z.eqb_eq in Hwaves.
  rewrite (bind_ret (assert true) _ sc tt sc eq_refl).
  set (se := set_expected_ciphertext None sc).
  rewrite (bind_ret (modify (set_expected_ciphertext None)) _ sc tt se eq_refl).
  destruct (segments_host waves (Z.to_nat (num_segments cfg)) 0%nat se)
    as [(s' & Hrun & Hvalid' & Hexp) | Hfail]; [| lia | | now right].
  { intros Hmode. cbn. rewrite Htext. now apply Hvalid. }
  left. exists s'. repeat split; try assumption. apply Hexp. lia.
Qed.

Lemma iteration_host s :
  text_is_bytes cfg s ->
  1 <= num_segments cfg ->
  (batch_mode cfg = true -> num_segments cfg < 2 ^ 32) ->
  (exists s', iteration E cfg s = (Ret tt, s') /\ text_is_bytes cfg s' /\
              remaining_num_traces s' = remaining_num_traces s - num_segments cfg) \/
  (exists s', iteration E cfg s = (Raise AssertionError, s')).
Proof.
  intros Hvalid Hns Hfit.
  destruct (acquire_host s Hvalid Hns Hfit) as [(s1 & Hacq & Hvalid1 & [x Hexp]) | [s1 Hacq]].
  - destruct (iteration E cfg s) as [[[] | e] s'] eqn:Hiter.
    + left. exists s'. split; [reflexivity |].
      assert (Hret := Hiter).
      apply iteration_ret in Hret as (_ & _ & _ & _ & _ & _ & _ & _ & Hrem).
      split; [| exact Hrem].
      rewrite iteration_eq, Hacq, Hexp in Hiter.
      destruct (bool_decide _); [| discriminate]. injection Hiter as <-.
      exact Hvalid1.
    + right. exists s'. rewrite iteration_eq, Hacq, Hexp in Hiter.
      destruct (bool_decide _); [discriminate |]. now injection Hiter as <- <-.
  - right. exists s1. now rewrite iteration_eq, Hacq.
Qed.

Lemma capture_loop_host : forall fuel s,
  text_is_bytes cfg s ->
  1 <= num_segments cfg ->
  (batch_mode cfg = true -> num_segments cfg < 2 ^ 32) ->
  (Z.to_nat (remaining_num_traces s) <= fuel)%nat ->
  (exists s', capture_loop E fuel cfg s = (Ret tt, s')) \/
  (exists s', capture_loop E fuel cfg s = (Raise AssertionError, s')).
Proof.
  induction fuel as [| fuel IH]; intros s Hvalid Hns Hfit Hfuel;
    destruct (Z.lt_ge_cases 0 (remaining_num_traces s)) as [Hrem | Hrem];
    try (left; exists s; now apply capture_loop_done).
  - lia.
  - rewrite capture_loop_step by assumption.
    destruct (iteration_host s Hvalid Hns Hfit)
      as [(s1 & Hiter & Hvalid1 & Hrem1) | (s1 & Hiter)]; rewrite Hiter.
    + apply IH; try assumption. lia.
    + right. now exists s1.
Qed.

End CaptureErrors.

Section CaptureFailures.

Context (E : Env) `{DgSha3}.

(** X14: where the host computes the digests (in batch mode and in
    [sha3_random] mode), with a fixed message that is a byte string
    and at least one segment per batch (in batch mode a number that
    fits in four bytes), [capture] returns or fails one of its
    assertions (the number of waves, a wave that is empty, the
    device's digest); it raises nothing else. *)
Theorem capture_failures (cfg : CaptureConfig) (s : state) :
  batch_mode cfg = true \/ capture_mode cfg = "sha3_random" ->
  forallb is_byte (text_fixed cfg) = true ->
  1 <= num_segments cfg ->
  (batch_mode cfg = true -> num_segments cfg < 2 ^ 32) ->
  (exists s', capture E cfg s = (Ret tt, s')) \/
  (exists s', capture E cfg s = (Raise AssertionError, s')).
Proof.
  intros Hmode Hfixed Hns Hfit.
  assert (CaptureLog.host_hashes cfg = true) as Hhost.
  { unfold CaptureLog.host_hashes. destruct Hmode as [-> | ->]; [reflexivity |].
    now rewrite bool_decide_eq_true_2, orb_true_r. }
  unfold capture. rewrite capture_with_eq.
  apply capture_loop_host; try assumption.
  - intros _. now destruct (batch_mode cfg).
  - destruct (batch_mode cfg); cbn; lia.
Qed.

End CaptureFailures.

(** ** The capture script: guarantees on every run *)

Section CaptureGuarantees.

Import CaptureLog.

Context (E : Env) `{DgSha3}.

Lemma traces_triggered cfg trig trs n tail :
  trigger cfg trig -> ending cfg n tail ->
  traces ([Arm; trig; CaptureAndTransferWaves] ++ trs ++ tail) = traces trs.
Proof.
  intros Htrig Hend. apply trigger_cases in Htrig as (_ & _ & Htrig).
  apply ending_cases in Hend as (Htail & _).
  change ([Arm; trig; CaptureAndTransferWaves])
    with ([Arm] ++ [trig] ++ [CaptureAndTransferWaves]).
  rewrite !traces_app, Htrig, Htail. simpl. apply app_nil_r.
Qed.

Lemma pass_traces_hashed cfg p :
  pass cfg p -> host_hashes cfg = true ->
  Forall (fun pc => forallb is_byte (fst pc) = true /\ snd pc = SHA3_256_digest (fst pc))
         (traces p).
Proof.
  intros [| trig trs tail Htrig Hst _ Hend] Hh; [constructor |].
  rewrite (traces_triggered cfg trig trs _ tail Htrig Hend). clear Hend.
  induction Hst as [| e l He _ IH]; [constructor |].
  rewrite traces_cons. destruct e; try contradiction.
  destruct He as (_ & Hp & _ & Hc). constructor; [| exact IH].
  split; [exact Hp | exact (Hc Hh)].
Qed.

Lemma concat_passes_traces (P : list Z * list Z -> Prop) passes :
  Forall (fun p => Forall P (traces p)) passes -> Forall P (traces (concat passes)).
Proof.
  induction 1 as [| p ps Hp _ IH]; [constructor |].
  cbn [concat]. rewrite traces_app. now apply Forall_app.
Qed.

Lemma entry_log cfg s :
  let s0 := set_remaining_num_traces (num_traces cfg)
              ((if batch_mode cfg
                then fun s => set_log (log s ++ [FvsrFixedMsgSet (text_fixed cfg)]) s
                else fun s => s)
                 (set_num_segments_storage 1
                    (set_sample_fixed 0 (set_text (text_fixed cfg) s)))) in
  log s0 = log s ++ (if batch_mode cfg then [FvsrFixedMsgSet (text_fixed cfg)] else []) /\
  remaining_num_traces s0 = num_traces cfg.
Proof. destruct (batch_mode cfg); cbn; now rewrite ?app_nil_r. Qed.

(** X6: however a capture ends, by returning or by an exception, what
    it has added to the log is the fixed message (in batch mode) and
    then a sequence of passes, of which only the last can be
    incomplete, and none is if [capture] returns.  In every pass the
    scope is armed before the device is triggered and the waves are
    transferred before any trace is stored; the batch command carries
    [num_segments] as four little-endian bytes; every stored trace has
    a wave that is not empty and byte strings for plaintext and digest,
    without batches the plaintext that was sent to the device; no more
    than [num_segments] traces are stored, and all of them before the
    device's reply is read. *)
Theorem capture_log_shape (cfg : CaptureConfig) (fuel : nat) (s : state) :
  exists passes,
    log (snd (capture_with E fuel cfg s)) =
      log s ++ (if batch_mode cfg then [FvsrFixedMsgSet (text_fixed cfg)] else [])
            ++ concat passes /\
    Forall (pass cfg) passes /\
    Forall (fun p => complete p = true) (removelast passes) /\
    (forall u, fst (capture_with E fuel cfg s) = Ret u ->
               Forall (fun p => complete p = true) passes).
Proof.
  rewrite capture_with_eq. destruct (entry_log cfg s) as [Hlog _].
  match type of Hlog with log ?s0 = _ =>
    destruct (capture_loop_passes E cfg fuel s0) as (passes & Hrun & Hp & Hdone & Hret & _)
  end.
  exists passes. rewrite Hrun, Hlog, <- app_assoc. now repeat split.
Qed.

(** X7: where the host computes the digests (in batch mode and in
    [sha3_random] mode), every trace that a capture stores, also one
    that ends in an exception, pairs a byte string with its SHA3-256
    digest. *)
Theorem stored_traces_consistent (cfg : CaptureConfig) (fuel : nat) (s : state) :
  batch_mode cfg = true \/ capture_mode cfg = "sha3_random" ->
  exists new,
    traces (log (snd (capture_with E fuel cfg s))) = traces (log s) ++ new /\
    Forall (fun pc => forallb is_byte (fst pc) = true /\
                      snd pc = SHA3_256_digest (fst pc)) new.
Proof.
  intros Hmode.
  assert (host_hashes cfg = true) as Hh.
  { unfold host_hashes. destruct Hmode as [-> | ->]; [reflexivity |].
    now rewrite bool_decide_eq_true_2, orb_true_r. }
  rewrite capture_with_eq. destruct (entry_log cfg s) as [Hlog _].
  match type of Hlog with log ?s0 = _ =>
    destruct (capture_loop_passes E cfg fuel s0) as (passes & Hrun & Hp & _)
  end.
  exists (traces (concat passes)). split.
  - rewrite Hrun, Hlog, !traces_app, <- app_assoc. f_equal.
    now destruct (batch_mode cfg).
  - apply concat_passes_traces. eapply Forall_impl; [exact Hp |].
    intros p Hpass. now apply (pass_traces_hashed cfg).
Qed.

Lemma concat_passes_counts cfg passes :
  Forall (pass cfg) passes ->
  count is_arm (concat passes) = length passes /\
  Z.of_nat (length (traces (concat passes))) <=
    Z.of_nat (length passes) * Z.max 0 (num_segments cfg).
Proof.
  induction 1 as [| p ps Hp _ [IHa IHt]]; [split; [reflexivity | simpl; lia] |].
  apply pass_counts in Hp as (Harm & _ & Htr).
  cbn [concat]. rewrite count_app, traces_app, length_app, Harm, IHa, length_cons.
  split; [reflexivity | nia].
Qed.

(** X8: a capture, also one that ends in an exception, arms the scope
    at most ceil(num_traces / num_segments) times and stores at most
    that many times [num_segments] traces, which is fewer than
    [num_traces + num_segments]. *)
Theorem capture_traces_bounded (cfg : CaptureConfig) (fuel : nat) (s : state) :
  1 <= num_traces cfg -> 1 <= num_segments cfg ->
  let s' := snd (capture_with E fuel cfg s) in
  let n := ceil_div (num_traces cfg) (num_segments cfg) in
  Z.of_nat (count is_arm (log s')) <= Z.of_nat (count is_arm (log s)) + n /\
  Z.of_nat (length (traces (log s'))) <=
    Z.of_nat (length (traces (log s))) + n * num_segments cfg /\
  n * num_segments cfg < num_traces cfg + num_segments cfg.
Proof.
  intros Hnt Hns s' n. subst s'.
  rewrite capture_with_eq. destruct (entry_log cfg s) as [Hlog Hrem].
  match type of Hlog with log ?s0 = _ =>
    destruct (capture_loop_passes E cfg fuel s0) as (passes & Hrun & Hp & _ & _ & Hcount)
  end.
  rewrite Hrem, (Z.max_r 1) in Hcount by lia. fold n in Hcount.
  assert (1 <= n) as Hn by (apply ceil_div_pos; lia).
  pose proof (ceil_div_bounds (num_traces cfg) _ Hns) as (_ & Hhi & _). fold n in Hhi.
  apply (concat_passes_counts cfg) in Hp as [Harm Htr].
  rewrite Hrun, Hlog, !count_app, !traces_app, !length_app, Harm.
  assert (count is_arm (if batch_mode cfg then [FvsrFixedMsgSet (text_fixed cfg)] else [])
          = 0%nat) as -> by now destruct (batch_mode cfg).
  assert (length (traces (if batch_mode cfg then [FvsrFixedMsgSet (text_fixed cfg)]
                          else [])) = 0%nat) as -> by now destruct (batch_mode cfg).
  split; [lia |]. split; [nia | exact Hhi].
Qed.


(** X10: [capture] ends by itself, for any configuration: its loop
    does not run into the bound of [num_traces] passes (given that the
    data generator's functions end), and unrolling it further changes
    neither the result nor the state; every pass either raises or takes
    at least one trace off those that remain. *)
Theorem capture_bound_suffices (cfg : CaptureConfig) (fuel : nat) (s : state) :
  generators_end ->
  (Z.to_nat (num_traces cfg) <= fuel)%nat ->
  capture_with E fuel cfg s = capture E cfg s /\
  fst (capture E cfg s) <> Raise OutOfFuel.
Proof.
  intros Hdg Hfuel. unfold capture. rewrite !capture_with_eq.
  destruct (entry_log cfg s) as [_ Hrem]. split.
  - apply capture_loop_enough; [now rewrite Hrem | exact Hfuel].
  - apply capture_loop_ends_any; [exact Hdg | now rewrite Hrem].
Qed.

Lemma absorbed_app l1 l2 : absorbed (l1 ++ l2) = absorbed l1 ++ absorbed l2.
Proof. apply omap_app. Qed.

Lemma stores_traces t trs :
  Forall (stores t) trs ->
  absorbed trs = [] /\ map fst (traces trs) = replicate (length trs) t.
Proof.
  induction 1 as [| e l (w & c & ->) _ [IHa IHt]]; [now split |].
  split; [exact IHa |]. rewrite traces_cons. simpl. now rewrite IHt.
Qed.

(** Without batches and with one segment, a pass stores the plaintext
    it has sent to the device, unless it ends before. *)
Lemma pass_sent cfg p :
  batch_mode cfg = false -> num_segments cfg = 1 -> pass cfg p ->
  exists sent rest,
    absorbed p = sent ++ rest /\ map fst (traces p) = sent /\
    (length rest <= 1)%nat /\ (complete p = true -> rest = []).
Proof.
  intros Hb Hns [| trig trs tail Htrig Hst Hsent Hend].
  { exists [], []. repeat split; auto. }
  destruct trig as [| | n | t | | | | |]; try contradiction.
  { destruct Htrig as [Htrig _]. congruence. }
  destruct (stores_traces t trs (Hsent t eq_refl)) as [Habs Htr].
  rewrite (traces_triggered cfg _ trs _ tail Htrig Hend), Htr.
  assert (absorbed ([Arm; Absorb t; CaptureAndTransferWaves] ++ trs ++ tail) = [t])
    as ->.
  { rewrite !absorbed_app, Habs. now destruct Hend. }
  assert (length trs = 1%nat \/ length trs = 0%nat /\ tail = []) as [Hlen | [Hlen ->]]
    by (destruct Hend; [| left; lia | left; lia];
        destruct (length trs) as [| [| ?]]; auto; lia).
  - exists [t], []. rewrite Hlen. repeat split; auto.
  - exists [], [t]. rewrite Hlen. repeat split; auto.
    unfold complete. rewrite app_nil_r.
    destruct trs; [discriminate | discriminate].
Qed.

Lemma concat_sent cfg : forall passes,
  batch_mode cfg = false -> num_segments cfg = 1 ->
  Forall (pass cfg) passes ->
  Forall (fun p => complete p = true) (removelast passes) ->
  exists sent rest,
    absorbed (concat passes) = sent ++ rest /\
    map fst (traces (concat passes)) = sent /\
    (length rest <= 1)%nat /\
    (Forall (fun p => complete p = true) passes -> rest = []).
Proof.
  intros passes Hb Hns. induction passes as [| p ps IH]; intros Hp Hdone.
  { exists [], []. repeat split; auto. }
  apply Forall_cons in Hp as [Hpass Hps].
  destruct (pass_sent cfg p Hb Hns Hpass) as (sent & rest & Habs & Htr & Hlen & Hcomplete).
  destruct ps as [| q ps].
  - exists sent, rest. cbn [concat]. rewrite app_nil_r.
    repeat split; try assumption. intros Hall. apply Hcomplete.
    now inversion Hall.
  - change (removelast (p :: q :: ps)) with (p :: removelast (q :: ps)) in Hdone.
    apply Forall_cons in Hdone as [Hpc Hdone'].
    destruct (IH Hps Hdone') as (sent' & rest' & Habs' & Htr' & Hlen' & Hall').
    rewrite (Hcomplete Hpc), app_nil_r in Habs.
    exists (sent ++ sent'), rest'.
    change (concat (p :: q :: ps)) with (p ++ concat (q :: ps)).
    rewrite absorbed_app, traces_app, map_app, Habs, Habs', Htr, Htr', <- app_assoc.
    repeat split; try assumption. intros Hall. apply Hall'. now inversion Hall.
Qed.

(** X11: without batches and with one segment per pass (as [main]
    sets it), the plaintexts stored with the traces are, in order, the
    plaintexts sent to the device; if the capture ends in an exception
    the last plaintext sent may be without a trace. *)
Theorem device_input_is_stored (cfg : CaptureConfig) (fuel : nat) (s : state) :
  batch_mode cfg = false -> num_segments cfg = 1 ->
  let r := capture_with E fuel cfg s in
  exists sent rest,
    absorbed (log (snd r)) = absorbed (log s) ++ sent ++ rest /\
    map fst (traces (log (snd r))) = map fst (traces (log s)) ++ sent /\
    (length rest <= 1)%nat /\
    (forall u, fst r = Ret u -> rest = []).
Proof.
  intros Hb Hns r. subst r.
  rewrite capture_with_eq. destruct (entry_log cfg s) as [Hlog _].
  rewrite Hb in Hlog |- *. rewrite app_nil_r in Hlog.
  match type of Hlog with log ?s0 = _ =>
    destruct (capture_loop_passes E cfg fuel s0) as (passes & Hrun & Hp & Hdone & Hret & _)
  end.
  destruct (concat_sent cfg passes Hb Hns Hp Hdone) as (sent & rest & Habs & Htr & Hlen & Hall).
  exists sent, rest.
  rewrite Hrun, Hlog, !absorbed_app, !traces_app, !map_app, Habs, Htr.
  repeat split; try assumption. intros u Hu. exact (Hall (Hret u Hu)).
Qed.

End CaptureGuarantees.

(** ** The guarantees on the test bench *)

Section GuaranteesOnTheBench.

Import Bench.

#[local] Existing Instance dg_sha3.

Lemma stored_traces_consistent_witness :
  (batch_mode cfg_batch = true \/ capture_mode cfg_batch = "sha3_random") /\
  exists new,
    traces (log (snd (capture_with (silent 3) 2 cfg_batch start))) =
      traces (log start) ++ new /\
    Forall (fun pc => forallb is_byte (fst pc) = true /\
                      snd pc = SHA3_256_digest (fst pc)) new.
Proof.
  assert (batch_mode cfg_batch = true \/ capture_mode cfg_batch = "sha3_random") as Hmode
    by (left; reflexivity).
  split; [exact Hmode |].
  exact (stored_traces_consistent (silent 3) cfg_batch 2 start Hmode).
Defined.

Lemma capture_traces_bounded_witness :
  (1 <= num_traces cfg_batch /\ 1 <= num_segments cfg_batch) /\
  let s' := snd (capture_with (silent 3) 2 cfg_batch start) in
  let n := ceil_div (num_traces cfg_batch) (num_segments cfg_batch) in
  Z.of_nat (count is_arm (log s')) <= Z.of_nat (count is_arm (log start)) + n /\
  Z.of_nat (length (traces (log s'))) <=
    Z.of_nat (length (traces (log start))) + n * num_segments cfg_batch /\
  n * num_segments cfg_batch < num_traces cfg_batch + num_segments cfg_batch.
Proof.
  assert (1 <= num_traces cfg_batch) as Hnt by (change (num_traces cfg_batch) with 5; lia).
  assert (1 <= num_segments cfg_batch) as Hns
    by (change (num_segments cfg_batch) with 3; lia).
  split; [split; [exact Hnt | exact Hns] |].
  exact (capture_traces_bounded (silent 3) cfg_batch 2 start Hnt Hns).
Defined.


Lemma capture_bound_suffices_witness :
  (generators_end /\ (Z.to_nat (num_traces cfg_random) <= 7)%nat) /\
  capture_with (silent 1) 7 cfg_random start = capture (silent 1) cfg_random start /\
  fst (capture (silent 1) cfg_random start) <> Raise OutOfFuel.
Proof.
  assert (generators_end) as Hdg by (intros w; split; cbn; discriminate).
  assert (Z.to_nat (num_traces cfg_random) <= 7)%nat as Hfuel
    by (change (Z.to_nat (num_traces cfg_random)) with 2%nat; lia).
  split; [split; [exact Hdg | exact Hfuel] |].
  exact (capture_bound_suffices (silent 1) cfg_random 7 start Hdg Hfuel).
Defined.

Lemma device_input_is_stored_witness :
  (batch_mode cfg_random = false /\ num_segments cfg_random = 1) /\
  let r := capture_with (silent 1) 3 cfg_random start in
  exists sent rest,
    absorbed (log (snd r)) = absorbed (log start) ++ sent ++ rest /\
    map fst (traces (log (snd r))) = map fst (traces (log start)) ++ sent /\
    (length rest <= 1)%nat /\
    (forall u, fst r = Ret u -> rest = []).
Proof.
  split; [split; reflexivity |].
  exact (device_input_is_stored (silent 1) cfg_random 3 start eq_refl eq_refl).
Defined.

Lemma capture_failures_witness :
  ((batch_mode cfg_batch = true \/ capture_mode cfg_batch = "sha3_random") /\
   forallb is_byte (text_fixed cfg_batch) = true /\
   1 <= num_segments cfg_batch /\
   (batch_mode cfg_batch = true -> num_segments cfg_batch < 2 ^ 32)) /\
  ((exists s', capture (silent 3) cfg_batch start = (Ret tt, s')) \/
   (exists s', capture (silent 3) cfg_batch start = (Raise AssertionError, s'))).
Proof.
  assert (batch_mode cfg_batch = true \/ capture_mode cfg_batch = "sha3_random") as Hmode
    by (left; reflexivity).
  assert (forallb is_byte (text_fixed cfg_batch) = true) as Hfixed by reflexivity.
  assert (1 <= num_segments cfg_batch) as Hns
    by (change (num_segments cfg_batch) with 3; lia).
  assert (batch_mode cfg_batch = true -> num_segments cfg_batch < 2 ^ 32) as Hfit
    by (intros _; change (num_segments cfg_batch) with 3; lia).
  split; [splits; [exact Hmode | exact Hfixed | exact Hns | exact Hfit] |].
  exact (capture_failures (silent 3) cfg_batch start Hmode Hfixed Hns Hfit).
Defined.

End GuaranteesOnTheBench.

(** ** Configuring the device *)

Section ConfigureCipherSeeds.

Import ConfigureCipher.

(** X12: in batch mode [configure_cipher] returns exactly when both
    seeds fit in four bytes.  It has then switched the masks off if
    [masks_off] is the boolean true and on for any other value, seeded
    the host's generator, and sent the device the two seeds as four
    little-endian bytes each, the generator seed being the one the host
    was seeded with.  Otherwise it raises [OverflowError] when the host
    is seeded already and the device's generator is not. *)
Theorem configure_cipher_seeds (cfg : TestConfig) (capture_cfg : CaptureConfig)
    (l0 : list command) :
  batch_mode capture_cfg = true ->
  let r := configure_cipher cfg capture_cfg l0 in
  let fits n := 0 <= n < 2 ^ 32 in
  exists mask,
    (mask = SetMaskOff /\ masks_off cfg = YBool true \/
     mask = SetMaskOn /\ masks_off cfg <> YBool true) /\
    (fst r = Ret tt <-> fits (lfsr_seed cfg) /\ fits (batch_prng_seed cfg)) /\
    (fst r = Ret tt ->
     exists l b,
       snd r = l0 ++ [mask; RandomSeed (batch_prng_seed cfg);
                      WriteLfsrSeed l; SeedPrng b] /\
       length l = 4%nat /\ from_bytes_little l = lfsr_seed cfg /\
       length b = 4%nat /\ from_bytes_little b = batch_prng_seed cfg) /\
    (fst r <> Ret tt ->
     fst r = Raise OverflowError /\
     exists rest,
       snd r = l0 ++ [mask; RandomSeed (batch_prng_seed cfg)] ++ rest /\
       forall b, SeedPrng b ∉ rest).
Proof.
  intros Hbatch r fits. subst r. unfold configure_cipher. rewrite Hbatch.
  set (mask := match masks_off cfg with YBool true => SetMaskOff | _ => SetMaskOn end).
  exists mask. split.
  { subst mask. destruct (masks_off cfg) as [[|] | | |]; auto; right; now split. }
  assert ((match masks_off cfg with
           | YBool true => send SetMaskOff
           | _ => send SetMaskOn
           end) l0 = (Ret tt, l0 ++ [mask])) as Hmask
    by (subst mask; now destruct (masks_off cfg) as [[|] | | |]).
  rewrite (bind_ret _ _ _ _ _ Hmask).
  rewrite (bind_ret (send (RandomSeed (batch_prng_seed cfg))) _ (l0 ++ [mask]) tt
             ((l0 ++ [mask]) ++ [RandomSeed (batch_prng_seed cfg)]) eq_refl).
  rewrite <- app_assoc. cbn [app].
  set (l1 := l0 ++ [mask; RandomSeed (batch_prng_seed cfg)]).
  destruct (decide (fits (lfsr_seed cfg))) as [Hl | Hl].
  - destruct (to_bytes_4_little_fits (lfsr_seed cfg) l1 Hl) as (l & Hrun & Hlen & Hval).
    rewrite (bind_ret _ _ _ _ _ Hrun).
    rewrite (bind_ret (send (WriteLfsrSeed l)) _ l1 tt (l1 ++ [WriteLfsrSeed l]) eq_refl).
    destruct (decide (fits (batch_prng_seed cfg))) as [Hb | Hb].
    + destruct (to_bytes_4_little_fits (batch_prng_seed cfg) (l1 ++ [WriteLfsrSeed l]) Hb)
        as (b & Hrun' & Hlen' & Hval').
      rewrite (bind_ret _ _ _ _ _ Hrun'). cbn [send modify fst snd].
      split; [now split |]. split; [| now intros []].
      intros _. exists l, b. subst l1. rewrite <- !app_assoc. now repeat split.
    + rewrite (bind_raise _ _ _ _ _ (to_bytes_4_little_overflow _ _ Hb)). cbn [fst snd].
      split; [split; [discriminate | intros [_ ?]; contradiction] |].
      split; [discriminate |]. intros _. split; [reflexivity |].
      exists [WriteLfsrSeed l]. subst l1. rewrite <- app_assoc. split; [reflexivity |].
      intros b Hin. apply list_elem_of_singleton in Hin. discriminate.
  - rewrite (bind_raise _ _ _ _ _ (to_bytes_4_little_overflow _ _ Hl)). cbn [fst snd].
    split; [split; [discriminate | intros [? _]; contradiction] |].
    split; [discriminate |]. intros _. split; [reflexivity |].
    exists []. subst l1. cbn [app]. split; [reflexivity |].
    intros b Hin. now apply not_elem_of_nil in Hin.
Qed.

Lemma configure_cipher_seeds_witness :
  let cfg := {| masks_off := YBool true; batch_prng_seed := 0x12345678;
                lfsr_seed := 0xDEADBEEF |} in
  batch_mode Bench.cfg_batch = true /\
  let r := configure_cipher cfg Bench.cfg_batch [] in
  let fits n := 0 <= n < 2 ^ 32 in
  exists mask,
    (mask = SetMaskOff /\ masks_off cfg = YBool true \/
     mask = SetMaskOn /\ masks_off cfg <> YBool true) /\
    (fst r = Ret tt <-> fits (lfsr_seed cfg) /\ fits (batch_prng_seed cfg)) /\
    (fst r = Ret tt ->
     exists l b,
       snd r = [] ++ [mask; RandomSeed (batch_prng_seed cfg);
                      WriteLfsrSeed l; SeedPrng b] /\
       length l = 4%nat /\ from_bytes_little l = lfsr_seed cfg /\
       length b = 4%nat /\ from_bytes_little b = batch_prng_seed cfg) /\
    (fst r <> Ret tt ->
     fst r = Raise OverflowError /\
     exists rest,
       snd r = [] ++ [mask; RandomSeed (batch_prng_seed cfg)] ++ rest /\
       forall b, SeedPrng b ∉ rest).
Proof.
  intros cfg. split; [reflexivity |].
  exact (configure_cipher_seeds cfg Bench.cfg_batch [] eq_refl).
Defined.

End ConfigureCipherSeeds.

(** ** The expected value of a batch and the order of its segments *)

Section FoldOrder.

Lemma lxor_all_permutation (xs ys : list Z) :
  Permutation xs ys -> fold_right Z.lxor 0 xs = fold_right Z.lxor 0 ys.
Proof.
  induction 1 as [| x xs ys _ IH | x y xs | xs ys zs _ IH1 _ IH2]; simpl.
  - reflexivity.
  - now rewrite IH.
  - now rewrite <- (Z.lxor_assoc y x), <- (Z.lxor_assoc x y), (Z.lxor_comm y x).
  - congruence.
Qed.

Lemma xor_all_permutation n ds ds' : Permutation ds ds' -> xor_all n ds = xor_all n ds'.
Proof.
  intros Hp. unfold xor_all. apply map_ext. intros j.
  apply lxor_all_permutation. now apply Permutation_map.
Qed.

(** X13: the expected value of a batch does not depend on the order of
    its segments: folding digests of one length in any order gives the
    same value, so the check at the end of a batch cannot tell in which
    order the segments were processed. *)
Theorem fold_digests_order (n : nat) (ds ds' : list (list Z)) :
  Permutation ds ds' ->
  Forall (fun d => length d = n) ds ->
  fold_digests None ds = fold_digests None ds'.
Proof.
  intros Hp Hall.
  assert (Forall (fun d => length d = n) ds') as Hall'.
  { apply Forall_forall. intros d Hd. rewrite Forall_forall in Hall. apply Hall.
    apply list_elem_of_In. apply list_elem_of_In in Hd.
    now apply (Permutation_in _ (Permutation_sym Hp)). }
  destruct ds as [| d ds], ds' as [| d' ds'].
  - reflexivity.
  - now apply Permutation_nil_cons in Hp.
  - now apply Permutation_sym, Permutation_nil_cons in Hp.
  - rewrite (fold_digests_xor_all n d ds Hall), (fold_digests_xor_all n d' ds' Hall').
    f_equal. now apply xor_all_permutation.
Qed.

Lemma fold_digests_order_witness :
  let ds := [[1; 2]; [4; 8]; [16; 32]] in
  let ds' := [[16; 32]; [1; 2]; [4; 8]] in
  (Permutation ds ds' /\ Forall (fun d => length d = 2%nat) ds) /\
  fold_digests None ds = fold_digests None ds'.
Proof.
  intros ds ds'.
  assert (Permutation ds ds') as Hp.
  { subst ds ds'. apply Permutation_sym. apply (Permutation_cons_app [_; _] []).
    reflexivity. }
  assert (Forall (fun d => length d = 2%nat) ds) as Hall
    by (repeat constructor).
  split; [split; [exact Hp | exact Hall] |].
  exact (fold_digests_order 2 ds ds' Hp Hall).
Defined.

End FoldOrder.
